(** * Voice chat turn-taking: the AudioRecorder silence detector and the
      VoiceChatDigitalTwin orchestrator

    A shallow embedding of [lib/audioRecorder] (class [AudioRecorder]) and of
    the handlers of [components/VoiceChatDigitalTwin.tsx], with the properties
    the specification states about them.

    Conventions of the embedding.
    - A JavaScript [number] is a rational [Q]: the doubles are among the
      rationals, and the code only compares, adds and divides them.  A sum is
      the double nearest to the exact sum ([Js.add]); the quotients (by the
      period of the monitor, by the number of frequency bins, of two set
      sizes) are the exact ones.  [NaN] exists only where the code can
      receive it (the constructor's options).  Infinities are outside the
      model.
    - A browser object the code holds through a nullable field is an [option];
      every call the code makes on the platform (timers, media recorder,
      tracks, audio context, callbacks of the owner, network) is logged as an
      effect, in program order.  [console.log] is not modelled.
    - A method that can throw returns a [Completion]; the state it had
      reached when it threw is kept, as in JavaScript. *)

From Stdlib Require Import String Ascii.
From Stdlib Require Import List Bool ZArith QArith Qround Qabs Qpower Lia.
Import ListNotations.

(* ------------------------------------------------------------------------- *)
(** ** JavaScript values *)

Module Js.

(** [number], as far as the constructor can receive it. *)
Inductive number : Type :=
| NaN
| Num (q : Q).

(** ToBoolean on a number: [0] and [NaN] are falsy. *)
Definition toBoolean (n : number) : bool :=
  match n with
  | NaN => false
  | Num q => negb (Qeq_bool q 0)
  end.

(** [x || d] for an optional numeric property [x] ([undefined] is falsy);
    the default [d] is a finite number. *)
Definition orElse (x : option number) (d : Q) : Q :=
  match x with
  | None => d
  | Some n => if toBoolean n then match n with Num q => q | NaN => d end
              else d
  end.

(** An optional numeric property that [||] replaces by the default. *)
Definition falsy (x : option number) : bool :=
  match x with
  | None => true
  | Some n => negb (toBoolean n)
  end.

(** Truthiness of a nullable object reference. *)
Definition isSet {A} (x : option A) : bool :=
  match x with Some _ => true | None => false end.

(** [a < b] on finite numbers. *)
Definition ltb (a b : Q) : bool := negb (Qle_bool b a).

(** [a >= b] on finite numbers. *)
Definition geb (a b : Q) : bool := Qle_bool b a.

(** *** Doubles *)

(** The largest [e] with [2^e <= q], for a positive [q]. *)
Definition ilog2 (q : Q) : Z :=
  let k := (Z.log2 (Qnum q) - Z.log2 (Zpos (Qden q)))%Z in
  if Qle_bool (2 ^ k) q then k else (k - 1)%Z.

(** The exponent of the smallest normal double. *)
Definition minExponent : Z := (-1022)%Z.

(** The exponent of the leading binary place of the doubles around [q]; the
    subnormal doubles share that of the smallest normal one. *)
Definition exponent (q : Q) : Z := Z.max (ilog2 (Qabs q)) minExponent.

(** The distance between the doubles around [q]: 52 binary places below the
    leading one. *)
Definition ulp (q : Q) : Q := 2 ^ (exponent q - 52).

(** The whole number nearest to [q], the even one of two equally near. *)
Definition roundEven (q : Q) : Z :=
  let f := Qfloor q in
  match Qcompare (q - inject_Z f) (1 # 2) with
  | Lt => f
  | Gt => (f + 1)%Z
  | Eq => if Z.even f then f else (f + 1)%Z
  end.

(** The double nearest to [q], the one with the even significand of two
    equally near, in lowest terms.  Beyond the largest double the platform
    gives an infinity, which is outside the model. *)
Definition double (q : Q) : Q :=
  Qred (inject_Z (roundEven (q / ulp q)) * ulp q).

(** Is [q] a double? *)
Definition isDouble (q : Q) : bool := Qeq_bool (double q) q.

(** [a + b]: the numbers of a program are doubles, and their sum is the
    double nearest to the exact sum.  On rationals that are no doubles, which
    no program holds, the sum is the exact one. *)
Definition add (a b : Q) : Q :=
  if isDouble a && isDouble b then double (a + b) else a + b.
Global Arguments add : simpl never.

(** A [Blob]: its bytes and its MIME type. *)
Record Blob : Type := mkBlob { blobData : list Byte.byte; blobType : string }.

(** [blob.size] *)
Definition size (b : Blob) : Z := Z.of_nat (length (blobData b)).

(** [new Blob(parts, { type })] *)
Definition newBlob (parts : list Blob) (type : string) : Blob :=
  mkBlob (concat (map blobData parts)) type.

(** How a call ends. *)
Inductive Completion (A : Type) : Type :=
| Normal (a : A)
| Throw (message : string).
Arguments Normal {A} a.
Arguments Throw {A} message.

End Js.

(* ------------------------------------------------------------------------- *)
(** ** A state-and-effects monad for method bodies *)

Section Eff.
Context {St Ev : Type}.

Definition Eff (A : Type) : Type := St -> Js.Completion A * St * list Ev.

Definition ret {A} (a : A) : Eff A := fun s => (Js.Normal a, s, []).

Definition bind {A B} (m : Eff A) (k : A -> Eff B) : Eff B :=
  fun s =>
    match m s with
    | (Js.Normal a, s1, l1) =>
        let '(c, s2, l2) := k a s1 in (c, s2, l1 ++ l2)
    | (Js.Throw msg, s1, l1) => (Js.Throw msg, s1, l1)
    end.

Definition gets {A} (f : St -> A) : Eff A := fun s => (Js.Normal (f s), s, []).
Definition modify (f : St -> St) : Eff unit := fun s => (Js.Normal tt, f s, []).
Definition emit (e : Ev) : Eff unit := fun s => (Js.Normal tt, s, [e]).
Definition throw {A} (msg : string) : Eff A := fun s => (Js.Throw msg, s, []).
Definition when (b : bool) (m : Eff unit) : Eff unit := if b then m else ret tt.

(** [try { body } catch (error) { handler }] *)
Definition tryCatch {A} (body : Eff A) (handler : string -> Eff A) : Eff A :=
  fun s =>
    match body s with
    | (Js.Normal a, s1, l1) => (Js.Normal a, s1, l1)
    | (Js.Throw msg, s1, l1) =>
        let '(c, s2, l2) := handler msg s1 in (c, s2, l1 ++ l2)
    end.

Definition completion {A} (r : Js.Completion A * St * list Ev) := fst (fst r).
Definition state {A} (r : Js.Completion A * St * list Ev) : St := snd (fst r).
Definition effects {A} (r : Js.Completion A * St * list Ev) : list Ev := snd r.
End Eff.

Arguments Eff : clear implicits.

Declare Scope eff_scope.
Delimit Scope eff_scope with eff.
Notation "x <- m ;; k" := (bind m (fun x => k))
  (at level 61, m at next level, right associativity) : eff_scope.
Notation "m ;; k" := (bind m (fun _ => k))
  (at level 61, right associativity) : eff_scope.

(* ------------------------------------------------------------------------- *)
(** ** class AudioRecorder *)

Module AudioRecorder.

(** [MediaRecorder.state] *)
Inductive RecordingState : Type := inactive | recording | paused.

Variant MediaStream : Type := microphone.
Variant AudioContext : Type := context.
Variant AnalyserNode : Type := analyserNode.

(** The variables [startVolumeMonitoring] declares and its interval callback
    closes over. *)
Record Monitor : Type := mkMonitor {
  consecutiveSilenceChecks : Z;
  maxVolumeDetected : Q;
  silenceChecksNeeded : Z;
  soundThreshold : Q
}.

(** The constructor's [options]; a callback is a function or absent. *)
Record Options : Type := mkOptions {
  optSilenceThreshold : option Js.number;
  optSilenceDuration : option Js.number;
  optOnSilenceDetected : bool;
  optOnAudioData : bool;
  optOnVolumeChange : bool
}.

(** The fields of the class.  [volumeCheckInterval] holds the pending
    interval together with the variables of its callback. *)
Record t : Type := mk {
  mediaRecorder : option RecordingState;
  audioChunks : list Js.Blob;
  stream : option MediaStream;
  silenceTimeout : option nat;
  audioContext : option AudioContext;
  analyser : option AnalyserNode;
  silenceThreshold : Q;
  silenceDuration : Q;
  onSilenceDetected : bool;
  onAudioData : bool;
  onVolumeChange : bool;
  isRecording : bool;
  volumeCheckInterval : option Monitor;
  hasSoundDetected : bool;
  silenceTriggered : bool
}.

Definition setMediaRecorder v r :=
  mk v (audioChunks r) (stream r) (silenceTimeout r) (audioContext r)
     (analyser r) (silenceThreshold r) (silenceDuration r)
     (onSilenceDetected r) (onAudioData r) (onVolumeChange r) (isRecording r)
     (volumeCheckInterval r) (hasSoundDetected r) (silenceTriggered r).
Definition setAudioChunks v r :=
  mk (mediaRecorder r) v (stream r) (silenceTimeout r) (audioContext r)
     (analyser r) (silenceThreshold r) (silenceDuration r)
     (onSilenceDetected r) (onAudioData r) (onVolumeChange r) (isRecording r)
     (volumeCheckInterval r) (hasSoundDetected r) (silenceTriggered r).
Definition setStream v r :=
  mk (mediaRecorder r) (audioChunks r) v (silenceTimeout r) (audioContext r)
     (analyser r) (silenceThreshold r) (silenceDuration r)
     (onSilenceDetected r) (onAudioData r) (onVolumeChange r) (isRecording r)
     (volumeCheckInterval r) (hasSoundDetected r) (silenceTriggered r).
Definition setSilenceTimeout v r :=
  mk (mediaRecorder r) (audioChunks r) (stream r) v (audioContext r)
     (analyser r) (silenceThreshold r) (silenceDuration r)
     (onSilenceDetected r) (onAudioData r) (onVolumeChange r) (isRecording r)
     (volumeCheckInterval r) (hasSoundDetected r) (silenceTriggered r).
Definition setAudioContext v r :=
  mk (mediaRecorder r) (audioChunks r) (stream r) (silenceTimeout r) v
     (analyser r) (silenceThreshold r) (silenceDuration r)
     (onSilenceDetected r) (onAudioData r) (onVolumeChange r) (isRecording r)
     (volumeCheckInterval r) (hasSoundDetected r) (silenceTriggered r).
Definition setAnalyser v r :=
  mk (mediaRecorder r) (audioChunks r) (stream r) (silenceTimeout r)
     (audioContext r) v (silenceThreshold r) (silenceDuration r)
     (onSilenceDetected r) (onAudioData r) (onVolumeChange r) (isRecording r)
     (volumeCheckInterval r) (hasSoundDetected r) (silenceTriggered r).
Definition setIsRecording v r :=
  mk (mediaRecorder r) (audioChunks r) (stream r) (silenceTimeout r)
     (audioContext r) (analyser r) (silenceThreshold r) (silenceDuration r)
     (onSilenceDetected r) (onAudioData r) (onVolumeChange r) v
     (volumeCheckInterval r) (hasSoundDetected r) (silenceTriggered r).
Definition setVolumeCheckInterval v r :=
  mk (mediaRecorder r) (audioChunks r) (stream r) (silenceTimeout r)
     (audioContext r) (analyser r) (silenceThreshold r) (silenceDuration r)
     (onSilenceDetected r) (onAudioData r) (onVolumeChange r) (isRecording r)
     v (hasSoundDetected r) (silenceTriggered r).
Definition setHasSoundDetected v r :=
  mk (mediaRecorder r) (audioChunks r) (stream r) (silenceTimeout r)
     (audioContext r) (analyser r) (silenceThreshold r) (silenceDuration r)
     (onSilenceDetected r) (onAudioData r) (onVolumeChange r) (isRecording r)
     (volumeCheckInterval r) v (silenceTriggered r).
Definition setSilenceTriggered v r :=
  mk (mediaRecorder r) (audioChunks r) (stream r) (silenceTimeout r)
     (audioContext r) (analyser r) (silenceThreshold r) (silenceDuration r)
     (onSilenceDetected r) (onAudioData r) (onVolumeChange r) (isRecording r)
     (volumeCheckInterval r) (hasSoundDetected r) v.

(** What the recorder does to the platform and to its owner. *)
Inductive Effect : Type :=
| GetUserMedia
| MediaRecorderStart (timeslice : Z)
| SetInterval (period : Z)
| ClearInterval
| ClearTimeout (id : nat)
| MediaRecorderStop
| StopTracks
| CloseAudioContext
| CallOnVolumeChange (volume : Q)
| CallOnSilenceDetected
| CallOnAudioData (blob : Js.Blob)
| Uncaught (message : string).

Definition isSignal (e : Effect) : bool :=
  match e with CallOnSilenceDetected => true | _ => false end.

(** Number of [onSilenceDetected()] calls in a log. *)
Definition signals (l : list Effect) : nat := length (filter isSignal l).

(** A release of the media stream, the audio context, the interval or the
    timeout. *)
Definition isRelease (e : Effect) : bool :=
  match e with
  | ClearInterval | ClearTimeout _ | MediaRecorderStop | StopTracks
  | CloseAudioContext => true
  | _ => false
  end.

(** [constructor(options = {})] *)
Definition new (options : Options) : t :=
  {| mediaRecorder := None;
     audioChunks := [];
     stream := None;
     silenceTimeout := None;
     audioContext := None;
     analyser := None;
     silenceThreshold := Js.orElse (optSilenceThreshold options) 20;
     silenceDuration := Js.orElse (optSilenceDuration options) 1500;
     onSilenceDetected := optOnSilenceDetected options;
     onAudioData := optOnAudioData options;
     onVolumeChange := optOnVolumeChange options;
     isRecording := false;
     volumeCheckInterval := None;
     hasSoundDetected := false;
     silenceTriggered := false |}.

(** [new AudioRecorder()] *)
Definition noOptions : Options := mkOptions None None false false false.

Definition checkInterval : Z := 100.

(** [startVolumeMonitoring()]: the variables it declares, and the interval
    it installs.  [soundThreshold] is the sum as the platform rounds it. *)
Definition startVolumeMonitoring (r : t) : t * list Effect :=
  let m := {| consecutiveSilenceChecks := 0;
              maxVolumeDetected := 0;
              silenceChecksNeeded :=
                Qceiling (silenceDuration r / inject_Z checkInterval);
              soundThreshold := Js.add (silenceThreshold r) 5 |} in
  (setVolumeCheckInterval (Some m) r, [SetInterval checkInterval]).

(** [startRecording()] up to its [await]: the request for the microphone.
    The call is suspended there, and whatever happens to the recorder until
    the platform answers happens before the rest of the body runs. *)
Definition requestMicrophone : Eff t Effect unit := emit GetUserMedia.

(** [startRecording()] from the moment the platform hands out the microphone
    to its end.  [supported] tells whether the platform builds a media
    recorder for the mime type: where it does not, [new MediaRecorder] throws
    with the stream, the context and the analyser stored already. *)
Definition microphoneGranted (supported : bool) : Eff t Effect unit :=
  (modify (setStream (Some microphone)) ;;
   modify (setAudioContext (Some context)) ;;
   modify (setAnalyser (Some analyserNode)) ;;
   if supported then
     modify (setMediaRecorder (Some inactive)) ;;
     modify (setAudioChunks []) ;;
     modify (setIsRecording true) ;;
     modify (setHasSoundDetected false) ;;
     modify (setSilenceTriggered false) ;;
     modify (setMediaRecorder (Some recording)) ;;
     emit (MediaRecorderStart 100) ;;
     (fun r => let '(r', l) := startVolumeMonitoring r in (Js.Normal tt, r', l))
   else throw "Failed to access microphone")%eff.

(** [startRecording()] with nothing happening to the recorder while it waits
    for the microphone; [granted] tells whether the platform hands it out.
    Whatever fails inside the [try] is rethrown as one error.

    The fields hold one stream, one media recorder and one interval.  On a
    recorder whose interval is installed the code installs a second one and
    loses the handle of the first, which keeps firing; the state here follows
    the interval and the media recorder that the fields hold, so it describes
    the code on recorders with nothing running ([idle]): new ones, and ones
    that [stopRecording()] has torn down. *)
Definition startRecording (granted supported : bool) : Eff t Effect unit :=
  (requestMicrophone ;;
   if granted then microphoneGranted supported
   else throw "Failed to access microphone")%eff.

(** [mediaRecorder.stop()]: an [InvalidStateError] on an inactive recorder. *)
Definition mediaRecorderStop (s : RecordingState) : Eff t Effect unit :=
  match s with
  | inactive => throw "InvalidStateError"
  | _ => (modify (setMediaRecorder (Some inactive)) ;; emit MediaRecorderStop)%eff
  end.

(** [stopRecording()] *)
Definition stopRecording : Eff t Effect unit :=
  (modify (setIsRecording false) ;;
   interval <- gets volumeCheckInterval ;;
   when (Js.isSet interval)
     (emit ClearInterval ;; modify (setVolumeCheckInterval None)) ;;
   timeout <- gets silenceTimeout ;;
   match timeout with
   | Some id => emit (ClearTimeout id) ;; modify (setSilenceTimeout None)
   | None => ret tt
   end ;;
   recorder <- gets mediaRecorder ;;
   match recorder with
   | Some s => match s with
               | inactive => ret tt
               | _ => mediaRecorderStop s
               end
   | None => ret tt
   end ;;
   str <- gets stream ;;
   when (Js.isSet str)
     (emit StopTracks ;; modify (setStream None)) ;;
   ctx <- gets audioContext ;;
   when (Js.isSet ctx)
     (emit CloseAudioContext ;; modify (setAudioContext None)) ;;
   modify (setAnalyser None))%eff.

(** The body of the interval callback, for the value [volume] that
    [getVolume()] returned; [m] holds the closure's variables. *)
Definition volumeCheck (volume : Q) (r : t) (m : Monitor)
  : t * Monitor * list Effect :=
  if negb (isRecording r) then (r, m, []) else
  (* track maximum volume *)
  let m := if Js.ltb (maxVolumeDetected m) volume
           then mkMonitor (consecutiveSilenceChecks m) volume
                          (silenceChecksNeeded m) (soundThreshold m)
           else m in
  let notified := if onVolumeChange r then [CallOnVolumeChange volume] else [] in
  (* if (volume >= soundThreshold) *)
  let r := if Js.geb volume (soundThreshold m)
           then (if negb (hasSoundDetected r) then setHasSoundDetected true r else r)
           else r in
  let m := if Js.geb volume (soundThreshold m)
           then mkMonitor 0 (maxVolumeDetected m)
                          (silenceChecksNeeded m) (soundThreshold m)
           else m in
  (* if (!this.hasSoundDetected) return *)
  if negb (hasSoundDetected r) then (r, m, notified) else
  if Js.ltb volume (silenceThreshold r) then
    let m := mkMonitor (consecutiveSilenceChecks m + 1) (maxVolumeDetected m)
                       (silenceChecksNeeded m) (soundThreshold m) in
    if (silenceChecksNeeded m <=? consecutiveSilenceChecks m)%Z
       && negb (silenceTriggered r)
    then
      let reset := mkMonitor 0 (maxVolumeDetected m)
                             (silenceChecksNeeded m) (soundThreshold m) in
      if onSilenceDetected r && (0 <? Z.of_nat (length (audioChunks r)))%Z
      then (setSilenceTriggered true r, reset,
            notified ++ [CallOnSilenceDetected])
      else (r, reset, notified)
    else (r, m, notified)
  else
    if (0 <? consecutiveSilenceChecks m)%Z
    then (r, mkMonitor 0 (maxVolumeDetected m)
                       (silenceChecksNeeded m) (soundThreshold m), notified)
    else (r, m, notified).

(** One firing of the interval: nothing once the interval is cleared. *)
Definition tick (volume : Q) (r : t) : t * list Effect :=
  match volumeCheckInterval r with
  | None => (r, [])
  | Some m =>
      let '(r', m', l) := volumeCheck volume r m in
      (setVolumeCheckInterval (Some m') r', l)
  end.

(** [mediaRecorder.ondataavailable] *)
Definition ondataavailable (data : Js.Blob) (r : t) : t * list Effect :=
  if (0 <? Js.size data)%Z
  then (setAudioChunks (audioChunks r ++ [data]) r, [])
  else (r, []).

(** [mediaRecorder.onstop] *)
Definition onstop (r : t) : t * list Effect :=
  let audioBlob := Js.newBlob (audioChunks r) "audio/webm" in
  (setAudioChunks [] r,
   if onAudioData r && (0 <? Js.size audioBlob)%Z
   then [CallOnAudioData audioBlob] else []).

(** [getCurrentAudioBlob()] *)
Definition getCurrentAudioBlob : Eff t Effect (option Js.Blob) :=
  (chunks <- gets audioChunks ;;
   if (Z.of_nat (length chunks) =? 0)%Z then ret None
   else ret (Some (Js.newBlob chunks "audio/webm")))%eff.

(** [isCurrentlyRecording()] *)
Definition isCurrentlyRecording (r : t) : bool := isRecording r.

(** What can happen to a recorder during one session, after
    [startRecording()] resolved and while no other call of it waits for the
    microphone: a firing of the interval, the media recorder's two events,
    and a call of [stopRecording()].  The answer to a waiting call is not an
    event of a session, it opens one: [microphoneGranted]. *)
Inductive Event : Type :=
| Tick (volume : Q)
| DataAvailable (data : Js.Blob)
| RecorderStopped
| StopRecording.

Definition step (r : t) (ev : Event) : t * list Effect :=
  match ev with
  | Tick volume => tick volume r
  | DataAvailable data =>
      if Js.isSet (mediaRecorder r) then ondataavailable data r else (r, [])
  | RecorderStopped =>
      if Js.isSet (mediaRecorder r) then onstop r else (r, [])
  | StopRecording =>
      match stopRecording r with
      | (Js.Normal _, r', l) => (r', l)
      | (Js.Throw msg, r', l) => (r', l ++ [Uncaught msg])
      end
  end.

(** A session: the events in order, with the log of what the recorder did. *)
Fixpoint run (r : t) (evs : list Event) : t * list Effect :=
  match evs with
  | [] => (r, [])
  | ev :: evs' =>
      let '(r1, l1) := step r ev in
      let '(r2, l2) := run r1 evs' in
      (r2, l1 ++ l2)
  end.

(** The volumes of a session's ticks, in order. *)
Definition volumes (evs : list Event) : list Q :=
  flat_map (fun ev => match ev with Tick v => [v] | _ => [] end) evs.

(** The session a successful [startRecording()] opens on a recorder. *)
Definition session (r0 : t) : t := state (startRecording true true r0).

(** [consecutiveSilenceChecks] of the running monitor. *)
Definition counter (r : t) : Z :=
  match volumeCheckInterval r with
  | Some m => consecutiveSilenceChecks m
  | None => 0
  end.

(** After each event of a run: the sound flag, the silence counter, and how
    many times the event called [onSilenceDetected]. *)
Fixpoint history (r : t) (evs : list Event) : list (bool * Z * nat) :=
  match evs with
  | [] => []
  | ev :: evs' =>
      let '(r1, l1) := step r ev in
      (hasSoundDetected r1, counter r1, signals l1) :: history r1 evs'
  end.

(** Scenario A of the specification: thresholds, samples, and a recorder that
    has buffered a first chunk [data] when the samples start. *)
Definition scenarioA_options : Options :=
  mkOptions (Some (Js.Num 20)) (Some (Js.Num 1000)) true false false.

Definition scenarioA_samples : list Q :=
  [5; 5; 30; 30; 30; 5; 5; 5; 5; 5; 5; 5; 5].

Definition scenarioA_recorder (data : Js.Blob) : t :=
  fst (run (session (new scenarioA_options)) [DataAvailable data]).

Definition oneByte : Js.Blob := Js.mkBlob [Byte.x1a] "audio/webm;codecs=opus".

(** Options whose [silenceThreshold], the double [3 + 2^-51], has a sum with 5
    that is no double, and whose silence lasts two checks. *)
Definition roundingOptions : Options :=
  mkOptions (Some (Js.Num (3 + (1 # 2 ^ 51)))) (Some (Js.Num 200))
            true false false.

(** Thresholds outside the range of the volume, and a session with data, the
    loudest sample there is and two seconds of dead silence. *)
Definition deafOptions : Options :=
  mkOptions (Some (Js.Num 300)) None true false false.

Definition restlessOptions : Options :=
  mkOptions (Some (Js.Num (-1))) None true false false.

Definition loudThenSilent : list Event :=
  DataAvailable oneByte :: Tick 255 :: map Tick (repeat 0 20).

(** A default recorder that has heard sound and then three silent samples. *)
Definition threeSilent : t :=
  fst (run (session (new noOptions)) (map Tick [30; 5; 5; 5])).

(** The state of a detector that has not heard sound yet, for the sound
    threshold [T] its monitor was started with. *)
Definition unheard (T : Q) (r : t) : Prop :=
  hasSoundDetected r = false
  /\ Js.add (silenceThreshold r) 5 = T
  /\ forall m, volumeCheckInterval r = Some m -> soundThreshold m = T.

(** In a session the buffer holds the non-empty data delivered since
    [startRecording()], until the media recorder's [stop] event empties it. *)
Definition delivered (evs : list Event) : list Js.Blob :=
  flat_map (fun ev => match ev with
                      | DataAvailable d => if (0 <? Js.size d)%Z then [d] else []
                      | _ => []
                      end) evs.

Definition isRecorderStopped (ev : Event) : bool :=
  match ev with RecorderStopped => true | _ => false end.

(** The events of a session that follow the last stop report of the media
    recorder: all of them when it has reported none. *)
Fixpoint afterLastStop (evs : list Event) : list Event :=
  match evs with
  | [] => []
  | ev :: evs' =>
      if isRecorderStopped ev || existsb isRecorderStopped evs'
      then afterLastStop evs'
      else ev :: evs'
  end.

(** The data with bytes delivered since [startRecording()] or, if the media
    recorder has reported a stop, since its last report. *)
Definition buffered (evs : list Event) : list Js.Blob :=
  delivered (afterLastStop evs).

(** [getVolume()], for the byte frequency data [dataArray] that the analyser
    hands out ([frequencyBinCount] entries, 256 for the [fftSize] of 512).
    The mean of an empty array would be [0 / 0]. *)
Definition getVolume (dataArray : list Byte.byte) (r : t) : Js.number :=
  match analyser r with
  | None => Js.Num 0
  | Some _ =>
      match dataArray with
      | [] => Js.NaN
      | _ :: _ =>
          Js.Num (inject_Z (fold_left (fun a b => (a + Z.of_N (Byte.to_N b))%Z)
                                      dataArray 0%Z)
                  / inject_Z (Z.of_nat (length dataArray)))
      end
  end.

(** The options and the [silenceTimeout] handle, which nothing but the
    constructor and [stopRecording()] assigns. *)
Definition sameSetup (r r' : t) : Prop :=
  silenceThreshold r = silenceThreshold r'
  /\ silenceDuration r = silenceDuration r'
  /\ onSilenceDetected r = onSilenceDetected r'
  /\ onAudioData r = onAudioData r'
  /\ onVolumeChange r = onVolumeChange r'.

Definition isAudioData (e : Effect) : bool :=
  match e with CallOnAudioData _ => true | _ => false end.

(** Every chunk in the buffer has bytes. *)
Definition chunksNonEmpty (r : t) : Prop :=
  Forall (fun b => (0 < Js.size b)%Z) (audioChunks r).

(** The monitor, if one runs, uses the recorder's thresholds. *)
Definition monitorOf (r : t) : Prop :=
  forall m, volumeCheckInterval r = Some m ->
            soundThreshold m = Js.add (silenceThreshold r) 5
            /\ silenceChecksNeeded m
               = Qceiling (silenceDuration r / inject_Z checkInterval).

(** A recording recorder has its monitor running. *)
Definition monitored (r : t) : Prop :=
  isRecording r = true -> volumeCheckInterval r <> None.

(** A recorder with nothing running: a new one, or one that
    [stopRecording()] has torn down. *)
Definition idle (r : t) : Prop :=
  isRecording r = false
  /\ volumeCheckInterval r = None
  /\ silenceTimeout r = None
  /\ stream r = None
  /\ audioContext r = None
  /\ analyser r = None
  /\ (mediaRecorder r = None \/ mediaRecorder r = Some inactive).

(** A volume that [getVolume()] can return for frequency data. *)
Definition measurable (v : Q) : Prop :=
  exists dataArray r, dataArray <> [] /\ getVolume dataArray r = Js.Num v.

End AudioRecorder.

(* ------------------------------------------------------------------------- *)
(** ** Strings

    A JavaScript string whose code units all lie below U+0100 is the list of
    its code units; [String.prototype] methods are given on that range. *)

Module Text.

Definition Str : Type := list ascii.

(** A literal. *)
Definition str (s : string) : Str := list_ascii_of_string s.

Definition code (c : ascii) : nat := nat_of_ascii c.

Definition between (lo hi n : nat) : bool := (lo <=? n)%nat && (n <=? hi)%nat.

(** [\w] of a regular expression without the [u] and [i] flags. *)
Definition isWordChar (c : ascii) : bool :=
  between 97 122 (code c) || between 65 90 (code c)
  || between 48 57 (code c) || (code c =? 95)%nat.

(** White space and line terminators, as [trim] strips them. *)
Definition isWhiteSpace (c : ascii) : bool :=
  between 9 13 (code c) || (code c =? 32)%nat || (code c =? 160)%nat.

(** Lower-case mapping of one code unit: A-Z, and the capital letters of
    U+00C0..U+00DE (U+00D7, the multiplication sign, is no letter). *)
Definition toLowerChar (c : ascii) : ascii :=
  if between 65 90 (code c)
     || (between 192 222 (code c) && negb (code c =? 215)%nat)
  then ascii_of_nat (code c + 32)
  else c.

(** [s.toLowerCase()] *)
Definition toLowerCase (s : Str) : Str := map toLowerChar s.

Fixpoint dropWhile (p : ascii -> bool) (s : Str) : Str :=
  match s with
  | [] => []
  | c :: s' => if p c then dropWhile p s' else s
  end.

Definition trimStart (s : Str) : Str := dropWhile isWhiteSpace s.
Definition trimEnd (s : Str) : Str := rev (dropWhile isWhiteSpace (rev s)).

(** [s.trim()] *)
Definition trim (s : Str) : Str := trimEnd (trimStart s).

(** [!s] for a string. *)
Definition isEmpty (s : Str) : bool :=
  match s with [] => true | _ :: _ => false end.

(** Does [s] continue with the literal [w]? *)
Fixpoint startsWith (w s : Str) : bool :=
  match w, s with
  | [], _ => true
  | a :: w', b :: s' => Ascii.eqb a b && startsWith w' s'
  | _ :: _, [] => false
  end.

Definition firstChar (s : Str) : option ascii := hd_error s.
Definition lastChar (s : Str) : option ascii := hd_error (rev s).

Definition isWord (c : option ascii) : bool :=
  match c with Some a => isWordChar a | None => false end.

(** [\b] between the character [before] and the character [after] a
    position ([None] at either end of the input). *)
Definition wordBoundary (before after : option ascii) : bool :=
  xorb (isWord before) (isWord after).

(** The character left of the position reached after matching [w], when
    [before] was left of its start. *)
Definition lastOr (w : Str) (before : option ascii) : option ascii :=
  match lastChar w with Some c => Some c | None => before end.

(** [/\b(w1|w2|...)\b/] attempted at one position of the input: [before] is
    the character left of the position, [s] is the input from it on. *)
Definition matchHere (alternatives : list Str) (before : option ascii) (s : Str)
  : bool :=
  wordBoundary before (firstChar s)
  && existsb (fun w => startsWith w s
                       && wordBoundary (lastOr w before)
                                       (firstChar (skipn (length w) s)))
             alternatives.

(** The regular expression tried at every position, left to right. *)
Fixpoint search (alternatives : list Str) (before : option ascii) (s : Str)
  : bool :=
  matchHere alternatives before s
  || match s with
     | [] => false
     | c :: s' => search alternatives (Some c) s'
     end.

(** The alternatives of [/\b(stop|exit|quit|end|goodbye)\b/]. *)
Definition stopWords : list Str :=
  [str "stop"; str "exit"; str "quit"; str "end"; str "goodbye"].

(** [s.match(/\b(stop|exit|quit|end|goodbye)\b/)] is not [null]. *)
Definition matchesStopCommand (s : Str) : bool := search stopWords None s.

(** The specification's words: [text] contains [word] as a whole word,
    whatever the case of its letters.  A whole word has no word character
    next to it on either side. *)
Definition containsWholeWord (word text : Str) : Prop :=
  exists pre w post,
    text = pre ++ w ++ post
    /\ toLowerCase w = word
    /\ isWord (lastChar pre) = false
    /\ isWord (firstChar post) = false.

(** The specification's words: the transcription contains one of the stop
    words. *)
Definition containsStopWord (text : Str) : Prop :=
  exists word, In word stopWords /\ containsWholeWord word text.

End Text.

(* ------------------------------------------------------------------------- *)
(** ** class TextToSpeech, as far as the orchestrator drives it *)

Module TextToSpeech.
Import Text.

Record t : Type := mk {
  queue : list Str;
  isSpeaking : bool;
  currentUtterance : option Str
}.

Inductive Effect : Type :=
| SynthesisCancel
| SynthesisSpeak (text : Str).

(** [cancel()] *)
Definition cancel : Eff t Effect unit :=
  (emit SynthesisCancel ;;
   modify (fun _ => mk [] false None))%eff.

(** [speak(text)]; the voice settings are not modelled. *)
Definition speak (text : Str) : Eff t Effect unit :=
  if isEmpty text || (length (trim text) =? 0)%nat then ret tt
  else
    (cancel ;;
     modify (fun s => mk (queue s) (isSpeaking s) (Some text)) ;;
     emit (SynthesisSpeak text))%eff.

End TextToSpeech.

(* ------------------------------------------------------------------------- *)
(** ** class TextToSpeech, in full

    The browser's [speechSynthesis] is an input where the class reads it (the
    voices it offers, its [paused] flag) and an effect where the class drives
    it.  The handlers that [speak] installs on an utterance are the three
    [utterance...] methods below; the browser decides when they run. *)

Module Speech.
Import Text.

(** A [SpeechSynthesisUtterance] as [speak] sets it up; a voice is known by
    its name. *)
Record Utterance : Type := mkUtterance {
  text : Str;
  utteranceRate : Js.number;
  utterancePitch : Js.number;
  utteranceVolume : Js.number;
  voice : option Str
}.

(** The constructor's [options]. *)
Record Options : Type := mkOptions {
  optRate : option Js.number;
  optPitch : option Js.number;
  optVolume : option Js.number;
  optVoiceName : option Str;
  optOnStart : bool;
  optOnEnd : bool;
  optOnError : bool
}.

(** The [settings] of [updateSettings]. *)
Record Settings : Type := mkSettings {
  setRate : option Js.number;
  setPitch : option Js.number;
  setVolume : option Js.number
}.

Record t : Type := mk {
  currentUtterance : option Utterance;
  queue : list Str;
  isSpeaking : bool;
  onStart : bool;
  onEnd : bool;
  onError : bool;
  rate : Js.number;
  pitch : Js.number;
  volume : Js.number;
  voiceName : option Str
}.

Inductive Effect : Type :=
| SynthesisCancel
| SynthesisSpeak (utterance : Utterance)
| SynthesisPause
| SynthesisResume
| CallOnStart
| CallOnEnd
| CallOnError (error : Str).

(** [x || null] for an optional string: the empty string is falsy. *)
Definition orNull (x : option Str) : option Str :=
  match x with
  | Some (_ :: _) => x
  | _ => None
  end.

(** [constructor(options = {})] *)
Definition new (options : Options) : t :=
  {| currentUtterance := None;
     queue := [];
     isSpeaking := false;
     onStart := optOnStart options;
     onEnd := optOnEnd options;
     onError := optOnError options;
     rate := Js.Num (Js.orElse (optRate options) (9 # 10));
     pitch := Js.Num (Js.orElse (optPitch options) 1);
     volume := Js.Num (Js.orElse (optVolume options) 1);
     voiceName := orNull (optVoiceName options) |}.

Definition withUtterance v s :=
  mk v (queue s) (isSpeaking s) (onStart s) (onEnd s) (onError s)
     (rate s) (pitch s) (volume s) (voiceName s).
Definition withQueue v s :=
  mk (currentUtterance s) v (isSpeaking s) (onStart s) (onEnd s) (onError s)
     (rate s) (pitch s) (volume s) (voiceName s).
Definition withSpeaking v s :=
  mk (currentUtterance s) (queue s) v (onStart s) (onEnd s) (onError s)
     (rate s) (pitch s) (volume s) (voiceName s).
Definition withRate v s :=
  mk (currentUtterance s) (queue s) (isSpeaking s) (onStart s) (onEnd s)
     (onError s) v (pitch s) (volume s) (voiceName s).
Definition withPitch v s :=
  mk (currentUtterance s) (queue s) (isSpeaking s) (onStart s) (onEnd s)
     (onError s) (rate s) v (volume s) (voiceName s).
Definition withVolume v s :=
  mk (currentUtterance s) (queue s) (isSpeaking s) (onStart s) (onEnd s)
     (onError s) (rate s) (pitch s) v (voiceName s).
Definition withVoiceName v s :=
  mk (currentUtterance s) (queue s) (isSpeaking s) (onStart s) (onEnd s)
     (onError s) (rate s) (pitch s) (volume s) v.

(** [!text || text.trim().length === 0] *)
Definition isBlank (text : Str) : bool :=
  isEmpty text || (length (trim text) =? 0)%nat.

Definition eqStr (a b : Str) : bool :=
  if list_eq_dec Ascii.ascii_dec a b then true else false.

(** [voices.find(v => v.name === name)], by name. *)
Definition findVoice (voices : list Str) (name : Str) : option Str :=
  find (eqStr name) voices.

(** The utterance [speak] builds for [text]; [voices] is what
    [synthesis.getVoices()] returns. *)
Definition utteranceFor (voices : list Str) (text : Str) (s : t) : Utterance :=
  mkUtterance text (rate s) (pitch s) (volume s)
    (match orNull (voiceName s) with
     | Some name => findVoice voices name
     | None => None
     end).

(** [cancel()] *)
Definition cancel : Eff t Effect unit :=
  (emit SynthesisCancel ;;
   modify (withQueue []) ;;
   modify (withSpeaking false) ;;
   modify (withUtterance None))%eff.

(** [speak(text)] *)
Definition speak (voices : list Str) (text : Str) : Eff t Effect unit :=
  if isBlank text then ret tt
  else
    (cancel ;;
     utterance <- gets (utteranceFor voices text) ;;
     modify (withUtterance (Some utterance)) ;;
     emit (SynthesisSpeak utterance))%eff.

(** [processQueue()] *)
Definition processQueue (voices : list Str) : Eff t Effect unit :=
  (waiting <- gets queue ;;
   speaking <- gets isSpeaking ;;
   match waiting with
   | nextText :: rest =>
       if negb speaking
       then modify (withQueue rest) ;;
            (if isEmpty nextText then ret tt else speak voices nextText)
       else ret tt
   | [] => ret tt
   end)%eff.

(** [enqueue(text)] *)
Definition enqueue (voices : list Str) (text : Str) : Eff t Effect unit :=
  (modify (fun s => withQueue (queue s ++ [text]) s) ;;
   speaking <- gets isSpeaking ;;
   if negb speaking then processQueue voices else ret tt)%eff.

(** [utterance.onstart] *)
Definition utteranceStarted : Eff t Effect unit :=
  (modify (withSpeaking true) ;;
   callback <- gets onStart ;;
   when callback (emit CallOnStart))%eff.

(** [utterance.onend] *)
Definition utteranceEnded (voices : list Str) : Eff t Effect unit :=
  (modify (withSpeaking false) ;;
   modify (withUtterance None) ;;
   callback <- gets onEnd ;;
   when callback (emit CallOnEnd) ;;
   processQueue voices)%eff.

(** [utterance.onerror]; [error] is [event.error]. *)
Definition utteranceFailed (voices : list Str) (error : Str) : Eff t Effect unit :=
  (modify (withSpeaking false) ;;
   modify (withUtterance None) ;;
   callback <- gets onError ;;
   when callback (emit (CallOnError error)) ;;
   processQueue voices)%eff.

(** [pause()] *)
Definition pause : Eff t Effect unit :=
  (speaking <- gets isSpeaking ;;
   when speaking (emit SynthesisPause))%eff.

(** [resume()]; [paused] is [synthesis.paused]. *)
Definition resume (paused : bool) : Eff t Effect unit :=
  when paused (emit SynthesisResume).

(** [isCurrentlySpeaking()] *)
Definition isCurrentlySpeaking (s : t) : bool := isSpeaking s.

(** [setVoice(voiceName)] *)
Definition setVoice (name : Str) : Eff t Effect unit :=
  modify (withVoiceName (Some name)).

(** [updateSettings(settings)] *)
Definition updateSettings (settings : Settings) : Eff t Effect unit :=
  (match setRate settings with
   | Some v => modify (withRate v)
   | None => ret tt
   end ;;
   match setPitch settings with
   | Some v => modify (withPitch v)
   | None => ret tt
   end ;;
   match setVolume settings with
   | Some v => modify (withVolume v)
   | None => ret tt
   end)%eff.

(** What the owner and the browser can do to the object. *)
Inductive Event : Type :=
| Speak (text : Str)
| Enqueue (text : Str)
| Cancel
| Pause
| Resume (paused : bool)
| SetVoice (name : Str)
| UpdateSettings (settings : Settings)
| Started
| Ended
| Failed (error : Str).

Definition step (voices : list Str) (s : t) (ev : Event) : t * list Effect :=
  let r := match ev with
           | Speak text => speak voices text s
           | Enqueue text => enqueue voices text s
           | Cancel => cancel s
           | Pause => pause s
           | Resume paused => resume paused s
           | SetVoice name => setVoice name s
           | UpdateSettings settings => updateSettings settings s
           | Started => utteranceStarted s
           | Ended => utteranceEnded voices s
           | Failed error => utteranceFailed voices error s
           end in
  (state r, effects r).

Fixpoint run (voices : list Str) (s : t) (evs : list Event) : t * list Effect :=
  match evs with
  | [] => (s, [])
  | ev :: evs' =>
      let '(s1, l1) := step voices s ev in
      let '(s2, l2) := run voices s1 evs' in
      (s2, l1 ++ l2)
  end.

(** The texts handed to [synthesis.speak], in order. *)
Definition spoken (l : list Effect) : list Str :=
  flat_map (fun e => match e with
                     | SynthesisSpeak u => [text u]
                     | _ => []
                     end) l.

(** The events of the browser, as opposed to the calls of the owner. *)
Definition isBrowserEvent (ev : Event) : bool :=
  match ev with
  | Started | Ended | Failed _ => true
  | _ => false
  end.

(** What the orchestrator's handlers see of the object. *)
Definition view (s : t) : TextToSpeech.t :=
  TextToSpeech.mk (queue s) (isSpeaking s) (option_map text (currentUtterance s)).

Definition viewEffects (l : list Effect) : list TextToSpeech.Effect :=
  flat_map (fun e => match e with
                     | SynthesisCancel => [TextToSpeech.SynthesisCancel]
                     | SynthesisSpeak u => [TextToSpeech.SynthesisSpeak (text u)]
                     | _ => []
                     end) l.

(** The value [updateSettings] leaves in a field. *)
Definition chosen (update : option Js.number) (old : Js.number) : Js.number :=
  match update with Some v => v | None => old end.

End Speech.
(* ------------------------------------------------------------------------- *)
(** ** component VoiceChatDigitalTwin

    React state is read through the closure of the render that created a
    handler ([Render]) and written through its setters (the fields of [t]);
    refs are read and written in place.  An [async] handler runs until its
    next [await] and leaves a [Pending] continuation, which the reply of the
    service resumes. *)

Module VoiceChat.
Import Text.

Inductive VoiceState : Type := idle | listening | processing | speaking.

Inductive Role : Type := user | assistant.

Record ConversationMessage : Type := mkMessage {
  role : Role;
  content : Str;
  timestamp : Str
}.

(** What a handler closes over. *)
Record Render : Type := mkRender {
  rVoiceState : VoiceState;
  rIsActive : bool;
  rConversation : list ConversationMessage;
  rTextInput : Str;
  rIsMuted : bool;
  rTtsEnabled : bool;
  rSessionId : Str;
  rOnConversationUpdate : bool
}.

(** The component: the state its handlers set, and its refs. *)
Record t : Type := mk {
  voiceState : VoiceState;
  isActive : bool;
  conversation : list ConversationMessage;
  currentTranscript : Str;
  textInput : Str;
  audioRecorderRef : option AudioRecorder.t;
  ttsRef : option TextToSpeech.t;
  isProcessingRef : bool;
  listeningTimeoutRef : option nat;
  hasDetectedSpeechRef : bool
}.

Definition setVoiceState v s :=
  mk v (isActive s) (conversation s) (currentTranscript s) (textInput s)
     (audioRecorderRef s) (ttsRef s) (isProcessingRef s)
     (listeningTimeoutRef s) (hasDetectedSpeechRef s).
Definition setIsActive v s :=
  mk (voiceState s) v (conversation s) (currentTranscript s) (textInput s)
     (audioRecorderRef s) (ttsRef s) (isProcessingRef s)
     (listeningTimeoutRef s) (hasDetectedSpeechRef s).
Definition setConversation v s :=
  mk (voiceState s) (isActive s) v (currentTranscript s) (textInput s)
     (audioRecorderRef s) (ttsRef s) (isProcessingRef s)
     (listeningTimeoutRef s) (hasDetectedSpeechRef s).
Definition setCurrentTranscript v s :=
  mk (voiceState s) (isActive s) (conversation s) v (textInput s)
     (audioRecorderRef s) (ttsRef s) (isProcessingRef s)
     (listeningTimeoutRef s) (hasDetectedSpeechRef s).
Definition setTextInput v s :=
  mk (voiceState s) (isActive s) (conversation s) (currentTranscript s) v
     (audioRecorderRef s) (ttsRef s) (isProcessingRef s)
     (listeningTimeoutRef s) (hasDetectedSpeechRef s).
Definition setAudioRecorderRef v s :=
  mk (voiceState s) (isActive s) (conversation s) (currentTranscript s)
     (textInput s) v (ttsRef s) (isProcessingRef s)
     (listeningTimeoutRef s) (hasDetectedSpeechRef s).
Definition setTtsRef v s :=
  mk (voiceState s) (isActive s) (conversation s) (currentTranscript s)
     (textInput s) (audioRecorderRef s) v (isProcessingRef s)
     (listeningTimeoutRef s) (hasDetectedSpeechRef s).
Definition setIsProcessingRef v s :=
  mk (voiceState s) (isActive s) (conversation s) (currentTranscript s)
     (textInput s) (audioRecorderRef s) (ttsRef s) v
     (listeningTimeoutRef s) (hasDetectedSpeechRef s).
Definition setListeningTimeoutRef v s :=
  mk (voiceState s) (isActive s) (conversation s) (currentTranscript s)
     (textInput s) (audioRecorderRef s) (ttsRef s) (isProcessingRef s)
     v (hasDetectedSpeechRef s).
Definition setHasDetectedSpeechRef v s :=
  mk (voiceState s) (isActive s) (conversation s) (currentTranscript s)
     (textInput s) (audioRecorderRef s) (ttsRef s) (isProcessingRef s)
     (listeningTimeoutRef s) v.

(** What a timer the handlers arm will run. *)
Inductive Callback : Type :=
| RestartListening
| ResumeOrIdle (isActive : bool).

Inductive Effect : Type :=
| Recorder (e : AudioRecorder.Effect)
| Speech (e : TextToSpeech.Effect)
| FetchStt (audio : Js.Blob)
| FetchLlm (message sessionId : Str)
           (conversationHistory : list ConversationMessage)
| ClearTimeout (id : nat)
| SetTimeout (callback : Callback) (delay : Z)
| ToastSuccess (message : string)
| ToastError (message : string)
| OnConversationUpdate (messages : list ConversationMessage)
| PreventDefault.

(** An [async] handler suspended at an [await]. *)
Inductive Pending : Type :=
| AwaitStt (c : Render)
| AwaitLlm (c : Render)
| AwaitLlmText (c : Render).

(** What the transcription route answers: the request fails, or a JSON body
    with its [success] and [text] properties. *)
Inductive SttReply : Type :=
| SttRejected
| SttJson (success : bool) (text : option Str).

(** What the response route answers. *)
Inductive LlmReply : Type :=
| LlmRejected
| LlmJson (success : bool) (response : option Str).

(** [audioRecorderRef.current?.method()] *)
Definition onRecorder {A} (method : Eff AudioRecorder.t AudioRecorder.Effect A)
  : Eff t Effect (option A) :=
  fun s =>
    match audioRecorderRef s with
    | None => (Js.Normal None, s, [])
    | Some r =>
        let '(c, r', l) := method r in
        (match c with
         | Js.Normal a => Js.Normal (Some a)
         | Js.Throw msg => Js.Throw msg
         end,
         setAudioRecorderRef (Some r') s, map Recorder l)
    end.

(** [ttsRef.current?.method()] *)
Definition onTts {A} (method : Eff TextToSpeech.t TextToSpeech.Effect A)
  : Eff t Effect (option A) :=
  fun s =>
    match ttsRef s with
    | None => (Js.Normal None, s, [])
    | Some r =>
        let '(c, r', l) := method r in
        (match c with
         | Js.Normal a => Js.Normal (Some a)
         | Js.Throw msg => Js.Throw msg
         end,
         setTtsRef (Some r') s, map Speech l)
    end.

(** [if (listeningTimeoutRef.current) { clearTimeout(...); ... = null }] *)
Definition clearListeningTimeout : Eff t Effect unit :=
  (timeout <- gets listeningTimeoutRef ;;
   match timeout with
   | Some id => emit (ClearTimeout id) ;; modify (setListeningTimeoutRef None)
   | None => ret tt
   end)%eff.

(** [setConversation(prev => { const updated = [...prev, msg];
    onConversationUpdate?.(updated); return updated })] *)
Definition appendMessage (c : Render) (msg : ConversationMessage)
  : Eff t Effect unit :=
  (prev <- gets conversation ;;
   when (rOnConversationUpdate c) (emit (OnConversationUpdate (prev ++ [msg]))) ;;
   modify (setConversation (prev ++ [msg])))%eff.

(** [handleStop] *)
Definition handleStop : Eff t Effect unit :=
  (modify (setIsActive false) ;;
   modify (setVoiceState idle) ;;
   modify (setIsProcessingRef false) ;;
   clearListeningTimeout ;;
   onRecorder AudioRecorder.stopRecording ;;
   onTts TextToSpeech.cancel ;;
   emit (ToastSuccess "Voice chat stopped"))%eff.

(** The [catch] block of [handleSilenceDetected]. *)
Definition onSpeechError (c : Render) : Eff t Effect (option Pending) :=
  (emit (ToastError "Failed to process your message") ;;
   modify (setVoiceState idle) ;;
   modify (setIsProcessingRef false) ;;
   when (rIsActive c) (emit (SetTimeout RestartListening 1000)) ;;
   ret None)%eff.

Definition minimumAudioSize : Z := 2000.

(** [handleSilenceDetected], up to its first [await]. *)
Definition handleSilenceDetected (c : Render) : Eff t Effect (option Pending) :=
  (busy <- gets isProcessingRef ;;
   if busy then ret None else
   audioBlob <- onRecorder AudioRecorder.getCurrentAudioBlob ;;
   match audioBlob with
   | Some (Some blob) =>
       if (Js.size blob <? minimumAudioSize)%Z then ret None else
       modify (setIsProcessingRef true) ;;
       modify (setHasDetectedSpeechRef false) ;;
       modify (setVoiceState processing) ;;
       clearListeningTimeout ;;
       tryCatch
         (onRecorder AudioRecorder.stopRecording ;;
          emit (FetchStt blob) ;;
          ret (Some (AwaitStt c)))
         (fun _ => onSpeechError c)
   | _ => ret None
   end)%eff.

(** [handleSilenceDetected], resumed by the transcription's reply. *)
Definition sttReplied (c : Render) (now : Str) (reply : SttReply)
  : Eff t Effect (option Pending) :=
  tryCatch
    (match reply with
     | SttJson true (Some ((_ :: _) as text)) =>
         let userMessage := trim text in
         modify (setCurrentTranscript userMessage) ;;
         modify (setTextInput userMessage) ;;
         if matchesStopCommand (toLowerCase userMessage)
         then handleStop ;; ret None
         else
           appendMessage c (mkMessage user userMessage now) ;;
           emit (FetchLlm userMessage (rSessionId c) (rConversation c)) ;;
           ret (Some (AwaitLlm c))
     | SttJson _ _ => throw "Transcription failed"
     | SttRejected => throw "Failed to fetch"
     end)%eff
    (fun _ => onSpeechError c).

(** [handleSilenceDetected], resumed by the response's reply. *)
Definition llmReplied (c : Render) (now : Str) (reply : LlmReply)
  : Eff t Effect (option Pending) :=
  tryCatch
    (match reply with
     | LlmJson true (Some ((_ :: _) as assistantMessage)) =>
         appendMessage c (mkMessage assistant assistantMessage now) ;;
         (if rTtsEnabled c && negb (rIsMuted c)
          then onTts (TextToSpeech.speak assistantMessage) ;; ret tt
          else emit (SetTimeout (ResumeOrIdle (rIsActive c)) 500)) ;;
         modify (setCurrentTranscript []) ;;
         modify (setTextInput []) ;;
         ret None
     | LlmJson _ _ => throw "Failed to generate response"
     | LlmRejected => throw "Failed to fetch"
     end)%eff
    (fun _ => onSpeechError c).

Definition maxListeningTime : Z := 15000.

(** The callback of the safety timer that [startListening] arms. *)
Definition listeningTimedOut (c : Render) : Eff t Effect (option Pending) :=
  (busy <- gets isProcessingRef ;;
   match rVoiceState c with
   | listening => if negb busy then handleSilenceDetected c else ret None
   | _ => ret None
   end)%eff.

(** The [catch] block of [handleTextSubmit]. *)
Definition onTextError : Eff t Effect (option Pending) :=
  (emit (ToastError "Failed to process your message") ;;
   modify (setVoiceState idle) ;;
   modify (setIsProcessingRef false) ;;
   ret None)%eff.

(** [handleTextSubmit], up to its first [await]. *)
Definition handleTextSubmit (c : Render) (now : Str)
  : Eff t Effect (option Pending) :=
  (emit PreventDefault ;;
   busy <- gets isProcessingRef ;;
   if isEmpty (trim (rTextInput c)) || busy then ret None else
   let userMessage := trim (rTextInput c) in
   modify (setTextInput []) ;;
   modify (setCurrentTranscript userMessage) ;;
   modify (setIsProcessingRef true) ;;
   modify (setVoiceState processing) ;;
   tryCatch
     (appendMessage c (mkMessage user userMessage now) ;;
      emit (FetchLlm userMessage (rSessionId c) (rConversation c)) ;;
      ret (Some (AwaitLlmText c)))
     (fun _ => onTextError))%eff.

(** [handleTextSubmit], resumed by the response's reply. *)
Definition textLlmReplied (c : Render) (now : Str) (reply : LlmReply)
  : Eff t Effect (option Pending) :=
  tryCatch
    (match reply with
     | LlmJson true (Some ((_ :: _) as assistantMessage)) =>
         appendMessage c (mkMessage assistant assistantMessage now) ;;
         (if rTtsEnabled c && negb (rIsMuted c)
          then onTts (TextToSpeech.speak assistantMessage) ;; ret tt
          else modify (setVoiceState idle) ;;
               modify (setIsProcessingRef false)) ;;
         modify (setCurrentTranscript []) ;;
         ret None
     | LlmJson _ _ => throw "Failed to generate response"
     | LlmRejected => throw "Failed to fetch"
     end)%eff
    (fun _ => onTextError).

(** *** The event loop around the handlers *)

(** The component together with the handlers suspended at an [await]. *)
Record System : Type := mkSystem {
  app : t;
  inflight : list Pending
}.

(** The triggers of a processing cycle, and the replies that resume the
    cycle suspended at position [n]. *)
Inductive Event : Type :=
| SilenceCallback (c : Render)
| SafetyTimer (c : Render)
| TextSubmit (c : Render) (now : Str)
| SttReplies (n : nat) (reply : SttReply) (now : Str)
| LlmReplies (n : nat) (reply : LlmReply) (now : Str).

(** A handler ran on the component; what it left suspended joins [others]. *)
Definition settle (others : list Pending)
  (r : Js.Completion (option Pending) * t * list Effect) : System * list Effect :=
  (mkSystem (state r)
            (match completion r with
             | Js.Normal (Some p) => others ++ [p]
             | _ => others
             end),
   effects r).

(** The suspended handlers without the one at position [n]. *)
Definition without (n : nat) (l : list Pending) : list Pending :=
  firstn n l ++ skipn (S n) l.

Definition dispatch (sys : System) (ev : Event) : System * list Effect :=
  match ev with
  | SilenceCallback c =>
      settle (inflight sys) (handleSilenceDetected c (app sys))
  | SafetyTimer c =>
      settle (inflight sys) (listeningTimedOut c (app sys))
  | TextSubmit c now =>
      settle (inflight sys) (handleTextSubmit c now (app sys))
  | SttReplies n reply now =>
      match nth_error (inflight sys) n with
      | Some (AwaitStt c) =>
          settle (without n (inflight sys)) (sttReplied c now reply (app sys))
      | _ => (sys, [])
      end
  | LlmReplies n reply now =>
      match nth_error (inflight sys) n with
      | Some (AwaitLlm c) =>
          settle (without n (inflight sys)) (llmReplied c now reply (app sys))
      | Some (AwaitLlmText c) =>
          settle (without n (inflight sys)) (textLlmReplied c now reply (app sys))
      | _ => (sys, [])
      end
  end.

Fixpoint play (sys : System) (evs : list Event) : System * list Effect :=
  match evs with
  | [] => (sys, [])
  | ev :: evs' =>
      let '(sys1, l1) := dispatch sys ev in
      let '(sys2, l2) := play sys1 evs' in
      (sys2, l1 ++ l2)
  end.

(** A release of the media stream, the audio context, the interval or a
    timeout. *)
Definition isTeardown (e : Effect) : bool :=
  match e with
  | Recorder e' => AudioRecorder.isRelease e'
  | ClearTimeout _ => true
  | _ => false
  end.

Definition isServiceCall (e : Effect) : bool :=
  match e with
  | FetchStt _ | FetchLlm _ _ _ => true
  | _ => false
  end.

Definition isResponseCall (e : Effect) : bool :=
  match e with
  | FetchLlm _ _ _ => true
  | _ => false
  end.

(** The audio that [getCurrentAudioBlob()] would hand to the orchestrator. *)
Definition currentAudio (s : t) : option Js.Blob :=
  match audioRecorderRef s with
  | Some r =>
      match completion (AudioRecorder.getCurrentAudioBlob r) with
      | Js.Normal b => b
      | Js.Throw _ => None
      end
  | None => None
  end.

(** The component after [handleStop]. *)
Definition stopped (s : t) : t :=
  mk idle false (conversation s) (currentTranscript s) (textInput s)
     (option_map (fun r => state (AudioRecorder.stopRecording r))
                 (audioRecorderRef s))
     (option_map (fun _ => TextToSpeech.mk [] false None) (ttsRef s))
     false None (hasDetectedSpeechRef s).

(** What [handleStop] does, in order. *)
Definition stopEffects (s : t) : list Effect :=
  match listeningTimeoutRef s with Some id => [ClearTimeout id] | None => [] end
  ++ match audioRecorderRef s with
     | Some r => map Recorder (effects (AudioRecorder.stopRecording r))
     | None => []
     end
  ++ match ttsRef s with Some _ => [Speech TextToSpeech.SynthesisCancel] | None => [] end
  ++ [ToastSuccess "Voice chat stopped"].

(** The component after [handleSilenceDetected] has taken the transition to
    [processing]. *)
Definition started (s : t) : t :=
  mk processing (isActive s) (conversation s) (currentTranscript s)
     (textInput s)
     (option_map (fun r => state (AudioRecorder.stopRecording r))
                 (audioRecorderRef s))
     (ttsRef s) true None false.

Definition startEffects (s : t) (blob : Js.Blob) : list Effect :=
  match listeningTimeoutRef s with Some id => [ClearTimeout id] | None => [] end
  ++ match audioRecorderRef s with
     | Some r => map Recorder (effects (AudioRecorder.stopRecording r))
     | None => []
     end
  ++ [FetchStt blob].

(** The component after [handleTextSubmit] has started a cycle. *)
Definition submitted (c : Render) (now : Str) (s : t) : t :=
  mk processing (isActive s)
     (conversation s ++ [mkMessage user (trim (rTextInput c)) now])
     (trim (rTextInput c)) [] (audioRecorderRef s) (ttsRef s) true
     (listeningTimeoutRef s) (hasDetectedSpeechRef s).

(** The component once the transcription is shown. *)
Definition transcribed (userMessage : Str) (s : t) : t :=
  setTextInput userMessage (setCurrentTranscript userMessage s).

(** At most one handler is suspended, and while one is the guard is set. *)
Definition guarded (sys : System) : Prop :=
  (length (inflight sys) <= 1)%nat
  /\ (inflight sys <> [] -> isProcessingRef (app sys) = true).

Definition isTrigger (ev : Event) : bool :=
  match ev with
  | SilenceCallback _ | SafetyTimer _ | TextSubmit _ _ => true
  | _ => false
  end.

(** Sample data: renders of an idle and of a listening component, a component
    in the middle of a cycle, and a listening component whose recorder has
    buffered [n] bytes. *)
Definition idleRender : Render :=
  mkRender idle false [] [] false true (str "session-1") false.

Definition listeningRender : Render :=
  mkRender listening true [] [] false true (str "session-1") false.

Definition busy : t :=
  mk processing true [] [] [] None (Some (TextToSpeech.mk [] false None))
     true None false.

Definition listeningWith (n : nat) : t :=
  mk listening true [] [] []
     (Some (fst (AudioRecorder.run
                   (AudioRecorder.session
                      (AudioRecorder.new
                         (AudioRecorder.mkOptions (Some (Js.Num 20))
                            (Some (Js.Num 1500)) true false true)))
                   [AudioRecorder.DataAvailable
                      (Js.mkBlob (repeat Byte.x00 n) "audio/webm;codecs=opus")])))
     (Some (TextToSpeech.mk [] false None))
     false (Some 1%nat) false.

(** The render of a listening component with a message typed in, and that
    component once the message is submitted: its cycle is in flight, its
    guard is set, and its recorder goes on recording with [n] bytes
    buffered. *)
Definition typingRender : Render :=
  mkRender listening true [] (str "hi") false true (str "session-1") false.

Definition typedWhileListening (n : nat) : t :=
  state (handleTextSubmit typingRender (str "2026") (listeningWith n)).

(** *** The rest of the component *)

(** The settings [startListening] closes over. *)
Record Listening : Type := mkListening {
  listenSilenceThreshold : Q;
  listenSilenceDuration : Q
}.

(** What [startListening] and the callbacks of the timers do: an effect of
    the handlers above, or arming the safety timer, whose callback closes
    over the render [c] that [startListening] belongs to. *)
Inductive Action : Type :=
| Did (e : Effect)
| ArmSafetyTimer (c : Render) (delay : Z).

(** The options [startListening] builds its recorder with. *)
Definition recorderOptions (cfg : Listening) : AudioRecorder.Options :=
  AudioRecorder.mkOptions (Some (Js.Num (listenSilenceThreshold cfg)))
                          (Some (Js.Num (listenSilenceDuration cfg)))
                          true false true.

(** [audioRecorderRef.current?.isCurrentlyRecording()] as a condition. *)
Definition recordingNow (s : t) : bool :=
  match audioRecorderRef s with
  | Some r => AudioRecorder.isCurrentlyRecording r
  | None => false
  end.

(** [startListening], up to the request for the microphone that
    [startRecording()] makes before it suspends; [c] is the render the
    function belongs to and [timer] the handle that [setTimeout] returns. *)
Definition startListening (c : Render) (cfg : Listening) (timer : nat)
  : Eff t Action unit :=
  (recording <- gets recordingNow ;;
   if recording then ret tt
   else
     busy <- gets isProcessingRef ;;
     if busy then ret tt
     else
       modify (setHasDetectedSpeechRef false) ;;
       modify (setAudioRecorderRef
                 (Some (AudioRecorder.new (recorderOptions cfg)))) ;;
       emit (Did (Recorder AudioRecorder.GetUserMedia)) ;;
       emit (ArmSafetyTimer c maxListeningTime) ;;
       modify (setListeningTimeoutRef (Some timer)))%eff.

(** [handleStart] *)
Definition handleStart (c : Render) (cfg : Listening) (timer : nat)
  : Eff t Action unit :=
  (modify (setIsActive true) ;;
   modify (setVoiceState listening) ;;
   emit (Did (ToastSuccess "🎤 Voice chat active - Speak & pause to auto-send")) ;;
   startListening c cfg timer)%eff.

(** What a timer armed by the handlers runs when it fires. *)
Definition runCallback (c : Render) (cfg : Listening) (timer : nat)
  (callback : Callback) : Eff t Action unit :=
  match callback with
  | RestartListening =>
      (modify (setVoiceState listening) ;;
       startListening c cfg timer)%eff
  | ResumeOrIdle active =>
      ((if active
        then modify (setVoiceState listening) ;; startListening c cfg timer
        else modify (setVoiceState idle)) ;;
       modify (setIsProcessingRef false))%eff
  end.

(** The [onStart] the component gives its TextToSpeech. *)
Definition speechStarted : Eff t Effect unit :=
  modify (setVoiceState speaking).

(** Its [onEnd]; [active] is the [isActive] the effect closed over. *)
Definition speechEnded (active : bool) : Eff t Effect unit :=
  (modify (setIsProcessingRef false) ;;
   if active then emit (SetTimeout RestartListening 500)
   else modify (setVoiceState idle))%eff.

(** Its [onError]. *)
Definition speechFailed : Eff t Effect unit :=
  (emit (ToastError "Speech synthesis error") ;;
   modify (setIsProcessingRef false) ;;
   modify (setVoiceState idle))%eff.

(** [clearConversation] *)
Definition clearConversation : Eff t Effect unit :=
  (modify (setConversation []) ;;
   emit (ToastSuccess "Conversation cleared"))%eff.

(** A reply that makes [handleSilenceDetected] throw. *)
Definition sttFails (reply : SttReply) : bool :=
  match reply with
  | SttJson true (Some (_ :: _)) => false
  | _ => true
  end.

Definition llmFails (reply : LlmReply) : bool :=
  match reply with
  | LlmJson true (Some (_ :: _)) => false
  | _ => true
  end.

(** [handleStop] while handlers are suspended: it has no hold on them. *)
Definition stopSystem (sys : System) : System :=
  mkSystem (state (handleStop (app sys))) (inflight sys).

Definition isSpeech (e : Effect) : bool :=
  match e with Speech _ => true | _ => false end.

Definition isTimer (e : Effect) : bool :=
  match e with SetTimeout _ _ => true | _ => false end.

(** The component after the [catch] block of a handler. *)
Definition failed (s : t) : t := setIsProcessingRef false (setVoiceState idle s).

(** What the [catch] block of [handleSilenceDetected] does. *)
Definition failureEffects (c : Render) : list Effect :=
  ToastError "Failed to process your message"
  :: (if rIsActive c then [SetTimeout RestartListening 1000] else []).

(** The component once [startListening] has gone past its guards. *)
Definition listeningFor (cfg : Listening) (timer : nat) (s : t) : t :=
  setListeningTimeoutRef (Some timer)
    (setAudioRecorderRef (Some (AudioRecorder.new (recorderOptions cfg)))
       (setHasDetectedSpeechRef false s)).

Definition listenEffects (c : Render) : list Action :=
  [Did (Recorder AudioRecorder.GetUserMedia);
   ArmSafetyTimer c maxListeningTime].

(** The transcript of [s'] is that of [s] with at most [n] messages added. *)
Definition grows (n : nat) (s s' : t) : Prop :=
  exists added,
    conversation s' = conversation s ++ added /\ (length added <= n)%nat.

End VoiceChat.

(* ------------------------------------------------------------------------- *)
(** ** The retrieval routes: chunking and deduplication *)

Module Rag.
Import Text.

(** [s.split(/\s+/)]: [word] holds the characters of the piece under way,
    last first, and [inGap] tells that the separator under way has already
    closed a piece. *)
Fixpoint splitFrom (word : Str) (inGap : bool) (s : Str) : list Str :=
  match s with
  | [] => [rev word]
  | c :: rest =>
      if isWhiteSpace c
      then if inGap then splitFrom [] true rest
           else rev word :: splitFrom [] true rest
      else splitFrom (c :: word) false rest
  end.

Definition split (s : Str) : list Str := splitFrom [] false s.

(** [words.join(sep)] *)
Fixpoint join (sep : Str) (words : list Str) : Str :=
  match words with
  | [] => []
  | w :: rest =>
      match rest with
      | [] => w
      | _ :: _ => w ++ sep ++ join sep rest
      end
  end.

(** An index of [slice] brought into the array: a negative one counts from
    the end. *)
Definition clampIndex (len k : Z) : Z :=
  if (k <? 0)%Z then Z.max (len + k) 0 else Z.min k len.

(** [l.slice(start, finish)] *)
Definition slice {A} (start finish : Z) (l : list A) : list A :=
  let len := Z.of_nat (length l) in
  let from := clampIndex len start in
  let to := clampIndex len finish in
  firstn (Z.to_nat (to - from)) (skipn (Z.to_nat from) l).

(** The loop of [chunkText] from index [i] on; [fuel] bounds the number of
    iterations, and [None] is a loop still running when it is used up. *)
Fixpoint chunkLoop (fuel : nat) (words : list Str) (maxChunkSize step i : Z)
  : option (list Str) :=
  match fuel with
  | O => None
  | S fuel' =>
      if (i <? Z.of_nat (length words))%Z
      then
        let chunk := join (str " ") (slice i (i + maxChunkSize) words) in
        match chunkLoop fuel' words maxChunkSize step (i + step) with
        | Some chunks =>
            Some (if isEmpty (trim chunk) then chunks
                  else trim chunk :: chunks)
        | None => None
        end
      else Some []
  end.

(** [chunkText(text, maxChunkSize, overlap)] *)
Definition chunkText (fuel : nat) (text : Str) (maxChunkSize overlap : Z)
  : option (list Str) :=
  chunkLoop fuel (split text) maxChunkSize (maxChunkSize - overlap) 0.

Definition defaultChunkSize : Z := 500.
Definition defaultOverlap : Z := 50.

(** A match of the vector index, as far as the route looks at it. *)
Record Result : Type := mkResult {
  resultId : Str;
  metadataText : option Str
}.

(** [result.metadata?.text || ''] *)
Definition textOf (r : Result) : Str :=
  match metadataText r with Some t => t | None => [] end.

Definition sameWord (a b : Str) : bool :=
  if list_eq_dec ascii_dec a b then true else false.

(** [set.has(w)] *)
Definition has (w : Str) (set : list Str) : bool := existsb (sameWord w) set.

(** [new Set(words)], in insertion order. *)
Fixpoint newSet (words : list Str) : list Str :=
  match words with
  | [] => []
  | w :: rest => w :: filter (fun x => negb (sameWord w x)) (newSet rest)
  end.

(** The Jaccard similarity of two texts, as [deduplicateResults] computes
    it.  The sizes are whole numbers far below 2^53, so the quotient of the
    two doubles lies on the same side of a threshold such as 0.9 as the
    rational does. *)
Definition similarity (text1 text2 : Str) : Q :=
  let words1 := newSet (split (toLowerCase text1)) in
  let words2 := newSet (split (toLowerCase text2)) in
  let intersection := newSet (filter (fun w => has w words2) words1) in
  let union := newSet (words1 ++ words2) in
  inject_Z (Z.of_nat (length intersection))
  / inject_Z (Z.of_nat (length union)).

(** The inner loop of [deduplicateResults]. *)
Definition isDuplicate (threshold : Q) (deduplicated : list Result)
  (result : Result) : bool :=
  existsb (fun existing =>
             Js.ltb threshold (similarity (textOf result) (textOf existing)))
          deduplicated.

(** The body of the outer loop of [deduplicateResults]. *)
Definition visit (threshold : Q) (deduplicated : list Result)
  (result : Result) : list Result :=
  if isDuplicate threshold deduplicated result
  then deduplicated
  else deduplicated ++ [result].

(** [deduplicateResults(results, threshold)] *)
Definition deduplicateResults (results : list Result) (threshold : Q)
  : list Result :=
  fold_left (visit threshold) results [].

(** No result of [kept] is a duplicate of the results before it. *)
Definition distinct (threshold : Q) (kept : list Result) : Prop :=
  forall before result after,
    kept = before ++ result :: after ->
    isDuplicate threshold before result = false.

Definition defaultThreshold : Q := 9 # 10.

(** Four results: the third has no text, like the first, and the fourth has
    the text of the second. *)
Definition repeatedTexts : list Result :=
  [mkResult (str "a") None;
   mkResult (str "b") (Some (str "Next.js and React"));
   mkResult (str "c") None;
   mkResult (str "d") (Some (str "Next.js and React"))].

(** [small] can be had from [big] by leaving results out. *)
Inductive Subsequence {A} : list A -> list A -> Prop :=
| sub_nil : Subsequence [] []
| sub_keep x small big : Subsequence small big -> Subsequence (x :: small) (x :: big)
| sub_drop x small big : Subsequence small big -> Subsequence small (x :: big).

(** No character of [w] is white space. *)
Definition solid (w : Str) : Prop :=
  forallb (fun c => negb (isWhiteSpace c)) w = true.

(** [s] is empty or ends with white space. *)
Definition endsOpen (s : Str) : Prop :=
  match lastChar s with Some c => isWhiteSpace c = true | None => True end.

(** [s] is empty or starts with white space. *)
Definition startsOpen (s : Str) : Prop :=
  match firstChar s with Some c => isWhiteSpace c = true | None => True end.

End Rag.

(* ------------------------------------------------------------------------- *)
(** ** The learning route: the topic of a message *)

Module Learn.
Import Text.

(** [s.includes(w)] *)
Fixpoint includes (w s : Str) : bool :=
  startsWith w s
  || match s with
     | [] => false
     | _ :: s' => includes w s'
     end.

Inductive Category : Type :=
| technical | career | projects | personal | help | general.

(** The keywords of the categories, in the order of the object literal. *)
Definition categories : list (Category * list Str) :=
  [(technical, [str "code"; str "api"; str "function"; str "error";
                str "debug"; str "implement"]);
   (career, [str "job"; str "experience"; str "skills"; str "resume";
             str "work"]);
   (projects, [str "project"; str "portfolio"; str "built"; str "created";
               str "developed"]);
   (personal, [str "you"; str "your"; str "about"; str "tell me"]);
   (help, [str "how"; str "what"; str "why"; str "can you"; str "help"])].

(** The loop of [categorizeMessage] over the entries left. *)
Fixpoint firstCategory (lowerMessage : Str)
  (entries : list (Category * list Str)) : Category :=
  match entries with
  | [] => general
  | (category, keywords) :: rest =>
      if existsb (fun keyword => includes keyword lowerMessage) keywords
      then category
      else firstCategory lowerMessage rest
  end.

(** [categorizeMessage(message)] *)
Definition categorizeMessage (message : Str) : Category :=
  firstCategory (toLowerCase message) categories.

(** The categories without the keywords that another keyword contains. *)
Definition effectiveCategories : list (Category * list Str) :=
  [(technical, [str "code"; str "api"; str "function"; str "error";
                str "debug"; str "implement"]);
   (career, [str "job"; str "experience"; str "skills"; str "resume";
             str "work"]);
   (projects, [str "project"; str "portfolio"; str "built"; str "created";
               str "developed"]);
   (personal, [str "you"; str "about"; str "tell me"]);
   (help, [str "how"; str "what"; str "why"; str "help"])].

End Learn.

(* ------------------------------------------------------------------------- *)
(** ** Rounding to the nearest double *)

Module Rounding.
Import Js.

Lemma two_nonzero : ~ 2 == 0.
Proof. discriminate. Qed.

Lemma pow2_pos z : 0 < 2 ^ z.
Proof. apply Qpower_0_lt. reflexivity. Qed.

Lemma pow2_le a b : (a <= b)%Z -> 2 ^ a <= 2 ^ b.
Proof. intros H. apply Qpower_le_compat_l; [exact H | discriminate]. Qed.

Lemma pow2_split a b : 2 ^ a == 2 ^ b * 2 ^ (a - b).
Proof.
  rewrite <- Qpower_plus by apply two_nonzero.
  now replace (b + (a - b))%Z with a by lia.
Qed.

Lemma pow2_Z n : (0 <= n)%Z -> inject_Z (2 ^ n) == 2 ^ n.
Proof. intros H. now rewrite Zpower_Qpower. Qed.

(** *** [roundEven] *)

Lemma roundEven_bounds q :
  (Qfloor q <= roundEven q <= Qfloor q + 1)%Z.
Proof.
  unfold roundEven.
  destruct (Qcompare _ _); [destruct (Z.even _) | |]; lia.
Qed.

Lemma roundEven_Z n : roundEven (inject_Z n) = n.
Proof.
  unfold roundEven. rewrite Qfloor_Z.
  replace (Qcompare (inject_Z n - inject_Z n) (1 # 2)) with Lt; [reflexivity|].
  symmetry. apply Qlt_alt.
  setoid_replace (inject_Z n - inject_Z n) with 0 by ring. reflexivity.
Qed.

Lemma roundEven_le a b : a <= b -> (roundEven a <= roundEven b)%Z.
Proof.
  intros H. pose proof (Qfloor_resp_le a b H) as Hf.
  destruct (Z.eq_dec (Qfloor a) (Qfloor b)) as [E | N].
  - unfold roundEven. rewrite <- E.
    assert (Hd : a - inject_Z (Qfloor a) <= b - inject_Z (Qfloor a)).
    { apply Qplus_le_l with (inject_Z (Qfloor a)). ring_simplify. exact H. }
    destruct (Qcompare (a - inject_Z (Qfloor a)) (1 # 2)) eqn:Ca;
      destruct (Qcompare (b - inject_Z (Qfloor a)) (1 # 2)) eqn:Cb;
      try (destruct (Z.even (Qfloor a))); try lia; exfalso;
      repeat match goal with
             | C : Qcompare _ _ = Eq |- _ => apply Qeq_alt in C
             | C : Qcompare _ _ = Lt |- _ => apply Qlt_alt in C
             | C : Qcompare _ _ = Gt |- _ => apply Qgt_alt in C
             end;
      first [ rewrite Ca in Hd; exact (Qlt_not_le _ _ Cb Hd)
            | rewrite Cb in Hd; exact (Qlt_not_le _ _ Ca Hd)
            | exact (Qlt_not_le _ _ (Qlt_trans _ _ _ Cb Ca) Hd) ].
  - pose proof (roundEven_bounds a). pose proof (roundEven_bounds b). lia.
Qed.

(** *** The exponent *)

Lemma ratio_lt (n d : positive) (a b : Z) :
  (0 <= a)%Z -> (0 <= b)%Z ->
  (Zpos n < 2 ^ a)%Z -> (2 ^ b <= Zpos d)%Z ->
  Zpos n # d < 2 ^ (a - b).
Proof.
  intros Ha Hb Hn Hd.
  rewrite Qpower_minus by apply two_nonzero.
  rewrite <- !pow2_Z by assumption.
  assert (0 < 2 ^ b)%Z by (apply Z.pow_pos_nonneg; lia).
  apply Qlt_shift_div_l.
  - unfold Qlt, inject_Z. cbn [Qnum Qden]. lia.
  - unfold Qlt, Qmult, inject_Z. cbn [Qnum Qden]. nia.
Qed.

Lemma ratio_gt (n d : positive) (a b : Z) :
  (0 <= a)%Z -> (0 <= b)%Z ->
  (2 ^ a <= Zpos n)%Z -> (Zpos d < 2 ^ b)%Z ->
  2 ^ (a - b) < Zpos n # d.
Proof.
  intros Ha Hb Hn Hd.
  rewrite Qpower_minus by apply two_nonzero.
  rewrite <- !pow2_Z by assumption.
  apply Qlt_shift_div_r.
  - assert (0 < 2 ^ b)%Z by (apply Z.pow_pos_nonneg; lia).
    unfold Qlt, inject_Z. cbn [Qnum Qden]. lia.
  - unfold Qlt, Qmult, inject_Z. cbn [Qnum Qden].
    assert (0 < 2 ^ a)%Z by (apply Z.pow_pos_nonneg; lia). nia.
Qed.

Lemma ilog2_spec q : 0 < q -> 2 ^ ilog2 q <= q /\ q < 2 ^ (ilog2 q + 1).
Proof.
  intros Hq. destruct q as [n d]. unfold Qlt in Hq. simpl in Hq.
  destruct n as [|n|n]; try lia.
  unfold ilog2. cbn [Qnum Qden].
  pose proof (Z.log2_spec (Zpos n) eq_refl) as [Hn1 Hn2].
  pose proof (Z.log2_spec (Zpos d) eq_refl) as [Hd1 Hd2].
  pose proof (Z.log2_nonneg (Zpos n)) as Ha.
  pose proof (Z.log2_nonneg (Zpos d)) as Hb.
  set (a := Z.log2 (Zpos n)) in *. set (b := Z.log2 (Zpos d)) in *.
  assert (Hup : Zpos n # d < 2 ^ (a - b + 1)).
  { replace (a - b + 1)%Z with (Z.succ a - b)%Z by lia.
    apply ratio_lt; auto; lia. }
  assert (Hlow : 2 ^ (a - b - 1) < Zpos n # d).
  { replace (a - b - 1)%Z with (a - Z.succ b)%Z by lia.
    apply ratio_gt; auto; lia. }
  destruct (Qle_bool (2 ^ (a - b)) (Zpos n # d)) eqn:E.
  - apply Qle_bool_iff in E. split; assumption.
  - split; [now apply Qlt_le_weak|].
    replace (a - b - 1 + 1)%Z with (a - b)%Z by lia.
    apply Qnot_le_lt. intros H. apply Qle_bool_iff in H. congruence.
Qed.

Lemma ilog2_le x y : 0 < x -> x <= y -> (ilog2 x <= ilog2 y)%Z.
Proof.
  intros Hx Hxy.
  destruct (ilog2_spec x Hx) as [H1 _].
  destruct (ilog2_spec y (Qlt_le_trans _ _ _ Hx Hxy)) as [_ H2].
  assert (H : 2 ^ ilog2 x < 2 ^ (ilog2 y + 1)).
  { eapply Qle_lt_trans; [exact H1|]. eapply Qle_lt_trans; [exact Hxy | exact H2]. }
  apply Qpower_lt_compat_l_inv in H; [lia | reflexivity].
Qed.

Lemma abs_pos q : ~ q == 0 -> 0 < Qabs q.
Proof.
  intros N. destruct (Qle_lt_or_eq _ _ (Qabs_nonneg q)) as [H | H]; [exact H|].
  elim N. destruct q as [[|n|n] d]; try reflexivity;
    unfold Qeq in H; simpl in H; lia.
Qed.

Lemma ulp_pos q : 0 < ulp q.
Proof. apply pow2_pos. Qed.

Lemma ulp_top q : 2 ^ exponent q == inject_Z (2 ^ 52) * ulp q.
Proof.
  unfold ulp. rewrite pow2_Z by lia.
  rewrite <- Qpower_plus by apply two_nonzero.
  now replace (52 + (exponent q - 52))%Z with (exponent q) by lia.
Qed.

Lemma ulp_next q : 2 ^ (exponent q + 1) == inject_Z (2 ^ 53) * ulp q.
Proof.
  unfold ulp. rewrite pow2_Z by lia.
  rewrite <- Qpower_plus by apply two_nonzero.
  now replace (53 + (exponent q - 52))%Z with (exponent q + 1)%Z by lia.
Qed.

Lemma below_next q : Qabs q < 2 ^ (exponent q + 1).
Proof.
  destruct (Qeq_dec q 0) as [E | N].
  - apply Qle_lt_trans with 0; [| apply pow2_pos].
    apply Qle_lteq. right. now rewrite E.
  - destruct (ilog2_spec _ (abs_pos q N)) as [_ H].
    eapply Qlt_le_trans; [exact H|]. apply pow2_le. unfold exponent. lia.
Qed.

Lemma above_top q :
  (minExponent < exponent q)%Z -> ~ q == 0 -> 2 ^ exponent q <= Qabs q.
Proof.
  intros Ht N. destruct (ilog2_spec _ (abs_pos q N)) as [H _].
  unfold exponent in *.
  replace (Z.max (ilog2 (Qabs q)) minExponent) with (ilog2 (Qabs q)) by lia.
  exact H.
Qed.

Lemma exponent_le x y :
  ~ x == 0 -> Qabs x <= Qabs y -> (exponent x <= exponent y)%Z.
Proof.
  intros N H. pose proof (ilog2_le _ _ (abs_pos x N) H). unfold exponent. lia.
Qed.

(** *** The nearest double *)

(** The rounded value before it is brought to lowest terms. *)
Lemma double_eq q : double q == inject_Z (roundEven (q / ulp q)) * ulp q.
Proof. unfold double. apply Qred_correct. Qed.

(** A bound that is a whole multiple of the last place bounds the rounded
    value as it bounds the number. *)
Lemma double_le_multiple q n :
  q <= inject_Z n * ulp q -> double q <= inject_Z n * ulp q.
Proof.
  intros H. rewrite double_eq.
  apply Qmult_le_compat_r; [| apply Qlt_le_weak, ulp_pos].
  rewrite <- Zle_Qle. rewrite <- (roundEven_Z n). apply roundEven_le.
  apply Qle_shift_div_r; [apply ulp_pos | exact H].
Qed.

Lemma double_ge_multiple q n :
  inject_Z n * ulp q <= q -> inject_Z n * ulp q <= double q.
Proof.
  intros H. rewrite double_eq.
  apply Qmult_le_compat_r; [| apply Qlt_le_weak, ulp_pos].
  rewrite <- Zle_Qle. rewrite <- (roundEven_Z n) at 1. apply roundEven_le.
  apply Qle_shift_div_l; [apply ulp_pos | exact H].
Qed.

Lemma double_same_ulp x y :
  ulp x = ulp y -> x <= y -> double x <= double y.
Proof.
  intros E H. rewrite !double_eq, E.
  apply Qmult_le_compat_r; [| apply Qlt_le_weak, ulp_pos].
  rewrite <- Zle_Qle. apply roundEven_le.
  apply Qmult_le_compat_r; [exact H|].
  apply Qlt_le_weak, Qinv_lt_0_compat, ulp_pos.
Qed.

Lemma double_nonneg q : 0 <= q -> 0 <= double q.
Proof.
  intros H. rewrite <- (Qmult_0_l (ulp q)). apply (double_ge_multiple q 0).
  now rewrite Qmult_0_l.
Qed.

Lemma double_nonpos q : q <= 0 -> double q <= 0.
Proof.
  intros H. rewrite <- (Qmult_0_l (ulp q)). apply (double_le_multiple q 0).
  now rewrite Qmult_0_l.
Qed.

Lemma ulp_of_exponent x y : exponent x = exponent y -> ulp x = ulp y.
Proof. unfold ulp. now intros ->. Qed.

Lemma le_opp a x : a <= - x -> x <= - a.
Proof.
  intros H. apply Qopp_le_compat in H. now rewrite Qopp_involutive in H.
Qed.

Lemma opp_le a x : - x <= a -> - a <= x.
Proof.
  intros H. apply Qopp_le_compat in H. now rewrite Qopp_involutive in H.
Qed.

Lemma opp_multiple n u : - (inject_Z n * u) == inject_Z (- n) * u.
Proof. rewrite inject_Z_opp. ring. Qed.

(** Rounding to the nearest double keeps the order. *)
Lemma double_le x y : x <= y -> double x <= double y.
Proof.
  intros H.
  destruct (Qlt_le_dec 0 x) as [Hx | Hx].
  - (* 0 < x <= y *)
    assert (Hy : 0 < y) by exact (Qlt_le_trans _ _ _ Hx H).
    assert (Nx : ~ x == 0) by (intros E; rewrite E in Hx; discriminate).
    assert (Ny : ~ y == 0) by (intros E; rewrite E in Hy; discriminate).
    assert (Ax : Qabs x == x) by (apply Qabs_pos; now apply Qlt_le_weak).
    assert (Ay : Qabs y == y) by (apply Qabs_pos; now apply Qlt_le_weak).
    assert (He : (exponent x <= exponent y)%Z).
    { apply exponent_le; [exact Nx|]. now rewrite Ax, Ay. }
    destruct (Z.eq_dec (exponent x) (exponent y)) as [E | N].
    + apply double_same_ulp; [now apply ulp_of_exponent | exact H].
    + apply Qle_trans with (2 ^ (exponent x + 1)).
      * rewrite ulp_next. apply double_le_multiple. rewrite <- ulp_next.
        apply Qle_trans with (Qabs x); [apply Qle_Qabs|].
        apply Qlt_le_weak, below_next.
      * apply Qle_trans with (2 ^ exponent y); [apply pow2_le; lia|].
        rewrite ulp_top. apply double_ge_multiple. rewrite <- ulp_top.
        apply Qle_trans with (Qabs y);
          [| apply Qle_lteq; right; exact Ay].
        apply above_top; [| exact Ny].
        pose proof (Z.le_max_r (ilog2 (Qabs x)) minExponent).
        unfold exponent in *. lia.
  - destruct (Qlt_le_dec y 0) as [Hy | Hy].
    + (* x <= y < 0 *)
      assert (Hx' : x < 0) by exact (Qle_lt_trans _ _ _ H Hy).
      assert (Nx : ~ x == 0) by (intros E; rewrite E in Hx'; discriminate).
      assert (Ny : ~ y == 0) by (intros E; rewrite E in Hy; discriminate).
      assert (Ax : Qabs x == - x) by (apply Qabs_neg; now apply Qlt_le_weak).
      assert (Ay : Qabs y == - y) by (apply Qabs_neg; now apply Qlt_le_weak).
      assert (He : (exponent y <= exponent x)%Z).
      { apply exponent_le; [exact Ny|]. rewrite Ax, Ay. now apply Qopp_le_compat. }
      destruct (Z.eq_dec (exponent x) (exponent y)) as [E | N].
      * apply double_same_ulp; [now apply ulp_of_exponent | exact H].
      * apply Qle_trans with (- 2 ^ exponent x).
        -- rewrite ulp_top, opp_multiple. apply double_le_multiple.
           rewrite <- opp_multiple, <- ulp_top.
           apply le_opp. apply Qle_trans with (Qabs x);
             [| apply Qle_lteq; right; exact Ax].
           apply above_top; [| exact Nx].
           pose proof (Z.le_max_r (ilog2 (Qabs y)) minExponent).
           unfold exponent in *. lia.
        -- apply Qle_trans with (- 2 ^ (exponent y + 1)).
           ++ apply Qopp_le_compat. apply pow2_le. lia.
           ++ rewrite ulp_next, opp_multiple. apply double_ge_multiple.
              rewrite <- opp_multiple, <- ulp_next.
              apply opp_le. apply Qle_trans with (Qabs y);
                [apply Qle_lteq; right; symmetry; exact Ay|].
              apply Qlt_le_weak, below_next.
    + apply Qle_trans with 0; [now apply double_nonpos | now apply double_nonneg].
Qed.

Lemma ilog2_unique q k : 2 ^ k <= q -> q < 2 ^ (k + 1) -> ilog2 q = k.
Proof.
  intros H1 H2.
  assert (Hq : 0 < q) by exact (Qlt_le_trans _ _ _ (pow2_pos k) H1).
  destruct (ilog2_spec q Hq) as [G1 G2].
  assert (A : 2 ^ ilog2 q < 2 ^ (k + 1)) by exact (Qle_lt_trans _ _ _ G1 H2).
  assert (B : 2 ^ k < 2 ^ (ilog2 q + 1)) by exact (Qle_lt_trans _ _ _ H1 G2).
  apply Qpower_lt_compat_l_inv in A; [| reflexivity].
  apply Qpower_lt_compat_l_inv in B; [| reflexivity].
  lia.
Qed.

(** A double between 128 and 256 is a whole multiple of [2^-45]. *)
Lemma double_near_250 q :
  isDouble q = true -> 128 <= q -> q < 256 ->
  exists m, q == inject_Z m * (1 # 2 ^ 45).
Proof.
  intros Hd Hlo Hhi.
  assert (A : Qabs q == q).
  { apply Qabs_pos. apply Qle_trans with 128; [discriminate | exact Hlo]. }
  assert (E : exponent q = 7%Z).
  { unfold exponent. rewrite (ilog2_unique (Qabs q) 7); [reflexivity | |].
    - rewrite A. exact Hlo.
    - rewrite A. exact Hhi. }
  exists (roundEven (q / ulp q)).
  unfold isDouble in Hd. apply Qeq_bool_iff in Hd.
  rewrite <- Hd at 1. rewrite double_eq. unfold ulp. rewrite E.
  apply Qmult_comp; reflexivity.
Qed.

(** The sum of a number above 250 and 5 is above 255. *)
Lemma add5_above_255 a : 250 < a -> 255 < add a 5.
Proof.
  intros Ha.
  assert (Hex : 255 < a + 5).
  { change 255 with (250 + 5). now apply Qplus_lt_l. }
  unfold add. destruct (isDouble a) eqn:Ea; simpl; [| exact Hex].
  destruct (Qlt_le_dec a 256) as [Hlt | Hge].
  - destruct (double_near_250 a Ea) as [m Hm]; [| exact Hlt |].
    { apply Qle_trans with 250; [discriminate | now apply Qlt_le_weak]. }
    assert (Hz : (250 * 2 ^ 45 < m)%Z).
    { rewrite Hm in Ha. unfold Qlt in Ha.
      cbn [Qnum Qden Qmult inject_Z] in Ha. lia. }
    apply Qlt_le_trans with (double (255 + (1 # 2 ^ 45)));
      [vm_compute; reflexivity|].
    apply double_le.
    setoid_replace 255 with (250 + inject_Z 5)%Q by reflexivity.
    rewrite <- Qplus_assoc, (Qplus_comm (inject_Z 5)), Qplus_assoc.
    apply Qplus_le_l. rewrite Hm.
    unfold Qle. cbn [Qnum Qden Qmult Qplus inject_Z]. lia.
  - apply Qlt_le_trans with (double 261); [vm_compute; reflexivity|].
    apply double_le. change 261 with (256 + 5). now apply Qplus_le_l.
Qed.

(** The sum of a number and one that is not negative is not below the
    number. *)
Lemma add_ge a b : 0 <= b -> a <= add a b.
Proof.
  intros Hb.
  assert (H : a <= a + b).
  { rewrite <- (Qplus_0_r a) at 1. now apply Qplus_le_r. }
  unfold add. destruct (isDouble a) eqn:Ea; simpl; [| exact H].
  destruct (isDouble b); [| exact H].
  unfold isDouble in Ea. apply Qeq_bool_iff in Ea.
  rewrite <- Ea at 1. now apply double_le.
Qed.

End Rounding.

(* ------------------------------------------------------------------------- *)
(** ** The silence detector *)

Module Detector.
Import AudioRecorder.

(** Case analysis on the conditions of a method body. *)
Ltac branches :=
  repeat match goal with
         | |- context [if ?b then _ else _] => destruct b eqn:?
         end.

Lemma ltb_lt a b : Js.ltb a b = true <-> a < b.
Proof.
  unfold Js.ltb. rewrite negb_true_iff, <- not_true_iff_false, Qle_bool_iff.
  split; [apply Qnot_le_lt | apply Qlt_not_le].
Qed.

Lemma geb_le a b : Js.geb a b = true <-> b <= a.
Proof. apply Qle_bool_iff. Qed.

Lemma geb_false a b : a < b -> Js.geb a b = false.
Proof.
  intros H. apply not_true_iff_false. rewrite geb_le. now apply Qlt_not_le.
Qed.

Lemma ltb_false a b : b <= a -> Js.ltb a b = false.
Proof.
  intros H. apply not_true_iff_false. rewrite ltb_lt. now apply Qle_not_lt.
Qed.

Lemma signals_app l1 l2 : signals (l1 ++ l2) = (signals l1 + signals l2)%nat.
Proof. unfold signals. now rewrite filter_app, length_app. Qed.

Lemma session_fresh r0 :
  hasSoundDetected (session r0) = false
  /\ silenceTriggered (session r0) = false
  /\ isRecording (session r0) = true
  /\ audioChunks (session r0) = []
  /\ silenceThreshold (session r0) = silenceThreshold r0
  /\ volumeCheckInterval (session r0)
     = Some (mkMonitor 0 0
               (Qceiling (silenceDuration r0 / inject_Z checkInterval))
               (Js.add (silenceThreshold r0) 5)).
Proof. repeat split. Qed.

(** *** What one event can do to the flags *)

Lemma stopRecording_flags r :
  hasSoundDetected (state (stopRecording r)) = hasSoundDetected r
  /\ silenceTriggered (state (stopRecording r)) = silenceTriggered r
  /\ silenceThreshold (state (stopRecording r)) = silenceThreshold r
  /\ volumeCheckInterval (state (stopRecording r)) = None
  /\ signals (effects (stopRecording r)) = 0%nat.
Proof.
  destruct r as [mr ch st to ctx an th du c1 c2 c3 rec iv hs tr].
  destruct mr as [[]|], st, to, ctx, iv; repeat split.
Qed.

Lemma volumeCheck_threshold v r m :
  let '(r', m', _) := volumeCheck v r m in
  soundThreshold m' = soundThreshold m
  /\ silenceThreshold r' = silenceThreshold r.
Proof. unfold volumeCheck. branches; now split. Qed.

(** Below the sound threshold a detector that has heard nothing stays so,
    and calls nothing but [onVolumeChange]. *)
Lemma volumeCheck_quiet v r m :
  hasSoundDetected r = false ->
  v < soundThreshold m ->
  let '(r', _, l) := volumeCheck v r m in
  hasSoundDetected r' = false /\ signals l = 0%nat.
Proof.
  intros Hs Hv. unfold volumeCheck.
  destruct (isRecording r); simpl; [| now split].
  assert (G : forall q, Js.geb v (soundThreshold
            (if Js.ltb (maxVolumeDetected m) v
             then mkMonitor (consecutiveSilenceChecks m) q
                    (silenceChecksNeeded m) (soundThreshold m)
             else m)) = false).
  { intros q. apply geb_false. now destruct (Js.ltb _ _). }
  rewrite !G, Hs. simpl. split; [assumption|].
  now destruct (onVolumeChange r).
Qed.

(** A tick emits at most one signal; one that does finds the one-shot flag
    clear and sets it; the flag is never cleared. *)
Lemma volumeCheck_one_shot v r m :
  let '(r', _, l) := volumeCheck v r m in
  (signals l <= 1)%nat
  /\ (silenceTriggered r = true -> signals l = 0%nat)
  /\ (signals l = 1%nat -> silenceTriggered r' = true)
  /\ (silenceTriggered r = true -> silenceTriggered r' = true).
Proof.
  unfold volumeCheck.
  destruct (isRecording r); simpl; [| repeat split; auto; discriminate].
  destruct (Js.geb v _) eqn:Hg; simpl.
  - destruct (hasSoundDetected r) eqn:Hh; simpl; rewrite ?Hh; simpl;
      destruct (Js.ltb v _); simpl;
      destruct (silenceTriggered r) eqn:Ht; simpl;
      rewrite ?andb_false_r, ?andb_true_r;
      branches; rewrite ?signals_app; simpl;
      destruct (onVolumeChange r); simpl; repeat split; auto; try discriminate.
  - destruct (hasSoundDetected r) eqn:Hh; simpl;
      [| destruct (onVolumeChange r); repeat split; auto; discriminate].
    destruct (Js.ltb v _); simpl;
      destruct (silenceTriggered r) eqn:Ht; simpl;
      rewrite ?andb_false_r, ?andb_true_r;
      branches; rewrite ?signals_app; simpl;
      destruct (onVolumeChange r); simpl; repeat split; auto; try discriminate.
Qed.

Lemma step_one_shot r ev :
  (signals (snd (step r ev)) <= 1)%nat
  /\ (silenceTriggered r = true -> signals (snd (step r ev)) = 0%nat)
  /\ (signals (snd (step r ev)) = 1%nat ->
      silenceTriggered (fst (step r ev)) = true)
  /\ (silenceTriggered r = true -> silenceTriggered (fst (step r ev)) = true).
Proof.
  destruct ev as [v | data | |]; simpl.
  - unfold tick. destruct (volumeCheckInterval r) as [m|]; simpl;
      [| repeat split; auto; discriminate].
    pose proof (volumeCheck_one_shot v r m) as H.
    destruct (volumeCheck v r m) as [[r' m'] l]. exact H.
  - unfold ondataavailable. branches; simpl; repeat split; auto; discriminate.
  - unfold onstop. branches; simpl; repeat split; auto; discriminate.
  - destruct (stopRecording_flags r) as (_ & Ht & _ & _ & Hl).
    unfold state, effects in *.
    destruct (stopRecording r) as [[[u|msg] r'] l]; simpl in *;
      rewrite ?signals_app, Hl, Ht; simpl; repeat split; auto; discriminate.
Qed.

(** Over a whole run: a recorder whose one-shot flag is set signals no more,
    one whose flag is clear signals at most once. *)
Lemma run_one_shot evs : forall r,
  (signals (snd (run r evs)) <= if silenceTriggered r then 0 else 1)%nat.
Proof.
  induction evs as [|ev evs IH]; intros r; simpl.
  - destruct (silenceTriggered r); auto.
  - destruct (step_one_shot r ev) as (H1 & H2 & H3 & H4).
    destruct (step r ev) as [r1 l1]. specialize (IH r1).
    destruct (run r1 evs) as [r2 l2]. simpl in *.
    rewrite signals_app.
    destruct (silenceTriggered r).
    + rewrite H2, H4 in * by reflexivity. exact IH.
    + destruct (signals l1) as [|[|n]]; [| | lia].
      * destruct (silenceTriggered r1); simpl in *; lia.
      * rewrite H3 in IH by reflexivity. lia.
Qed.

Lemma step_unheard T r ev :
  unheard T r ->
  (forall v, ev = Tick v -> v < T) ->
  unheard T (fst (step r ev)) /\ signals (snd (step r ev)) = 0%nat.
Proof.
  intros (Hs & Hth & Hm) Hv. destruct ev as [v | data | |]; simpl.
  - unfold tick. destruct (volumeCheckInterval r) as [m|] eqn:Hi; simpl.
    + pose proof (volumeCheck_quiet v r m Hs) as Hq.
      pose proof (volumeCheck_threshold v r m) as Ht.
      rewrite (Hm m eq_refl) in Hq. specialize (Hq (Hv v eq_refl)).
      destruct (volumeCheck v r m) as [[r' m'] l]. simpl.
      destruct Hq as [Hq1 Hq2], Ht as [Ht1 Ht2].
      split; [split; [| split] |]; auto.
      * simpl. now rewrite Ht2.
      * intros m0 E. injection E as <-. rewrite Ht1. now apply Hm.
    + repeat split; auto. intros m. rewrite Hi. discriminate.
  - unfold ondataavailable. branches; simpl; repeat split; auto.
  - unfold onstop. branches; simpl; repeat split; auto.
  - destruct (stopRecording_flags r) as (Hh & _ & Hth' & Hi & Hl).
    unfold state, effects in *.
    destruct (stopRecording r) as [[[u|msg] r'] l]; simpl in *;
      rewrite ?signals_app, Hl; repeat split; try congruence;
      intros m; rewrite Hi; discriminate.
Qed.

Lemma run_unheard T evs : forall r,
  unheard T r ->
  (forall v, In v (volumes evs) -> v < T) ->
  unheard T (fst (run r evs)) /\ signals (snd (run r evs)) = 0%nat.
Proof.
  induction evs as [|ev evs IH]; intros r Hr Hv; simpl.
  - now split.
  - destruct (step_unheard T r ev Hr) as [H1 H2].
    { intros v ->. apply Hv. simpl. now left. }
    destruct (step r ev) as [r1 l1]. simpl in *.
    destruct (IH r1 H1) as [H3 H4].
    { intros v Hin. apply Hv. unfold volumes in *. simpl.
      apply in_or_app. now right. }
    destruct (run r1 evs) as [r2 l2]. simpl in *.
    rewrite signals_app, H2, H4. now split.
Qed.

Lemma session_unheard r0 :
  unheard (Js.add (silenceThreshold r0) 5) (session r0).
Proof.
  split; [reflexivity|]. split; [reflexivity|]. intros m E.
  destruct (session_fresh r0) as (_ & _ & _ & _ & _ & Hi).
  rewrite Hi in E. now injection E as <-.
Qed.

Lemma run_app evs1 evs2 r :
  run r (evs1 ++ evs2)
  = (fst (run (fst (run r evs1)) evs2),
     snd (run r evs1) ++ snd (run (fst (run r evs1)) evs2)).
Proof.
  revert r. induction evs1 as [|ev evs1 IH]; intros r; simpl.
  - now destruct (run r evs2).
  - destruct (step r ev) as [r1 l1]. rewrite IH.
    destruct (run r1 evs1) as [r2 l2]. simpl. now rewrite app_assoc.
Qed.

(** The first sample that reaches the sound threshold sets the flag and,
    lying above the silence threshold, signals nothing. *)
Lemma tick_first_sound T r v :
  unheard T r -> T <= v -> signals (snd (tick v r)) = 0%nat.
Proof.
  intros (Hs & Hth & Hm) Hv. unfold tick.
  destruct (volumeCheckInterval r) as [m|] eqn:Hi; [| reflexivity].
  specialize (Hm m eq_refl).
  assert (Hsil : Js.ltb v (silenceThreshold r) = false).
  { apply ltb_false.
    apply Qle_trans with (Js.add (silenceThreshold r) 5); [| now rewrite Hth].
    apply Rounding.add_ge. discriminate. }
  unfold volumeCheck.
  destruct (isRecording r); simpl; [| reflexivity].
  assert (G : forall q, Js.geb v (soundThreshold
            (if Js.ltb (maxVolumeDetected m) v
             then mkMonitor (consecutiveSilenceChecks m) q
                    (silenceChecksNeeded m) (soundThreshold m)
             else m)) = true).
  { intros q. apply geb_le.
    destruct (Js.ltb (maxVolumeDetected m) v); cbn [soundThreshold];
      rewrite Hm; exact Hv. }
  rewrite !G, Hs. simpl. rewrite Hsil. simpl.
  destruct (onVolumeChange r); reflexivity.
Qed.

(** C1 (sound-first invariant).  Take a recorder with no monitor running (a
    new or a stopped one) and the session a successful [startRecording()]
    opens on it.  Its monitor's [soundThreshold] is [silenceThreshold + 5] as
    the platform adds, the double nearest to the sum.  If every sample before
    the first one that reaches [soundThreshold] is below [silenceThreshold],
    then nothing the recorder does before that sample, nor at it, is a call
    of [onSilenceDetected]; and a session whose samples are all below
    [soundThreshold] never calls it.  Data, stop and recorder-stopped events
    may be interleaved with the samples at will. *)
Theorem sound_first_invariant (r0 : t) (pre post evs : list Event) (loud : Q) :
  volumeCheckInterval r0 = None ->
  option_map soundThreshold (volumeCheckInterval (session r0))
  = Some (Js.add (silenceThreshold (session r0)) 5)
  /\ ((forall v, In v (volumes pre) -> v < silenceThreshold (session r0)) ->
      Js.add (silenceThreshold (session r0)) 5 <= loud ->
      snd (run (session r0) (pre ++ Tick loud :: post))
      = snd (run (session r0) (pre ++ [Tick loud]))
        ++ snd (run (fst (run (session r0) (pre ++ [Tick loud]))) post)
      /\ signals (snd (run (session r0) pre)) = 0%nat
      /\ signals (snd (run (session r0) (pre ++ [Tick loud]))) = 0%nat)
  /\ ((forall v, In v (volumes evs) ->
                 v < Js.add (silenceThreshold (session r0)) 5) ->
      signals (snd (run (session r0) evs)) = 0%nat).
Proof.
  intros _. split; [reflexivity|]. split.
  - intros Hpre Hloud.
    assert (Hq : forall v, In v (volumes pre) ->
                           v < Js.add (silenceThreshold r0) 5).
    { intros v Hin. apply Qlt_le_trans with (silenceThreshold r0);
        [now apply Hpre|].
      apply Rounding.add_ge. discriminate. }
    destruct (run_unheard _ pre (session r0) (session_unheard r0) Hq) as [Hu Hn].
    split; [| split; [exact Hn|]].
    + change (pre ++ Tick loud :: post) with (pre ++ [Tick loud] ++ post).
      rewrite app_assoc. now rewrite (run_app (pre ++ [Tick loud]) post).
    + rewrite run_app. simpl. rewrite signals_app, Hn. simpl.
      pose proof (tick_first_sound _ _ loud Hu Hloud) as Ht.
      destruct (tick loud _) as [r1 l1]. simpl in *.
      now rewrite app_nil_r.
  - intros Hall.
    now destruct (run_unheard _ evs (session r0) (session_unheard r0) Hall).
Qed.

(** C2 (one-shot invariant).  In the session a successful
    [startRecording()] opens on a recorder with no monitor running, the
    recorder calls [onSilenceDetected] at most once, whatever samples, data,
    stop and recorder-stopped events follow the first call. *)
Theorem one_shot_invariant (r0 : t) (evs : list Event) :
  volumeCheckInterval r0 = None ->
  (signals (snd (run (session r0) evs)) <= 1)%nat.
Proof. intros _. exact (run_one_shot evs (session r0)). Qed.

(** Scenario A prolonged by a minute of silence: the signal of sample 15 is
    the only one. *)
Lemma one_shot_invariant_witness :
  signals (snd (run (scenarioA_recorder oneByte)
                  (map Tick (scenarioA_samples ++ repeat 5%Q 600%nat)))) = 1%nat
  /\ (signals (snd (run (session (new scenarioA_options))
                     (DataAvailable oneByte
                      :: map Tick (scenarioA_samples ++ repeat 5%Q 600%nat))))
      <= 1)%nat.
Proof.
  split; [vm_compute; reflexivity|].
  apply (one_shot_invariant (new scenarioA_options)). reflexivity.
Defined.

(** A threshold whose sum with 5 is no double: the monitor's
    [soundThreshold] is 8.  The recorder has its callback and audio in its
    buffer, and two silent checks complete its silence; yet three silent
    samples before the first sound, and the sample of 8 itself, call nothing,
    and the two silent samples after it bring the one call. *)
Lemma sound_first_invariant_witness :
  option_map soundThreshold
    (volumeCheckInterval (session (new roundingOptions))) = Some 8
  /\ signals (snd (run (session (new roundingOptions))
                     ((DataAvailable oneByte :: map Tick [2; 2; 2])
                      ++ [Tick 8]))) = 0%nat
  /\ signals (snd (run (session (new roundingOptions))
                     (DataAvailable oneByte
                      :: map Tick [2; 2; 2; 7; 2; 2; 2]))) = 0%nat
  /\ signals (snd (run (session (new roundingOptions))
                     ((DataAvailable oneByte :: map Tick [2; 2; 2])
                      ++ Tick 8 :: map Tick [2; 2]))) = 1%nat.
Proof.
  destruct (sound_first_invariant (new roundingOptions)
              (DataAvailable oneByte :: map Tick [2; 2; 2]) (map Tick [2; 2])
              (DataAvailable oneByte :: map Tick [2; 2; 2; 7; 2; 2; 2]) 8)
    as (H0 & H1 & H2); [reflexivity|].
  split; [rewrite H0; vm_compute; reflexivity|].
  split; [| split].
  - apply H1.
    + intros v [<- | [<- | [<- | []]]]; reflexivity.
    + vm_compute. discriminate.
  - apply H2.
    intros v Hin. simpl in Hin.
    repeat (destruct Hin as [<- | Hin]; [vm_compute; reflexivity|]).
    contradiction.
  - vm_compute. reflexivity.
Defined.

(** *** The band between the two thresholds *)

(** The silence counter is never negative. *)
Lemma counter_nonneg evs : forall r,
  (0 <= counter r)%Z -> (0 <= counter (fst (run r evs)))%Z.
Proof.
  induction evs as [|ev evs IH]; intros r Hr; simpl; [exact Hr|].
  assert (H1 : (0 <= counter (fst (step r ev)))%Z).
  { destruct ev as [v | data | |]; simpl.
    - unfold tick, counter in *.
      destruct (volumeCheckInterval r) as [m|] eqn:Hi; simpl; [| now rewrite Hi].
      unfold volumeCheck. branches; simpl; lia.
    - unfold ondataavailable. branches; exact Hr.
    - unfold onstop. branches; exact Hr.
    - destruct (stopRecording_flags r) as (_ & _ & _ & Hi & _).
      unfold state, counter in *.
      destruct (stopRecording r) as [[[u|msg] r'] l]; simpl in *;
        rewrite Hi; lia. }
  destruct (step r ev) as [r1 l1]. specialize (IH r1 H1).
  now destruct (run r1 evs).
Qed.

(** C3, as stated, fails: a recorder that has heard sound and counted three
    silent samples receives a sample of 22, inside [20, 25), and its counter
    goes from 3 to 0. *)
Lemma hysteresis_band_counterexample :
  hasSoundDetected threeSilent = true
  /\ isRecording threeSilent = true
  /\ silenceThreshold threeSilent <= 22
  /\ 22 < silenceThreshold threeSilent + 5
  /\ counter threeSilent = 3%Z
  /\ counter (fst (tick 22 threeSilent)) = 0%Z
  /\ counter (fst (tick 22 threeSilent)) <> counter threeSilent.
Proof. vm_compute. repeat split; discriminate. Qed.

(** C3, amended (hysteresis band).  For a recording detector that has heard
    sound, a sample in [[silenceThreshold, soundThreshold)] never increments
    the consecutive-silence counter: a positive counter is reset to 0, and a
    counter that is 0 stays 0.  The sample changes neither flag and calls
    [onSilenceDetected] not at all. *)
Theorem hysteresis_band_resets (v : Q) (r : t) (m : Monitor) :
  volumeCheckInterval r = Some m ->
  isRecording r = true ->
  hasSoundDetected r = true ->
  silenceThreshold r <= v ->
  v < soundThreshold m ->
  counter (fst (tick v r)) = (if (0 <? counter r)%Z then 0%Z else counter r)
  /\ hasSoundDetected (fst (tick v r)) = true
  /\ silenceTriggered (fst (tick v r)) = silenceTriggered r
  /\ signals (snd (tick v r)) = 0%nat.
Proof.
  intros Hi Hrec Hs Hlo Hhi. unfold tick, counter. rewrite Hi.
  unfold volumeCheck. rewrite Hrec. simpl.
  assert (G : forall q, Js.geb v (soundThreshold
            (if Js.ltb (maxVolumeDetected m) v
             then mkMonitor (consecutiveSilenceChecks m) q
                    (silenceChecksNeeded m) (soundThreshold m)
             else m)) = false).
  { intros q. apply geb_false. now destruct (Js.ltb (maxVolumeDetected m) v). }
  rewrite !G, Hs, (ltb_false _ _ Hlo). simpl.
  destruct (Js.ltb (maxVolumeDetected m) v); simpl;
    destruct (0 <? consecutiveSilenceChecks m)%Z; simpl;
    destruct (onVolumeChange r); repeat split; auto.
Qed.

Lemma hysteresis_band_resets_witness :
  counter (fst (tick 22 threeSilent)) = 0%Z
  /\ signals (snd (tick 22 threeSilent)) = 0%nat.
Proof.
  destruct (hysteresis_band_resets 22 threeSilent
              (mkMonitor 3 30 15 (20 + 5))) as (H1 & _ & _ & H4).
  - reflexivity.
  - reflexivity.
  - reflexivity.
  - vm_compute. discriminate.
  - reflexivity.
  - split; [exact H1 | exact H4].
Defined.

(** *** Scenario A *)

(** C4, as stated, fails: with a chunk buffered and the callback installed,
    the thirteenth sample is only the eighth silent one of the ten needed, and
    the thirteen samples call [onSilenceDetected] zero times, not once. *)
Lemma scenarioA_counterexample :
  nth_error (history (scenarioA_recorder oneByte) (map Tick scenarioA_samples)) 12
  = Some (true, 8%Z, 0%nat)
  /\ signals (snd (run (scenarioA_recorder oneByte) (map Tick scenarioA_samples)))
     = 0%nat
  /\ signals (snd (run (scenarioA_recorder oneByte) (map Tick scenarioA_samples)))
     <> 1%nat.
Proof. vm_compute. repeat split; discriminate. Qed.

(** C4, amended (scenario A).  With [silenceThreshold] 20 (so [soundThreshold]
    25), [silenceDuration] 1000 (so 10 checks are needed), the callback
    installed and a non-empty chunk buffered, the samples
    [5,5,30,30,30,5,5,5,5,5,5,5,5] produce no signal at samples 1-2, set the
    sound flag at sample 3, start the silence count at sample 6 and reach a
    count of 8 at sample 13 without any signal; two further samples of 5 make
    the count 10, and the signal is emitted exactly once, at sample 15. *)
Theorem scenarioA_trace (data : Js.Blob) :
  (0 < Js.size data)%Z ->
  option_map soundThreshold (volumeCheckInterval (scenarioA_recorder data))
  = Some (20 + 5)
  /\ option_map silenceChecksNeeded (volumeCheckInterval (scenarioA_recorder data))
     = Some 10%Z
  /\ history (scenarioA_recorder data) (map Tick (scenarioA_samples ++ [5; 5]))
     = [ (false, 0%Z, 0%nat); (false, 0%Z, 0%nat);
         (true, 0%Z, 0%nat); (true, 0%Z, 0%nat); (true, 0%Z, 0%nat);
         (true, 1%Z, 0%nat); (true, 2%Z, 0%nat); (true, 3%Z, 0%nat);
         (true, 4%Z, 0%nat); (true, 5%Z, 0%nat); (true, 6%Z, 0%nat);
         (true, 7%Z, 0%nat); (true, 8%Z, 0%nat);
         (true, 9%Z, 0%nat); (true, 0%Z, 1%nat) ]
  /\ signals (snd (run (scenarioA_recorder data) (map Tick scenarioA_samples)))
     = 0%nat
  /\ signals (snd (run (scenarioA_recorder data)
                     (map Tick (scenarioA_samples ++ [5; 5])))) = 1%nat.
Proof.
  intros Hdata. apply Z.ltb_lt in Hdata.
  unfold scenarioA_recorder. simpl run. unfold ondataavailable.
  rewrite Hdata. cbn [fst]. vm_compute. repeat split.
Qed.

Lemma scenarioA_trace_witness :
  signals (snd (run (scenarioA_recorder oneByte)
                  (map Tick (scenarioA_samples ++ [5; 5])))) = 1%nat.
Proof.
  destruct (scenarioA_trace oneByte) as (_ & _ & _ & _ & H).
  - reflexivity.
  - exact H.
Defined.

End Detector.

(* ------------------------------------------------------------------------- *)
(** ** The capture session: constructor, buffer and teardown *)

Module Capture.
Import AudioRecorder.

(** [stopRecording()] never throws: [stop()] is only called on a media
    recorder that is not inactive. *)
Lemma stopRecording_returns r : completion (stopRecording r) = Js.Normal tt.
Proof.
  destruct r as [mr ch st to ctx an th du c1 c2 c3 rec iv hs tr].
  destruct mr as [[]|], st, to, ctx, iv; reflexivity.
Qed.

(** After [stopRecording()] nothing is left to release. *)
Lemma stopRecording_released r :
  isRecording (state (stopRecording r)) = false
  /\ volumeCheckInterval (state (stopRecording r)) = None
  /\ silenceTimeout (state (stopRecording r)) = None
  /\ stream (state (stopRecording r)) = None
  /\ audioContext (state (stopRecording r)) = None
  /\ analyser (state (stopRecording r)) = None
  /\ (mediaRecorder (state (stopRecording r)) = None
      \/ mediaRecorder (state (stopRecording r)) = Some inactive).
Proof.
  destruct r as [mr ch st to ctx an th du c1 c2 c3 rec iv hs tr].
  destruct mr as [[]|], st, to, ctx, iv; repeat split; auto.
Qed.

(** A recorder with nothing left to release is left alone by
    [stopRecording()]. *)
Lemma stopRecording_stopped r :
  isRecording r = false ->
  volumeCheckInterval r = None ->
  silenceTimeout r = None ->
  stream r = None ->
  audioContext r = None ->
  analyser r = None ->
  mediaRecorder r = None \/ mediaRecorder r = Some inactive ->
  stopRecording r = (Js.Normal tt, r, []).
Proof.
  destruct r as [mr ch st to ctx an th du c1 c2 c3 rec iv hs tr]. simpl.
  intros -> -> -> -> -> -> [-> | ->]; reflexivity.
Qed.

Lemma stopRecording_again r :
  stopRecording (state (stopRecording r))
  = (Js.Normal tt, state (stopRecording r), []).
Proof.
  destruct (stopRecording_released r) as (H1 & H2 & H3 & H4 & H5 & H6 & H7).
  now apply stopRecording_stopped.
Qed.

(** [getCurrentAudioBlob()] as a function of the buffer. *)
Lemma getCurrentAudioBlob_eq r :
  getCurrentAudioBlob r
  = (Js.Normal (match audioChunks r with
                | [] => None
                | _ :: _ => Some (Js.newBlob (audioChunks r) "audio/webm")
                end), r, []).
Proof.
  unfold getCurrentAudioBlob, bind, gets, ret.
  destruct (audioChunks r) as [|b l] eqn:E; simpl; [reflexivity|].
  replace (Z.pos (Pos.of_succ_nat (length l)) =? 0)%Z with false
    by (symmetry; apply Z.eqb_neq; lia).
  reflexivity.
Qed.

(** [getCurrentAudioBlob()] changes nothing and calls nothing, whatever the
    recorder. *)
Lemma getCurrentAudioBlob_pure r :
  state (getCurrentAudioBlob r) = r /\ effects (getCurrentAudioBlob r) = [].
Proof. rewrite getCurrentAudioBlob_eq. now split. Qed.

Lemma stopRecording_buffer r :
  audioChunks (state (stopRecording r)) = audioChunks r
  /\ Js.isSet (mediaRecorder (state (stopRecording r))) = Js.isSet (mediaRecorder r).
Proof.
  destruct r as [mr ch st to ctx an th du c1 c2 c3 rec iv hs tr].
  destruct mr as [[]|], st, to, ctx, iv; split; reflexivity.
Qed.

Lemma run_buffer evs : forall r,
  Js.isSet (mediaRecorder r) = true ->
  forallb (fun ev => negb (isRecorderStopped ev)) evs = true ->
  audioChunks (fst (run r evs)) = audioChunks r ++ delivered evs.
Proof.
  induction evs as [|ev evs IH]; intros r Hmr Hev; simpl.
  - now rewrite app_nil_r.
  - simpl in Hev. apply andb_true_iff in Hev as [Hev1 Hev2].
    assert (H1 : audioChunks (fst (step r ev))
                 = audioChunks r
                   ++ delivered [ev]
                 /\ Js.isSet (mediaRecorder (fst (step r ev))) = true).
    { destruct ev as [v | d | |]; simpl in *; try discriminate.
      - unfold tick. destruct (volumeCheckInterval r) as [m|]; simpl;
          [| now rewrite app_nil_r].
        unfold volumeCheck. rewrite app_nil_r.
        Detector.branches; simpl; auto.
      - rewrite Hmr. unfold ondataavailable.
        destruct (0 <? Js.size d)%Z; simpl; rewrite ?app_nil_r; auto.
      - destruct (stopRecording_buffer r) as [Hb Hm].
        unfold state in *. rewrite app_nil_r.
        destruct (stopRecording r) as [[[u|msg] r'] l]; simpl in *;
          split; congruence. }
    destruct H1 as [H1 H2]. destruct (step r ev) as [r1 l1]. simpl in *.
    specialize (IH r1 H2 Hev2). destruct (run r1 evs) as [r2 l2]. simpl in *.
    rewrite IH, H1. unfold delivered. simpl. rewrite !app_nil_r.
    now rewrite app_assoc.
Qed.

(** So while a session's media recorder has not reported its stop,
    [getCurrentAudioBlob()] returns the bytes delivered so far, and [null]
    when there are none. *)
Lemma session_current_audio r0 evs :
  forallb (fun ev => negb (isRecorderStopped ev)) evs = true ->
  completion (getCurrentAudioBlob (fst (run (session r0) evs)))
  = Js.Normal (match delivered evs with
               | [] => None
               | _ :: _ => Some (Js.newBlob (delivered evs) "audio/webm")
               end).
Proof.
  intros Hev.
  rewrite getCurrentAudioBlob_eq, (run_buffer evs (session r0) eq_refl Hev).
  reflexivity.
Qed.

(** *** The buffer of a session *)

Lemma afterLastStop_none evs :
  existsb isRecorderStopped evs = false -> afterLastStop evs = evs.
Proof.
  destruct evs as [|ev evs]; [reflexivity|]. simpl. now intros ->.
Qed.

Lemma step_buffer r ev :
  Js.isSet (mediaRecorder r) = true ->
  Js.isSet (mediaRecorder (fst (step r ev))) = true
  /\ audioChunks (fst (step r ev))
     = if isRecorderStopped ev then [] else audioChunks r ++ delivered [ev].
Proof.
  intros Hmr. destruct ev as [v | d | |]; simpl.
  - unfold tick. destruct (volumeCheckInterval r) as [m|]; simpl;
      [| now rewrite app_nil_r].
    unfold volumeCheck. rewrite app_nil_r.
    Detector.branches; simpl; auto.
  - rewrite Hmr. unfold ondataavailable.
    destruct (0 <? Js.size d)%Z; simpl; rewrite ?app_nil_r; auto.
  - rewrite Hmr. simpl. auto.
  - destruct (stopRecording_buffer r) as [Hb Hm].
    unfold state in *. rewrite app_nil_r.
    destruct (stopRecording r) as [[[u|msg] r'] l]; simpl in *;
      split; congruence.
Qed.

(** The buffer after a run: emptied by the last stop report, and filled by
    the data that came after it. *)
Lemma run_buffered evs : forall r,
  Js.isSet (mediaRecorder r) = true ->
  audioChunks (fst (run r evs))
  = if existsb isRecorderStopped evs
    then buffered evs
    else audioChunks r ++ delivered evs.
Proof.
  unfold buffered.
  induction evs as [|ev evs IH]; intros r Hmr.
  - simpl. now rewrite app_nil_r.
  - destruct (step_buffer r ev Hmr) as [H1 H2].
    cbn [run existsb afterLastStop].
    destruct (step r ev) as [r1 l1]. simpl in H1, H2.
    specialize (IH r1 H1). destruct (run r1 evs) as [r2 l2]. simpl in IH.
    cbn [fst]. rewrite IH.
    destruct (existsb isRecorderStopped evs) eqn:E.
    + now rewrite orb_true_r.
    + rewrite orb_false_r, H2.
      destruct (isRecorderStopped ev).
      * now rewrite (afterLastStop_none evs E).
      * unfold delivered. simpl. rewrite !app_nil_r. now rewrite app_assoc.
Qed.

Lemma session_buffered r0 evs :
  audioChunks (fst (run (session r0) evs)) = buffered evs.
Proof.
  rewrite (run_buffered evs (session r0) eq_refl). unfold buffered.
  destruct (existsb isRecorderStopped evs) eqn:E; [reflexivity|].
  now rewrite (afterLastStop_none evs E).
Qed.

(** C9, as stated, fails: in a session whose media recorder has delivered a
    chunk and then reported a stop (its tracks ended, say), a chunk has been
    collected and the recorder still counts as recording, yet
    [getCurrentAudioBlob()] returns [null]: [onstop] has emptied the
    buffer. *)
Lemma getCurrentAudioBlob_counterexample :
  delivered [DataAvailable oneByte; RecorderStopped] = [oneByte]
  /\ isCurrentlyRecording
       (fst (run (session (new noOptions))
                 [DataAvailable oneByte; RecorderStopped])) = true
  /\ completion (getCurrentAudioBlob
                   (fst (run (session (new noOptions))
                             [DataAvailable oneByte; RecorderStopped])))
     = Js.Normal None
  /\ completion (getCurrentAudioBlob
                   (fst (run (session (new noOptions))
                             [DataAvailable oneByte])))
     = Js.Normal (Some (Js.mkBlob [Byte.x1a] "audio/webm")).
Proof. vm_compute. repeat split. Qed.

(** C9, amended (current audio).  In a session the chunk buffer holds the
    data with bytes delivered since [startRecording()] or, once the media
    recorder has reported a stop, since its last report.
    [getCurrentAudioBlob()] returns [null] exactly when that buffer is empty,
    and otherwise an [audio/webm] blob whose bytes are the buffered chunks'
    bytes in order, so an empty buffer never yields a blob; the call changes
    nothing, neither the buffer nor the recording state, and calls nothing. *)
Theorem getCurrentAudioBlob_spec (r0 : t) (evs : list Event) :
  audioChunks (fst (run (session r0) evs)) = buffered evs
  /\ state (getCurrentAudioBlob (fst (run (session r0) evs)))
     = fst (run (session r0) evs)
  /\ effects (getCurrentAudioBlob (fst (run (session r0) evs))) = []
  /\ (completion (getCurrentAudioBlob (fst (run (session r0) evs)))
      = Js.Normal None <-> buffered evs = [])
  /\ completion (getCurrentAudioBlob (fst (run (session r0) evs)))
     = Js.Normal
         (match buffered evs with
          | [] => None
          | _ :: _ =>
              Some (Js.mkBlob (concat (map Js.blobData (buffered evs)))
                              "audio/webm")
          end).
Proof.
  pose proof (session_buffered r0 evs) as Hb.
  destruct (getCurrentAudioBlob_pure (fst (run (session r0) evs))) as [Hs He].
  split; [exact Hb | split; [exact Hs | split; [exact He|]]].
  rewrite getCurrentAudioBlob_eq, Hb. unfold completion. simpl.
  split; [split|].
  - destruct (buffered evs); [reflexivity | discriminate].
  - now intros ->.
  - now destruct (buffered evs).
Qed.

(** C10 (constructor defaults).  A falsy [silenceThreshold] ([undefined], [0]
    or [NaN]) gives 20 and a falsy [silenceDuration] gives 1500; so whatever
    the options, neither field of the new recorder is zero. *)
Theorem constructor_defaults (options : Options) :
  (Js.falsy (optSilenceThreshold options) = true ->
   silenceThreshold (new options) = 20)
  /\ (Js.falsy (optSilenceDuration options) = true ->
      silenceDuration (new options) = 1500)
  /\ ~ silenceThreshold (new options) == 0
  /\ ~ silenceDuration (new options) == 0.
Proof.
  unfold new, Js.falsy, Js.orElse, Js.toBoolean. simpl.
  destruct (optSilenceThreshold options) as [[|q]|],
           (optSilenceDuration options) as [[|d]|]; simpl;
    repeat split; auto; try discriminate;
    try (destruct (Qeq_bool q 0) eqn:E; simpl;
         [ reflexivity || discriminate
         | try discriminate; apply Qeq_bool_neq; exact E ]);
    try (destruct (Qeq_bool d 0) eqn:E; simpl;
         [ reflexivity || discriminate
         | try discriminate; apply Qeq_bool_neq; exact E ]).
Qed.

Lemma constructor_defaults_witness :
  silenceThreshold (new (mkOptions (Some (Js.Num 0)) (Some (Js.Num 0))
                                   true false false)) = 20
  /\ silenceDuration (new (mkOptions (Some (Js.Num 0)) (Some (Js.Num 0))
                                     true false false)) = 1500.
Proof.
  destruct (constructor_defaults
              (mkOptions (Some (Js.Num 0)) (Some (Js.Num 0)) true false false))
    as (H1 & H2 & _).
  split; [apply H1 | apply H2]; reflexivity.
Defined.

End Capture.

(* ------------------------------------------------------------------------- *)
(** ** The stop command: the regular expression finds every whole stop word *)

Module StopCommand.
Import Text.

Ltac each_char c :=
  destruct c as [[] [] [] [] [] [] [] []]; try reflexivity; try discriminate.

Lemma isWordChar_toLowerChar c : isWordChar (toLowerChar c) = isWordChar c.
Proof. each_char c. Qed.

Lemma word_not_space c : isWordChar c = true -> isWhiteSpace c = false.
Proof. each_char c. Qed.

Lemma lastChar_cons c s before :
  lastOr (c :: s) before = lastOr s (Some c).
Proof.
  unfold lastOr, lastChar. simpl.
  destruct (rev s) as [|x l] eqn:E; reflexivity.
Qed.

Lemma lastOr_nonempty s before :
  s <> [] -> lastOr s before = lastChar s.
Proof.
  unfold lastOr, lastChar. intros Hs.
  destruct (rev s) as [|x l] eqn:E; [| reflexivity].
  apply (f_equal (@rev ascii)) in E. rewrite rev_involutive in E. contradiction.
Qed.

Lemma lastOr_None s : lastOr s None = lastChar s.
Proof. unfold lastOr. now destruct (lastChar s). Qed.

Lemma startsWith_app w s : startsWith w (w ++ s) = true.
Proof.
  induction w as [|a w IH]; simpl; [reflexivity|].
  now rewrite Ascii.eqb_refl, IH.
Qed.

Lemma skipn_length_app (w s : Str) : skipn (length w) (w ++ s) = s.
Proof. induction w; simpl; auto. Qed.

Lemma firstChar_app w s : w <> [] -> firstChar (w ++ s) = firstChar w.
Proof. destruct w; [contradiction | reflexivity]. Qed.

Lemma isWord_nonempty_first w : isWord (firstChar w) = true -> w <> [].
Proof. destruct w; [discriminate | discriminate]. Qed.

(** An alternative that begins and ends with a word character is found
    wherever it stands with no word character next to it. *)
Lemma search_finds alternatives w post :
  In w alternatives ->
  isWord (firstChar w) = true ->
  isWord (lastChar w) = true ->
  isWord (firstChar post) = false ->
  forall pre before,
    isWord (lastOr pre before) = false ->
    search alternatives before (pre ++ w ++ post) = true.
Proof.
  intros Hin Hfirst Hlast Hpost.
  pose proof (isWord_nonempty_first w Hfirst) as Hw.
  induction pre as [|c pre IH]; intros before Hpre.
  - simpl app. simpl in Hpre.
    assert (Hhere : matchHere alternatives before (w ++ post) = true).
    { unfold matchHere, wordBoundary.
      rewrite (firstChar_app w post Hw), Hfirst.
      change (lastOr [] before) with before in Hpre. rewrite Hpre. simpl.
      apply existsb_exists. exists w. split; [exact Hin|].
      rewrite startsWith_app, skipn_length_app, (lastOr_nonempty w before Hw).
      now rewrite Hlast, Hpost. }
    destruct (w ++ post); simpl; now rewrite Hhere.
  - simpl. rewrite (IH (Some c)); [apply orb_true_r|].
    now rewrite <- lastChar_cons with (before := before).
Qed.

(** [dropWhile] stops at the first character that fails the test. *)
Lemma dropWhile_app p pre x rest :
  p x = false ->
  dropWhile p (pre ++ x :: rest) = dropWhile p pre ++ x :: rest.
Proof.
  intros Hx. induction pre as [|c pre IH]; simpl.
  - now rewrite Hx.
  - destruct (p c); [exact IH | reflexivity].
Qed.

Lemma dropWhile_suffix p s : exists dropped, s = dropped ++ dropWhile p s.
Proof.
  induction s as [|c s [d IH]]; simpl.
  - now exists [].
  - destruct (p c).
    + exists (c :: d). simpl. now f_equal.
    + now exists [].
Qed.

Lemma lastChar_app_nonempty a b : b <> [] -> lastChar (a ++ b) = lastChar b.
Proof.
  unfold lastChar. intros Hb. rewrite rev_app_distr.
  destruct (rev b) as [|x l] eqn:E; [| reflexivity].
  apply (f_equal (@rev ascii)) in E. rewrite rev_involutive in E. contradiction.
Qed.

Lemma isWord_lastChar_dropWhile p s :
  isWord (lastChar s) = false -> isWord (lastChar (dropWhile p s)) = false.
Proof.
  intros H. destruct (dropWhile_suffix p s) as [d E].
  destruct (dropWhile p s) as [|x l] eqn:E'; [reflexivity|].
  rewrite E in H. rewrite lastChar_app_nonempty in H by discriminate. exact H.
Qed.

Lemma isWord_firstChar_trimEnd s :
  isWord (firstChar s) = false -> isWord (firstChar (trimEnd s)) = false.
Proof.
  intros H. unfold trimEnd.
  pose proof (isWord_lastChar_dropWhile isWhiteSpace (rev s)) as G.
  unfold lastChar in G. rewrite rev_involutive in G. exact (G H).
Qed.

(** [trim] keeps a word that stands in the text, and what stands next to
    it. *)
Lemma trim_keeps pre w post :
  isWord (firstChar w) = true ->
  isWord (lastChar w) = true ->
  isWord (lastChar pre) = false ->
  isWord (firstChar post) = false ->
  exists pre' post',
    trim (pre ++ w ++ post) = pre' ++ w ++ post'
    /\ isWord (lastChar pre') = false
    /\ isWord (firstChar post') = false.
Proof.
  intros Hfirst Hlast Hpre Hpost.
  exists (dropWhile isWhiteSpace pre), (trimEnd post).
  split; [| split].
  - unfold trim, trimStart.
    destruct w as [|x w']; [discriminate|].
    simpl in Hfirst. apply word_not_space in Hfirst.
    simpl app. rewrite (dropWhile_app _ pre x (w' ++ post) Hfirst).
    unfold trimEnd.
    unfold lastChar in Hlast.
    destruct (rev (x :: w')) as [|y l] eqn:E; [discriminate|].
    simpl in Hlast. apply word_not_space in Hlast.
    change (dropWhile isWhiteSpace pre ++ x :: w' ++ post)
      with (dropWhile isWhiteSpace pre ++ (x :: w') ++ post).
    rewrite !rev_app_distr, E. rewrite <- app_assoc. simpl app.
    rewrite (dropWhile_app _ (rev post) y _ Hlast).
    rewrite rev_app_distr.
    change (y :: l ++ rev (dropWhile isWhiteSpace pre))
      with ((y :: l) ++ rev (dropWhile isWhiteSpace pre)).
    rewrite rev_app_distr, rev_involutive, <- E, rev_involutive.
    now rewrite <- app_assoc.
  - now apply isWord_lastChar_dropWhile.
  - now apply isWord_firstChar_trimEnd.
Qed.

Lemma isWord_firstChar_lower s :
  isWord (firstChar (toLowerCase s)) = isWord (firstChar s).
Proof. destruct s; simpl; [reflexivity | apply isWordChar_toLowerChar]. Qed.

Lemma isWord_lastChar_lower s :
  isWord (lastChar (toLowerCase s)) = isWord (lastChar s).
Proof.
  unfold lastChar, toLowerCase. rewrite <- map_rev.
  destruct (rev s); simpl; [reflexivity | apply isWordChar_toLowerChar].
Qed.

Lemma stopWords_are_words word :
  In word stopWords ->
  isWord (firstChar word) = true /\ isWord (lastChar word) = true.
Proof.
  intros [<- | [<- | [<- | [<- | [<- | []]]]]]; split; reflexivity.
Qed.

(** Refinement, specification to code: whenever a text contains a stop word
    as a whole word, whatever its case and the space around the text, the
    test of [handleSilenceDetected] succeeds. *)
Lemma stop_word_is_matched text :
  containsStopWord text ->
  matchesStopCommand (toLowerCase (trim text)) = true.
Proof.
  intros (word & Hin & pre & w & post & -> & Hlow & Hpre & Hpost).
  destruct (stopWords_are_words word Hin) as [Hf Hl].
  assert (Hfw : isWord (firstChar w) = true)
    by (rewrite <- isWord_firstChar_lower, Hlow; exact Hf).
  assert (Hlw : isWord (lastChar w) = true)
    by (rewrite <- isWord_lastChar_lower, Hlow; exact Hl).
  destruct (trim_keeps pre w post Hfw Hlw Hpre Hpost)
    as (pre' & post' & -> & Hpre' & Hpost').
  unfold matchesStopCommand, toLowerCase. rewrite !map_app.
  fold (toLowerCase pre') (toLowerCase w) (toLowerCase post'). rewrite Hlow.
  apply search_finds; auto.
  - now rewrite isWord_firstChar_lower.
  - now rewrite lastOr_None, isWord_lastChar_lower.
Qed.

(** *** And it finds nothing else *)

Lemma space_not_word c : isWhiteSpace c = true -> isWordChar c = false.
Proof. each_char c. Qed.

Lemma startsWith_split w : forall s,
  startsWith w s = true -> s = w ++ skipn (length w) s.
Proof.
  induction w as [|a w IH]; intros [|b s]; simpl; try discriminate; auto.
  intros H. apply andb_true_iff in H as [H1 H2].
  apply Ascii.eqb_eq in H1 as ->. f_equal. now apply IH.
Qed.

(** A successful search exhibits the alternative it matched and the two
    boundaries around it. *)
Lemma search_found alternatives : forall s before,
  search alternatives before s = true ->
  exists pre w post,
    s = pre ++ w ++ post
    /\ In w alternatives
    /\ wordBoundary (lastOr pre before) (firstChar (w ++ post)) = true
    /\ wordBoundary (lastOr w (lastOr pre before)) (firstChar post) = true.
Proof.
  assert (Here : forall s before, matchHere alternatives before s = true ->
    exists w post, s = w ++ post /\ In w alternatives
      /\ wordBoundary before (firstChar (w ++ post)) = true
      /\ wordBoundary (lastOr w before) (firstChar post) = true).
  { intros s before H. unfold matchHere in H.
    apply andb_true_iff in H as [Hb H].
    apply existsb_exists in H as (w & Hin & H).
    apply andb_true_iff in H as [Hw He].
    exists w, (skipn (length w) s).
    rewrite <- (startsWith_split w s Hw). auto. }
  induction s as [|c s IH]; intros before H; simpl in H.
  - rewrite orb_false_r in H. destruct (Here _ _ H) as (w & post & E & Hin & H1 & H2).
    exists [], w, post. auto.
  - apply orb_true_iff in H as [H | H].
    + destruct (Here _ _ H) as (w & post & E & Hin & H1 & H2).
      exists [], w, post. auto.
    + destruct (IH _ H) as (pre & w & post & -> & Hin & H1 & H2).
      exists (c :: pre), w, post. rewrite !lastChar_cons. auto.
Qed.

Lemma dropWhile_split p s :
  exists dropped, s = dropped ++ dropWhile p s /\ forallb p dropped = true.
Proof.
  induction s as [|c s (d & IH & Hd)]; simpl.
  - now exists [].
  - destruct (p c) eqn:E.
    + exists (c :: d). simpl. rewrite E, Hd. split; [now f_equal | reflexivity].
    + now exists [].
Qed.

(** [trim] removes white space, and nothing else, from both ends. *)
Lemma trim_split text :
  exists left right,
    text = left ++ trim text ++ right
    /\ forallb isWhiteSpace left = true
    /\ forallb isWhiteSpace right = true.
Proof.
  destruct (dropWhile_split isWhiteSpace text) as (l & El & Hl).
  destruct (dropWhile_split isWhiteSpace (rev (trimStart text))) as (d & Ed & Hd).
  exists l, (rev d). split; [| split; [exact Hl|]].
  - unfold trim, trimEnd. rewrite <- rev_app_distr, <- Ed, rev_involutive.
    exact El.
  - apply forallb_forall. intros x Hx. apply in_rev in Hx.
    rewrite forallb_forall in Hd. now apply Hd.
Qed.

Lemma spaces_have_no_word_end ws :
  forallb isWhiteSpace ws = true ->
  isWord (lastChar ws) = false /\ isWord (firstChar ws) = false.
Proof.
  intros H. rewrite forallb_forall in H. split.
  - unfold lastChar. destruct (rev ws) as [|c l] eqn:E; [reflexivity|].
    simpl. apply space_not_word, H, in_rev. rewrite E. now left.
  - destruct ws as [|c l]; [reflexivity|].
    simpl. apply space_not_word, H. now left.
Qed.

Lemma isWord_lastChar_app ws pre :
  forallb isWhiteSpace ws = true ->
  isWord (lastChar pre) = false -> isWord (lastChar (ws ++ pre)) = false.
Proof.
  intros Hws Hpre. destruct pre as [|c pre].
  - rewrite app_nil_r. exact (proj1 (spaces_have_no_word_end ws Hws)).
  - now rewrite lastChar_app_nonempty.
Qed.

Lemma isWord_firstChar_app post ws :
  forallb isWhiteSpace ws = true ->
  isWord (firstChar post) = false -> isWord (firstChar (post ++ ws)) = false.
Proof.
  intros Hws Hpost. destruct post as [|c post]; [| exact Hpost].
  exact (proj2 (spaces_have_no_word_end ws Hws)).
Qed.

(** Refinement, code to specification: when the test of
    [handleSilenceDetected] succeeds, the text contains a stop word as a
    whole word. *)
Lemma matched_is_stop_word text :
  matchesStopCommand (toLowerCase (trim text)) = true ->
  containsStopWord text.
Proof.
  intros H. apply search_found in H as (pre & w & post & E & Hin & H1 & H2).
  destruct (stopWords_are_words w Hin) as [Hf Hl].
  pose proof (isWord_nonempty_first w Hf) as Hw.
  rewrite (firstChar_app w post Hw), lastOr_None in H1.
  rewrite (lastOr_nonempty w _ Hw) in H2.
  unfold wordBoundary in H1, H2. rewrite Hf in H1. rewrite Hl in H2.
  apply map_eq_app in E as (pre0 & rest & Et & Epre & Erest).
  apply map_eq_app in Erest as (w0 & post0 & -> & Ew & Epost).
  destruct (trim_split text) as (left & right & E & Hleft & Hright).
  exists w. split; [exact Hin|].
  exists (left ++ pre0), w0, (post0 ++ right). split; [| split; [exact Ew|split]].
  - rewrite E, Et. now rewrite <- !app_assoc.
  - apply isWord_lastChar_app; [exact Hleft|].
    rewrite <- isWord_lastChar_lower. fold (toLowerCase pre0) in Epre.
    rewrite Epre. now destruct (isWord (lastChar pre)).
  - apply isWord_firstChar_app; [exact Hright|].
    rewrite <- isWord_firstChar_lower. fold (toLowerCase post0) in Epost.
    rewrite Epost. now destruct (isWord (firstChar post)).
Qed.

(** The test of the code and the words of the specification agree. *)
Lemma stop_command_iff text :
  matchesStopCommand (toLowerCase (trim text)) = true <-> containsStopWord text.
Proof. split; [apply matched_is_stop_word | apply stop_word_is_matched]. Qed.

(** The transcription result of the specification's scenario D. *)
Example please_stop_now : containsStopWord (str "please stop now").
Proof.
  exists (str "stop"). split; [now left|].
  exists (str "please "), (str "stop"), (str " now"). repeat split.
Qed.

Example uppercase_goodbye :
  matchesStopCommand (toLowerCase (trim (str "  Okay, GOODBYE! "))) = true.
Proof. reflexivity. Qed.

Example stopping_is_no_stop_word :
  matchesStopCommand (toLowerCase (trim (str "keep stopping by"))) = false.
Proof. reflexivity. Qed.

End StopCommand.

(* ------------------------------------------------------------------------- *)
(** ** The orchestrator: guard, undersized capture, stop phrase, teardown *)

Module Orchestrator.
Import Text VoiceChat.

(** Unfolding of a method body on a state. *)
Ltac step_eff :=
  cbv [bind ret gets modify emit throw when tryCatch
       clearListeningTimeout appendMessage onSpeechError onTextError].

Lemma set_same_recorder s r :
  audioRecorderRef s = Some r -> setAudioRecorderRef (Some r) s = s.
Proof. destruct s; simpl; now intros ->. Qed.

(** *** [handleStop] *)

Local Opaque AudioRecorder.stopRecording.

Lemma handleStop_spec s :
  handleStop s = (Js.Normal tt, stopped s, stopEffects s).
Proof.
  destruct s as [vs act conv tr ti rec tts busy timeout heard].
  destruct rec as [r|], tts as [u|], timeout as [id|];
    unfold handleStop, stopped, stopEffects; step_eff;
    unfold onRecorder, onTts, TextToSpeech.cancel; step_eff; simpl;
    try (pose proof (Capture.stopRecording_returns r) as Hr;
         unfold completion, state, effects in *;
         destruct (AudioRecorder.stopRecording r) as [[cmp r'] l];
         simpl in Hr; subst cmp);
    simpl; rewrite ?app_nil_r; reflexivity.
Qed.

(** *** [handleSilenceDetected] *)

Local Opaque AudioRecorder.getCurrentAudioBlob.

Lemma handleSilenceDetected_spec c s :
  handleSilenceDetected c s
  = if isProcessingRef s then (Js.Normal None, s, [])
    else match currentAudio s with
         | Some blob =>
             if (Js.size blob <? minimumAudioSize)%Z
             then (Js.Normal None, s, [])
             else (Js.Normal (Some (AwaitStt c)), started s, startEffects s blob)
         | None => (Js.Normal None, s, [])
         end.
Proof.
  destruct s as [vs act conv tr ti rec tts busy timeout heard].
  unfold handleSilenceDetected, currentAudio, started, startEffects. step_eff.
  unfold onRecorder. cbn.
  destruct busy; [reflexivity|].
  destruct rec as [r|]; [| reflexivity]. cbn.
  rewrite (Capture.getCurrentAudioBlob_eq r). unfold completion. cbn.
  destruct (AudioRecorder.audioChunks r) as [|b chunks]; [reflexivity|].
  destruct (Js.size _ <? minimumAudioSize)%Z; [reflexivity|].
  pose proof (Capture.stopRecording_returns r) as Hr.
  unfold completion, state, effects in *.
  destruct timeout as [id|]; cbn;
    destruct (AudioRecorder.stopRecording r) as [[cmp r'] l];
    cbn in Hr; subst cmp; cbn; rewrite ?app_nil_r; reflexivity.
Qed.

Lemma listeningTimedOut_spec c s :
  listeningTimedOut c s
  = match rVoiceState c with
    | listening => handleSilenceDetected c s
    | _ => (Js.Normal None, s, [])
    end.
Proof.
  unfold listeningTimedOut. step_eff.
  destruct (rVoiceState c); try reflexivity.
  destruct (isProcessingRef s) eqn:E; simpl.
  - now rewrite handleSilenceDetected_spec, E.
  - now destruct (handleSilenceDetected c s) as [[cmp s'] l].
Qed.

Lemma handleTextSubmit_spec c now s :
  handleTextSubmit c now s
  = if isEmpty (trim (rTextInput c)) || isProcessingRef s
    then (Js.Normal None, s, [PreventDefault])
    else (Js.Normal (Some (AwaitLlmText c)), submitted c now s,
          PreventDefault
          :: (if rOnConversationUpdate c
              then [OnConversationUpdate
                      (conversation s
                       ++ [mkMessage user (trim (rTextInput c)) now])]
              else [])
          ++ [FetchLlm (trim (rTextInput c)) (rSessionId c) (rConversation c)]).
Proof.
  destruct s as [vs act conv tr ti rec tts busy timeout heard].
  unfold handleTextSubmit, submitted. step_eff. simpl.
  destruct (isEmpty (trim (rTextInput c)) || busy); [reflexivity|].
  destruct (rOnConversationUpdate c); reflexivity.
Qed.

(** *** The replies *)

Local Opaque handleStop.

Lemma sttReplied_stop c now a text s :
  matchesStopCommand (toLowerCase (trim (a :: text))) = true ->
  sttReplied c now (SttJson true (Some (a :: text))) s
  = (Js.Normal None,
     stopped (transcribed (trim (a :: text)) s),
     stopEffects (transcribed (trim (a :: text)) s)).
Proof.
  intros H. unfold sttReplied. cbv zeta. rewrite H. step_eff.
  rewrite handleStop_spec. now rewrite app_nil_r.
Qed.

(** A reply of the transcription leaves the guard as it is whenever it
    leaves the handler suspended again; the handler never throws. *)
Lemma sttReplied_guard c now reply s :
  match completion (sttReplied c now reply s) with
  | Js.Normal (Some _) =>
      isProcessingRef (state (sttReplied c now reply s)) = isProcessingRef s
  | Js.Normal None => True
  | Js.Throw _ => False
  end.
Proof.
  destruct reply as [|[] [[|a text]|]];
    try (unfold sttReplied; step_eff; unfold completion;
         destruct (rIsActive c); cbn; exact I).
  destruct (matchesStopCommand (toLowerCase (trim (a :: text)))) eqn:E.
  - unfold Str in *. rewrite (sttReplied_stop c now a text s E). exact I.
  - unfold sttReplied. cbv zeta. rewrite E. step_eff. unfold completion, state.
    destruct (rOnConversationUpdate c); cbn; destruct s; reflexivity.
Qed.

Lemma llmReplied_done c now reply s :
  completion (llmReplied c now reply s) = Js.Normal None.
Proof.
  destruct reply as [|[] [[|a text]|]];
    unfold llmReplied; step_eff; unfold completion, onTts;
    try (destruct (rIsActive c); reflexivity).
  destruct (rOnConversationUpdate c), (rTtsEnabled c && negb (rIsMuted c));
    cbn; try reflexivity;
    destruct (ttsRef s) as [u|]; cbn; try reflexivity;
    destruct (TextToSpeech.speak (a :: text) u) as [[[v|msg] u'] l];
    cbn; try reflexivity; destruct (rIsActive c); reflexivity.
Qed.

Lemma textLlmReplied_done c now reply s :
  completion (textLlmReplied c now reply s) = Js.Normal None.
Proof.
  destruct reply as [|[] [[|a text]|]];
    unfold textLlmReplied; step_eff; unfold completion, onTts;
    try reflexivity.
  destruct (rOnConversationUpdate c), (rTtsEnabled c && negb (rIsMuted c));
    cbn; try reflexivity;
    destruct (ttsRef s) as [u|]; cbn; try reflexivity;
    destruct (TextToSpeech.speak (a :: text) u) as [[[v|msg] u'] l];
    cbn; reflexivity.
Qed.

(** *** The guard over the event loop *)

Lemma settle_guarded others r :
  others = [] ->
  match completion r with
  | Js.Normal (Some _) => isProcessingRef (state r) = true
  | _ => True
  end ->
  guarded (fst (settle others r)).
Proof.
  intros -> H. unfold settle, guarded. cbn.
  destruct (completion r) as [[p|]|msg]; cbn; split; auto; try lia;
    intros; congruence.
Qed.

Lemma trigger_guarded s r others :
  (isProcessingRef s = true -> r = (Js.Normal None, s, [])
                               \/ exists l, r = (Js.Normal None, s, l)) ->
  match completion r with
  | Js.Normal (Some _) => isProcessingRef (state r) = true
  | _ => True
  end ->
  guarded (mkSystem s others) ->
  guarded (fst (settle others r)).
Proof.
  intros Hbusy Hset [Hlen Hflag]. cbn in *.
  destruct others as [|p others].
  - now apply settle_guarded.
  - rewrite Hflag in Hbusy by discriminate.
    assert (E : exists l, r = (Js.Normal None, s, l)).
    { destruct (Hbusy eq_refl) as [-> | E]; [now exists [] | exact E]. }
    destruct E as [l ->]. unfold settle, guarded. cbn.
    split; [exact Hlen | intros _; apply Hflag; discriminate].
Qed.

Lemma handleSilenceDetected_sets c s :
  match completion (handleSilenceDetected c s) with
  | Js.Normal (Some _) => isProcessingRef (state (handleSilenceDetected c s)) = true
  | _ => True
  end.
Proof.
  rewrite handleSilenceDetected_spec.
  destruct (isProcessingRef s); [exact I|].
  destruct (currentAudio s) as [blob|]; [| exact I].
  destruct (Js.size blob <? minimumAudioSize)%Z; [exact I | reflexivity].
Qed.

Lemma dispatch_guarded sys ev : guarded sys -> guarded (fst (dispatch sys ev)).
Proof.
  intros G. destruct sys as [s others].
  destruct ev as [c | c | c now | n reply now | n reply now]; cbn [dispatch app inflight].
  - apply trigger_guarded with (s := s); auto.
    + intros E. left. now rewrite handleSilenceDetected_spec, E.
    + apply handleSilenceDetected_sets.
  - apply trigger_guarded with (s := s); auto.
    + intros E. left. rewrite listeningTimedOut_spec.
      destruct (rVoiceState c); auto. now rewrite handleSilenceDetected_spec, E.
    + rewrite listeningTimedOut_spec.
      destruct (rVoiceState c); try exact I. apply handleSilenceDetected_sets.
  - apply trigger_guarded with (s := s); auto.
    + intros E. right. exists [PreventDefault].
      rewrite handleTextSubmit_spec, E. now rewrite orb_true_r.
    + rewrite handleTextSubmit_spec.
      destruct (isEmpty (trim (rTextInput c)) || isProcessingRef s);
        [exact I | reflexivity].
  - destruct G as [Hlen Hflag]. cbn [app inflight] in *.
    destruct others as [|p [|q others]]; cbn in Hlen; try lia.
    + destruct n; cbn [nth_error fst]; now split.
    + destruct n as [|[|n]]; cbn [nth_error fst]; try now split.
      destruct p as [c' | c' | c']; cbn [fst]; try now split.
      change (without 0 [AwaitStt c']) with (@nil Pending).
      apply settle_guarded; [reflexivity|].
      pose proof (sttReplied_guard c' now reply s) as H.
      destruct (completion (sttReplied c' now reply s)) as [[p|]|msg]; auto.
      rewrite H. apply Hflag. discriminate.
  - destruct G as [Hlen Hflag]. cbn [app inflight] in *.
    destruct others as [|p [|q others]]; cbn in Hlen; try lia.
    + destruct n; cbn [nth_error fst]; now split.
    + destruct n as [|[|n]]; cbn [nth_error fst]; try now split.
      destruct p as [c' | c' | c']; cbn [fst]; try now split.
      * change (without 0 [AwaitLlm c']) with (@nil Pending).
        apply settle_guarded; [reflexivity|]. now rewrite llmReplied_done.
      * change (without 0 [AwaitLlmText c']) with (@nil Pending).
        apply settle_guarded; [reflexivity|]. now rewrite textLlmReplied_done.
Qed.

Lemma play_guarded evs : forall sys, guarded sys -> guarded (fst (play sys evs)).
Proof.
  induction evs as [|ev evs IH]; intros sys G; cbn; [exact G|].
  pose proof (dispatch_guarded sys ev G) as G1.
  destruct (dispatch sys ev) as [sys1 l1]. specialize (IH sys1 G1).
  now destruct (play sys1 evs) as [sys2 l2].
Qed.

(** C5 (re-entrancy guard).  While [isProcessingRef] is set, the silence
    callback and the safety timer do nothing at all, and a text submit does
    nothing beyond [preventDefault()] on its form event: none of them changes
    the component or starts a handler.  Hence, over any interleaving of the
    three triggers with the replies of the two services, starting with at most
    one cycle in flight under a set guard, at most one processing cycle is in
    flight at any time, and the guard stays set while it is. *)
Theorem processing_guard (c : Render) (now : Str) (s : t)
  (others : list Pending) (evs : list Event) :
  (isProcessingRef s = true ->
   handleSilenceDetected c s = (Js.Normal None, s, [])
   /\ listeningTimedOut c s = (Js.Normal None, s, [])
   /\ handleTextSubmit c now s = (Js.Normal None, s, [PreventDefault])
   /\ forall ev, isTrigger ev = true ->
        fst (dispatch (mkSystem s others) ev) = mkSystem s others)
  /\ (guarded (mkSystem s others) ->
      (length (inflight (fst (play (mkSystem s others) evs))) <= 1)%nat
      /\ guarded (fst (play (mkSystem s others) evs))).
Proof.
  split.
  - intros E.
    assert (H1 : forall c, handleSilenceDetected c s = (Js.Normal None, s, []))
      by (intros c0; now rewrite handleSilenceDetected_spec, E).
    assert (H2 : forall c, listeningTimedOut c s = (Js.Normal None, s, []))
      by (intros c0; rewrite listeningTimedOut_spec;
          now destruct (rVoiceState c0)).
    assert (H3 : forall c now,
               handleTextSubmit c now s = (Js.Normal None, s, [PreventDefault]))
      by (intros c0 now0; rewrite handleTextSubmit_spec, E;
          now rewrite orb_true_r).
    repeat split; auto.
    intros [c0 | c0 | c0 now0 | n reply now0 | n reply now0]; try discriminate;
      intros _; cbn [dispatch app inflight]; rewrite ?H1, ?H2, ?H3; reflexivity.
  - intros G. pose proof (play_guarded evs _ G) as G'.
    split; [apply G' | exact G'].
Qed.

(** A message is submitted while the recorder, still recording, holds 2500
    bytes.  The guard is set, so the safety timer, the silence callback and a
    second submit leave the one cycle alone.  With the guard cleared each of
    them would start a cycle of its own on that very component. *)
Lemma processing_guard_witness :
  (handleSilenceDetected typingRender (typedWhileListening 2500)
   = (Js.Normal None, typedWhileListening 2500, [])
   /\ listeningTimedOut typingRender (typedWhileListening 2500)
      = (Js.Normal None, typedWhileListening 2500, [])
   /\ handleTextSubmit typingRender (str "2026") (typedWhileListening 2500)
      = (Js.Normal None, typedWhileListening 2500, [PreventDefault]))
  /\ (length (inflight (fst (play (mkSystem (typedWhileListening 2500)
                                            [AwaitLlmText typingRender])
                                  [SafetyTimer typingRender;
                                   SilenceCallback typingRender;
                                   TextSubmit typingRender (str "2026")])))
      <= 1)%nat
  /\ (completion (handleSilenceDetected typingRender
                    (setIsProcessingRef false (typedWhileListening 2500)))
      = Js.Normal (Some (AwaitStt typingRender))
      /\ completion (listeningTimedOut typingRender
                       (setIsProcessingRef false (typedWhileListening 2500)))
         = Js.Normal (Some (AwaitStt typingRender))
      /\ completion (handleTextSubmit typingRender (str "2026")
                       (setIsProcessingRef false (typedWhileListening 2500)))
         = Js.Normal (Some (AwaitLlmText typingRender))
      /\ length (inflight (fst (play (mkSystem
                                        (setIsProcessingRef false
                                           (typedWhileListening 2500))
                                        [AwaitLlmText typingRender])
                                     [SafetyTimer typingRender])))
         = 2%nat).
Proof.
  assert (Hbusy : isProcessingRef (typedWhileListening 2500) = true)
    by (vm_compute; reflexivity).
  destruct (processing_guard typingRender (str "2026") (typedWhileListening 2500)
              [AwaitLlmText typingRender]
              [SafetyTimer typingRender; SilenceCallback typingRender;
               TextSubmit typingRender (str "2026")])
    as [H1 H2].
  destruct (H1 Hbusy) as (A & B & C & _).
  destruct H2 as [L _].
  { split; [exact (le_n 1) | intros _; exact Hbusy]. }
  split; [repeat split; assumption | split; [exact L|]].
  vm_compute. repeat split.
Defined.

(** C6 (undersized capture).  When the silence callback or the safety timer
    runs and the recorder has no audio, or less than 2000 bytes of it, the
    handler returns at once: the component is as before (the guard, the
    state and the still running recorder included) and no service is
    called. *)
Theorem undersized_capture_discarded (c : Render) (s : t) :
  (forall blob, currentAudio s = Some blob -> (Js.size blob < 2000)%Z) ->
  handleSilenceDetected c s = (Js.Normal None, s, [])
  /\ listeningTimedOut c s = (Js.Normal None, s, [])
  /\ isProcessingRef (state (handleSilenceDetected c s)) = isProcessingRef s
  /\ voiceState (state (handleSilenceDetected c s)) = voiceState s
  /\ filter isServiceCall (effects (handleSilenceDetected c s)) = [].
Proof.
  intros H.
  assert (E : forall c, handleSilenceDetected c s = (Js.Normal None, s, [])).
  { intros c0. rewrite handleSilenceDetected_spec.
    destruct (isProcessingRef s); [reflexivity|].
    destruct (currentAudio s) as [blob|]; [| reflexivity].
    specialize (H blob eq_refl). apply Z.ltb_lt in H.
    unfold minimumAudioSize. now rewrite H. }
  rewrite listeningTimedOut_spec, !E.
  repeat split. now destruct (rVoiceState c).
Qed.

Lemma undersized_capture_discarded_witness :
  handleSilenceDetected listeningRender (listeningWith 1500)
  = (Js.Normal None, listeningWith 1500, [])
  /\ voiceState (state (handleSilenceDetected listeningRender
                          (listeningWith 1500))) = listening.
Proof.
  destruct (undersized_capture_discarded listeningRender (listeningWith 1500))
    as (H1 & _ & _ & H4 & _).
  - intros blob E. vm_compute in E. injection E as <-. reflexivity.
  - split; [exact H1 | rewrite H4; reflexivity].
Defined.

Lemma no_response_call_in_stop s : filter isResponseCall (stopEffects s) = [].
Proof.
  unfold stopEffects. rewrite !filter_app.
  assert (R : forall l, filter isResponseCall (map Recorder l) = [])
    by (induction l; auto).
  destruct (listeningTimeoutRef s), (audioRecorderRef s), (ttsRef s);
    rewrite ?R; reflexivity.
Qed.

Lemma containsStopWord_nonempty text : containsStopWord text -> text <> [].
Proof.
  intros (word & Hin & pre & w & post & -> & Hlow & _) E.
  apply app_eq_nil in E as [_ E]. apply app_eq_nil in E as [-> _].
  cbn in Hlow. subst word.
  destruct Hin as [H | [H | [H | [H | [H | []]]]]]; discriminate H.
Qed.



(** C8 (idempotent teardown).  [stopRecording()] never throws and leaves
    every handle nulled; called again on the recorder it stopped it changes
    nothing and releases nothing.  [handleStop] never throws either; run
    twice in a row, its second run leaves the component as the first left it
    and releases neither stream, audio context, interval nor timeout. *)
Theorem idempotent_teardown (r : AudioRecorder.t) (s : t) :
  completion (AudioRecorder.stopRecording r) = Js.Normal tt
  /\ AudioRecorder.stream (state (AudioRecorder.stopRecording r)) = None
  /\ AudioRecorder.audioContext (state (AudioRecorder.stopRecording r)) = None
  /\ AudioRecorder.volumeCheckInterval (state (AudioRecorder.stopRecording r))
     = None
  /\ AudioRecorder.silenceTimeout (state (AudioRecorder.stopRecording r)) = None
  /\ AudioRecorder.stopRecording (state (AudioRecorder.stopRecording r))
     = (Js.Normal tt, state (AudioRecorder.stopRecording r), [])
  /\ completion (handleStop s) = Js.Normal tt
  /\ completion (handleStop (state (handleStop s))) = Js.Normal tt
  /\ state (handleStop (state (handleStop s))) = state (handleStop s)
  /\ filter isTeardown (effects (handleStop (state (handleStop s)))) = [].
Proof.
  destruct (Capture.stopRecording_released r) as (_ & Hi & Ht & Hs & Hc & _).
  split; [apply Capture.stopRecording_returns|].
  do 4 (split; [assumption|]).
  split; [apply Capture.stopRecording_again|].
  rewrite !handleStop_spec. unfold completion, state, effects. cbn [fst snd].
  repeat split.
  - destruct s as [vs act conv tr ti rec tts busy timeout heard].
    unfold stopped. cbn. f_equal.
    + destruct rec as [r0|]; cbn; [| reflexivity].
      now rewrite Capture.stopRecording_again.
    + now destruct tts.
  - destruct s as [vs act conv tr ti rec tts busy timeout heard].
    unfold stopEffects, stopped. cbn.
    destruct rec as [r0|]; cbn.
    + rewrite Capture.stopRecording_again. cbn. now destruct tts.
    + now destruct tts.
Qed.

End Orchestrator.

(* ------------------------------------------------------------------------- *)
(** ** More about recording sessions *)

Module Session.
Import AudioRecorder.

(** Case analysis on the conditions of a body, simplifying as it goes. *)
Ltac cases :=
  repeat (match goal with
          | |- context [if ?b then _ else _] =>
              lazymatch b with
              | context [if _ then _ else _] => fail
              | _ => destruct b eqn:?
              end
          end; simpl).

Lemma stopRecording_setup r :
  sameSetup (state (stopRecording r)) r
  /\ audioChunks (state (stopRecording r)) = audioChunks r
  /\ (silenceTimeout r = None -> silenceTimeout (state (stopRecording r)) = None).
Proof.
  destruct r as [mr ch st to ctx an th du c1 c2 c3 rec iv hs tr].
  destruct mr as [[]|], st, to, ctx, iv; repeat split; discriminate.
Qed.

Lemma step_setup r ev :
  sameSetup (fst (step r ev)) r
  /\ (silenceTimeout r = None -> silenceTimeout (fst (step r ev)) = None).
Proof.
  destruct ev as [v | data | |]; simpl.
  - unfold tick. destruct (volumeCheckInterval r) as [m|]; simpl;
      [| repeat split; auto].
    unfold volumeCheck. Detector.branches; simpl; repeat split; auto.
  - unfold ondataavailable. Detector.branches; simpl; repeat split; auto.
  - unfold onstop. Detector.branches; simpl; repeat split; auto.
  - destruct (stopRecording_setup r) as (H1 & _ & H3).
    unfold state in *.
    destruct (stopRecording r) as [[[u|msg] r'] l]; simpl in *; split; auto.
Qed.

Lemma sameSetup_trans a b c : sameSetup a b -> sameSetup b c -> sameSetup a c.
Proof.
  unfold sameSetup. intros (?&?&?&?&?) (?&?&?&?&?). repeat split; congruence.
Qed.

Lemma run_setup evs : forall r,
  sameSetup (fst (run r evs)) r
  /\ (silenceTimeout r = None -> silenceTimeout (fst (run r evs)) = None).
Proof.
  induction evs as [|ev evs IH]; intros r; simpl.
  - repeat split; auto.
  - destruct (step_setup r ev) as [H1 H2].
    destruct (step r ev) as [r1 l1]. simpl in *.
    destruct (IH r1) as [H3 H4]. destruct (run r1 evs) as [r2 l2]. simpl in *.
    split; [eapply sameSetup_trans; eauto | auto].
Qed.

(** What the grant of the microphone makes of a recorder depends on its
    options and its [silenceTimeout] only. *)
Lemma granted_setup r r' :
  sameSetup r r' -> silenceTimeout r = silenceTimeout r' ->
  state (microphoneGranted true r) = state (microphoneGranted true r').
Proof.
  destruct r, r'. unfold sameSetup. simpl.
  intros (-> & -> & -> & -> & ->) ->. reflexivity.
Qed.

(** X1 (reset).  Take a recorder with nothing running and a session on it,
    whatever happened there, from its first sample to its signal.  After
    [stopRecording()], and whatever ticks, data and stop reports arrive while
    the next [startRecording()] waits for the microphone, the grant leaves
    the recorder in the very state the first [startRecording()] left: the
    flags, the counter, the buffer and the handles start afresh, so the new
    session behaves on every event sequence as the first would have. *)
Theorem restart_forgets (r0 : t) (evs waiting evs' : list Event) :
  idle r0 ->
  state (microphoneGranted true
           (fst (run (state (stopRecording (fst (run (session r0) evs))))
                     waiting)))
  = session r0
  /\ run (state (microphoneGranted true
                   (fst (run (state (stopRecording (fst (run (session r0) evs))))
                             waiting))))
         evs'
     = run (session r0) evs'.
Proof.
  intros (_ & _ & Hto & _).
  set (r1 := fst (run (session r0) evs)).
  set (r2 := state (stopRecording r1)).
  set (r3 := fst (run r2 waiting)).
  assert (E : state (microphoneGranted true r3) = session r0).
  { destruct (run_setup evs (session r0)) as [H1 K1].
    destruct (stopRecording_setup r1) as (H2 & _ & K2).
    destruct (run_setup waiting r2) as [H3 K3].
    change (session r0) with (state (microphoneGranted true r0)).
    apply granted_setup.
    - eapply sameSetup_trans; [exact H3|].
      eapply sameSetup_trans; [exact H2|].
      eapply sameSetup_trans; [exact H1|]. repeat split.
    - rewrite Hto. apply K3, K2, K1. exact Hto. }
  now rewrite E.
Qed.

Lemma restart_forgets_witness :
  signals (snd (run (state (microphoneGranted true
                              (fst (run (state (stopRecording
                                           (fst (run (session (new scenarioA_options))
                                                     (DataAvailable oneByte
                                                      :: map Tick (scenarioA_samples
                                                                   ++ [5; 5]))))))
                                        [DataAvailable oneByte; RecorderStopped]))))
                  (DataAvailable oneByte
                   :: map Tick (scenarioA_samples ++ [5; 5])))) = 1%nat.
Proof.
  assert (Hidle : idle (new scenarioA_options)).
  { repeat split. now left. }
  destruct (restart_forgets (new scenarioA_options)
              (DataAvailable oneByte :: map Tick (scenarioA_samples ++ [5; 5]))
              [DataAvailable oneByte; RecorderStopped]
              (DataAvailable oneByte :: map Tick (scenarioA_samples ++ [5; 5]))
              Hidle) as [_ H].
  rewrite H. vm_compute. reflexivity.
Defined.

(** *** After [stopRecording()] *)

Lemma stopped_step r ev :
  isRecording r = false ->
  volumeCheckInterval r = None ->
  silenceTimeout r = None ->
  stream r = None ->
  audioContext r = None ->
  analyser r = None ->
  mediaRecorder r = None \/ mediaRecorder r = Some inactive ->
  (isRecording (fst (step r ev)) = false
   /\ volumeCheckInterval (fst (step r ev)) = None
   /\ silenceTimeout (fst (step r ev)) = None
   /\ stream (fst (step r ev)) = None
   /\ audioContext (fst (step r ev)) = None
   /\ analyser (fst (step r ev)) = None
   /\ (mediaRecorder (fst (step r ev)) = None
       \/ mediaRecorder (fst (step r ev)) = Some inactive))
  /\ forallb isAudioData (snd (step r ev)) = true.
Proof.
  intros H1 H2 H3 H4 H5 H6 H7. destruct ev as [v | data | |]; simpl.
  - unfold tick. rewrite H2. simpl. repeat split; auto.
  - unfold ondataavailable. Detector.branches; simpl; repeat split; auto.
  - unfold onstop. Detector.branches; simpl; repeat split; auto.
  - rewrite (Capture.stopRecording_stopped r H1 H2 H3 H4 H5 H6 H7). simpl.
    repeat split; auto.
Qed.

Lemma stopped_run evs : forall r,
  isRecording r = false ->
  volumeCheckInterval r = None ->
  silenceTimeout r = None ->
  stream r = None ->
  audioContext r = None ->
  analyser r = None ->
  mediaRecorder r = None \/ mediaRecorder r = Some inactive ->
  volumeCheckInterval (fst (run r evs)) = None
  /\ forallb isAudioData (snd (run r evs)) = true.
Proof.
  induction evs as [|ev evs IH]; intros r H1 H2 H3 H4 H5 H6 H7; simpl.
  - now split.
  - destruct (stopped_step r ev H1 H2 H3 H4 H5 H6 H7)
      as ((G1 & G2 & G3 & G4 & G5 & G6 & G7) & G).
    destruct (step r ev) as [r1 l1]. simpl in *.
    destruct (IH r1 G1 G2 G3 G4 G5 G6 G7) as [K1 K2].
    destruct (run r1 evs) as [r2 l2]. simpl in *.
    split; [exact K1|]. now rewrite forallb_app, G, K2.
Qed.

(** The first tick of a newly granted recorder does nothing but report the
    volume. *)
Lemma granted_tick v r :
  isRecording (state (microphoneGranted true r)) = true
  /\ effects (microphoneGranted true r)
     = [MediaRecorderStart 100; SetInterval checkInterval]
  /\ snd (tick v (state (microphoneGranted true r)))
     = if onVolumeChange r then [CallOnVolumeChange v] else [].
Proof.
  destruct r as [mr ch st to ctx an th du c1 c2 c3 rec iv hs tr].
  split; [reflexivity | split; [reflexivity|]].
  unfold tick, volumeCheck. cbn -[Js.ltb Js.geb Js.add Qceiling Z.leb].
  generalize (Qceiling (du / inject_Z checkInterval)), (Js.add th 5).
  intros n sth.
  destruct c1, c3;
    repeat (match goal with
            | |- context [if ?b then _ else _] =>
                lazymatch b with
                | context [if _ then _ else _] => fail
                | _ => destruct b
                end
            end; cbn -[Js.ltb Js.geb Js.add Qceiling Z.leb]);
    reflexivity.
Qed.

(** X2 (nothing after stop).  Once [stopRecording()] has run, whatever the
    recorder was doing, the ticks, data and stop reports that follow make it
    neither call [onSilenceDetected] or [onVolumeChange] nor touch the
    platform, and every tick is a no-op: all it can still do is hand the
    recorded audio to [onAudioData] when the media recorder reports its stop.
    One thing ends this rest: a [startRecording()] that was waiting for the
    microphone when the stop came.  When the platform grants it, the recorder
    records again, with its media recorder and its interval started, and the
    next tick reports the volume to [onVolumeChange]. *)
Theorem nothing_after_stop (r : t) (evs : list Event) (v : Q) :
  forallb isAudioData (snd (run (state (stopRecording r)) evs)) = true
  /\ signals (snd (run (state (stopRecording r)) evs)) = 0%nat
  /\ tick v (fst (run (state (stopRecording r)) evs))
     = (fst (run (state (stopRecording r)) evs), [])
  /\ isRecording (state (microphoneGranted true
                           (fst (run (state (stopRecording r)) evs)))) = true
  /\ effects (microphoneGranted true (fst (run (state (stopRecording r)) evs)))
     = [MediaRecorderStart 100; SetInterval checkInterval]
  /\ snd (tick v (state (microphoneGranted true
                           (fst (run (state (stopRecording r)) evs)))))
     = if onVolumeChange r then [CallOnVolumeChange v] else [].
Proof.
  destruct (Capture.stopRecording_released r) as (H1 & H2 & H3 & H4 & H5 & H6 & H7).
  destruct (stopped_run evs _ H1 H2 H3 H4 H5 H6 H7) as [K1 K2].
  split; [exact K2 | split; [| split]].
  - unfold signals.
    induction (snd (run (state (stopRecording r)) evs)) as [|e l IH];
      [reflexivity|].
    simpl in K2. apply andb_true_iff in K2 as [Ke Kl].
    destruct e; try discriminate. simpl. now apply IH.
  - unfold tick. now rewrite K1.
  - destruct (granted_tick v (fst (run (state (stopRecording r)) evs)))
      as (G1 & G2 & G3).
    destruct (run_setup evs (state (stopRecording r))) as [(_ & _ & _ & _ & E1) _].
    destruct (stopRecording_setup r) as ((_ & _ & _ & _ & E2) & _).
    rewrite G3, E1, E2. now repeat split.
Qed.

(** *** What a session keeps *)

Lemma stopRecording_monitor r :
  chunksNonEmpty r -> chunksNonEmpty (state (stopRecording r)).
Proof.
  intros H. unfold chunksNonEmpty.
  now rewrite (proj1 (proj2 (stopRecording_setup r))).
Qed.

Lemma step_chunks r ev :
  chunksNonEmpty r -> chunksNonEmpty (fst (step r ev)).
Proof.
  intros H. destruct ev as [v | data | |]; simpl.
  - unfold tick. destruct (volumeCheckInterval r) as [m|]; simpl; [| exact H].
    unfold volumeCheck, chunksNonEmpty in *.
    Detector.branches; simpl; exact H.
  - unfold ondataavailable, chunksNonEmpty in *.
    destruct (Js.isSet (mediaRecorder r)); [| exact H].
    destruct (0 <? Js.size data)%Z eqn:E; simpl; [| exact H].
    apply Forall_app. split; [exact H|]. constructor; [| constructor].
    now apply Z.ltb_lt.
  - unfold onstop, chunksNonEmpty.
    destruct (Js.isSet (mediaRecorder r)); [| exact H]. simpl. constructor.
  - pose proof (stopRecording_monitor r H) as G. unfold state in G.
    destruct (stopRecording r) as [[[u|msg] r'] l]; exact G.
Qed.

Lemma run_chunks evs : forall r,
  chunksNonEmpty r -> chunksNonEmpty (fst (run r evs)).
Proof.
  induction evs as [|ev evs IH]; intros r H; simpl; [exact H|].
  pose proof (step_chunks r ev H) as H1.
  destruct (step r ev) as [r1 l1]. specialize (IH r1 H1).
  now destruct (run r1 evs).
Qed.

Lemma session_chunks r0 : chunksNonEmpty (session r0).
Proof. constructor. Qed.

(** A blob made of chunks that all have bytes has bytes, unless there is no
    chunk. *)
Lemma newBlob_size chunks type :
  Forall (fun b => (0 < Js.size b)%Z) chunks ->
  chunks <> [] -> (0 < Js.size (Js.newBlob chunks type))%Z.
Proof.
  intros H Hne. destruct chunks as [|b l]; [contradiction|].
  inversion H as [|? ? Hb _]. subst.
  unfold Js.size, Js.newBlob in *. simpl. rewrite length_app. lia.
Qed.

(** A tick leaves the buffer alone, and one that signals found it
    non-empty. *)
Lemma tick_buffer v r :
  audioChunks (fst (tick v r)) = audioChunks r
  /\ ((1 <= signals (snd (tick v r)))%nat -> audioChunks r <> []).
Proof.
  unfold tick.
  destruct r as [mr ch st to ctx an th du c1 c2 c3 rec iv hs tr]. simpl.
  destruct iv as [m|]; simpl; [| split; [reflexivity | intros H; inversion H]].
  unfold volumeCheck. simpl.
  destruct ch as [|b l]; [| cases;
                            (split; [reflexivity | intros _; discriminate])].
  destruct c1, c3; simpl; cases;
    (split; [reflexivity | intros H; inversion H]).
Qed.

(** X3 (a signal comes with audio).  Whenever a tick of a session calls
    [onSilenceDetected], [getCurrentAudioBlob()] called from that callback
    returns a blob, and the blob has bytes. *)
Theorem signal_comes_with_audio (r0 : t) (evs : list Event) (v : Q) :
  (1 <= signals (snd (tick v (fst (run (session r0) evs)))))%nat ->
  exists blob,
    completion (getCurrentAudioBlob (fst (tick v (fst (run (session r0) evs)))))
    = Js.Normal (Some blob)
    /\ (0 < Js.size blob)%Z.
Proof.
  intros H.
  destruct (tick_buffer v (fst (run (session r0) evs))) as [Hb Hne].
  specialize (Hne H).
  pose proof (run_chunks evs (session r0) (session_chunks r0)) as Hc.
  rewrite Capture.getCurrentAudioBlob_eq, Hb. unfold completion. simpl.
  destruct (audioChunks (fst (run (session r0) evs))) as [|b l] eqn:E;
    [contradiction|].
  eexists. split; [reflexivity|].
  apply newBlob_size; [| discriminate]. unfold chunksNonEmpty in Hc.
  now rewrite E in Hc.
Qed.

Lemma signal_comes_with_audio_witness :
  exists blob,
    completion (getCurrentAudioBlob
                  (fst (tick 5 (fst (run (session (new scenarioA_options))
                                       (DataAvailable oneByte
                                        :: map Tick (scenarioA_samples ++ [5])))))))
    = Js.Normal (Some blob)
    /\ (0 < Js.size blob)%Z.
Proof.
  apply (signal_comes_with_audio (new scenarioA_options)
           (DataAvailable oneByte :: map Tick (scenarioA_samples ++ [5])) 5).
  vm_compute. apply le_n.
Defined.

(** *** When the signal comes *)

Lemma set_interval_twice a b r :
  setVolumeCheckInterval a (setVolumeCheckInterval b r)
  = setVolumeCheckInterval a r.
Proof. now destruct r. Qed.

Lemma step_monitorOf r ev : monitorOf r -> monitorOf (fst (step r ev)).
Proof.
  intros H. destruct ev as [v | data | |]; simpl.
  - unfold tick. destruct (volumeCheckInterval r) as [m|] eqn:E; simpl;
      [| exact H].
    destruct (H m E) as [H1 H2]. intros m' E'.
    destruct r as [mr ch st to ctx an th du c1 c2 c3 rec iv hs tr].
    simpl in *. revert E'. unfold volumeCheck. simpl.
    cases; intros E'; injection E' as <-; simpl; auto.
  - unfold ondataavailable. Detector.branches; exact H.
  - unfold onstop. Detector.branches; exact H.
  - destruct (Detector.stopRecording_flags r) as (_ & _ & _ & Hi & _).
    unfold state in *.
    destruct (stopRecording r) as [[[u|msg] r'] l]; simpl in *;
      intros m E; rewrite Hi in E; discriminate.
Qed.

Lemma step_monitored r ev : monitored r -> monitored (fst (step r ev)).
Proof.
  unfold monitored. intros H. destruct ev as [v | data | |]; simpl.
  - unfold tick. destruct (volumeCheckInterval r) as [m|] eqn:E; simpl;
      [| intros Hr; rewrite E; exact (H Hr)].
    destruct (volumeCheck v r m) as [[r' m'] l]. simpl. discriminate.
  - unfold ondataavailable. Detector.branches; exact H.
  - unfold onstop. Detector.branches; exact H.
  - destruct (Capture.stopRecording_released r) as (Hr & _).
    unfold state in *.
    destruct (stopRecording r) as [[[u|msg] r'] l]; simpl in *;
      rewrite Hr; discriminate.
Qed.

Lemma run_invariant (P : t -> Prop) :
  (forall r ev, P r -> P (fst (step r ev))) ->
  forall evs r, P r -> P (fst (run r evs)).
Proof.
  intros Hstep. induction evs as [|ev evs IH]; intros r H; simpl; [exact H|].
  pose proof (Hstep r ev H) as H1.
  destruct (step r ev) as [r1 l1]. specialize (IH r1 H1).
  now destruct (run r1 evs).
Qed.

Lemma session_monitorOf r0 : monitorOf (session r0).
Proof. intros m E. injection E as <-. now split. Qed.

Lemma session_monitored r0 : monitored (session r0).
Proof. intros _. discriminate. Qed.

(** A silent sample that does not complete the count only moves the
    counter. *)
Lemma silent_tick_counts v r m :
  volumeCheckInterval r = Some m ->
  isRecording r = true ->
  hasSoundDetected r = true ->
  v < silenceThreshold r ->
  v < soundThreshold m ->
  (consecutiveSilenceChecks m + 1 < silenceChecksNeeded m)%Z ->
  exists mx,
    tick v r
    = (setVolumeCheckInterval
         (Some (mkMonitor (consecutiveSilenceChecks m + 1) mx
                          (silenceChecksNeeded m) (soundThreshold m))) r,
       if onVolumeChange r then [CallOnVolumeChange v] else []).
Proof.
  intros Hi Hrec Hs Hlo Hhi Hc. unfold tick. rewrite Hi.
  destruct r as [mr ch st to ctx an th du c1 c2 c3 rec iv hs tr], m as [c mx n sth].
  simpl in *. subst rec hs. unfold volumeCheck. simpl.
  apply Detector.ltb_lt in Hlo. apply Detector.geb_false in Hhi.
  apply Z.leb_gt in Hc.
  destruct (Js.ltb mx v); simpl; rewrite Hhi; simpl; rewrite Hlo; simpl;
    rewrite Hc; simpl; eexists; reflexivity.
Qed.

(** The silent sample that completes the count signals. *)
Lemma silent_tick_signals v r m :
  volumeCheckInterval r = Some m ->
  isRecording r = true ->
  hasSoundDetected r = true ->
  silenceTriggered r = false ->
  onSilenceDetected r = true ->
  audioChunks r <> [] ->
  v < silenceThreshold r ->
  v < soundThreshold m ->
  (silenceChecksNeeded m <= consecutiveSilenceChecks m + 1)%Z ->
  exists mx,
    tick v r
    = (setVolumeCheckInterval
         (Some (mkMonitor 0 mx (silenceChecksNeeded m) (soundThreshold m)))
         (setSilenceTriggered true r),
       (if onVolumeChange r then [CallOnVolumeChange v] else [])
       ++ [CallOnSilenceDetected]).
Proof.
  intros Hi Hrec Hs Ht Hcb Hch Hlo Hhi Hc. unfold tick. rewrite Hi.
  destruct r as [mr ch st to ctx an th du c1 c2 c3 rec iv hs tr], m as [c mx n sth].
  simpl in *. subst rec hs tr c1. unfold volumeCheck. simpl.
  apply Detector.ltb_lt in Hlo. apply Detector.geb_false in Hhi.
  apply Z.leb_le in Hc.
  destruct ch as [|b l]; [contradiction|].
  destruct (Js.ltb mx v); simpl; rewrite Hhi; simpl; rewrite Hlo; simpl;
    rewrite Hc; simpl; eexists; reflexivity.
Qed.

Lemma silent_run vs : forall r m,
  volumeCheckInterval r = Some m ->
  isRecording r = true ->
  hasSoundDetected r = true ->
  (forall v, In v vs -> v < silenceThreshold r /\ v < soundThreshold m) ->
  (consecutiveSilenceChecks m + Z.of_nat (length vs) < silenceChecksNeeded m)%Z ->
  exists mx,
    fst (run r (map Tick vs))
    = setVolumeCheckInterval
        (Some (mkMonitor (consecutiveSilenceChecks m + Z.of_nat (length vs)) mx
                         (silenceChecksNeeded m) (soundThreshold m))) r
    /\ signals (snd (run r (map Tick vs))) = 0%nat.
Proof.
  induction vs as [|v vs IH]; intros r m Hi Hrec Hs Hv Hc.
  - exists (maxVolumeDetected m). simpl. rewrite Z.add_0_r.
    destruct r, m. simpl in *. subst. now split.
  - simpl length in *. rewrite Nat2Z.inj_succ in *.
    destruct (Hv v (or_introl eq_refl)) as [Hlo Hhi].
    destruct (silent_tick_counts v r m Hi Hrec Hs Hlo Hhi) as [mx E]; [lia|].
    simpl. rewrite E.
    destruct (IH (setVolumeCheckInterval
                    (Some (mkMonitor (consecutiveSilenceChecks m + 1) mx
                             (silenceChecksNeeded m) (soundThreshold m))) r)
                 (mkMonitor (consecutiveSilenceChecks m + 1) mx
                    (silenceChecksNeeded m) (soundThreshold m)))
      as [mx' [E' S']]; simpl; auto.
    + intros w Hw. apply Hv. now right.
    + lia.
    + destruct (run _ (map Tick vs)) as [r2 l2]. simpl in *.
      exists mx'. rewrite E', set_interval_twice, Detector.signals_app, S'.
      split; [f_equal; f_equal; f_equal; lia|].
      now destruct (onVolumeChange r).
Qed.



(** *** When no signal can come *)

(** A tick that signals found the callback installed, the recorder recording
    and the sample below the silence threshold. *)
Lemma tick_signal_needs v r :
  (1 <= signals (snd (tick v r)))%nat ->
  onSilenceDetected r = true
  /\ isRecording r = true
  /\ v < silenceThreshold r.
Proof.
  unfold tick.
  destruct r as [mr ch st to ctx an th du c1 c2 c3 rec iv hs tr]. simpl.
  destruct iv as [m|]; simpl; [| intros H; inversion H].
  unfold volumeCheck. simpl.
  destruct rec; simpl; [| intros H; inversion H].
  cases; intros H; try (inversion H; fail);
    repeat match goal with
           | E : _ && _ = true |- _ => apply andb_true_iff in E as [? ?]
           | E : Js.ltb v th = true |- _ => apply Detector.ltb_lt in E
           end;
    repeat split; assumption.
Qed.

Lemma step_signal_is_tick r ev :
  (1 <= signals (snd (step r ev)))%nat -> exists v, ev = Tick v.
Proof.
  destruct ev as [v | data | |]; simpl.
  - intros _. now exists v.
  - unfold ondataavailable. Detector.branches; intros H; inversion H.
  - unfold onstop. Detector.branches; intros H; inversion H.
  - destruct (Detector.stopRecording_flags r) as (_ & _ & _ & _ & Hl).
    unfold effects in Hl.
    destruct (stopRecording r) as [[[u|msg] r'] l]; simpl in *;
      rewrite ?Detector.signals_app, Hl; intros H; inversion H.
Qed.

(** No event of a run signals when an invariant of the recorder excludes a
    signalling tick. *)
Lemma run_never_signals (P : t -> Prop) (Q : Event -> Prop) :
  (forall r ev, P r -> Q ev -> P (fst (step r ev))) ->
  (forall r v, P r -> Q (Tick v) -> signals (snd (tick v r)) = 0%nat) ->
  forall evs r, P r -> Forall Q evs -> signals (snd (run r evs)) = 0%nat.
Proof.
  intros Hstep Htick. induction evs as [|ev evs IH]; intros r H HQ;
    simpl; [reflexivity|].
  inversion HQ as [|? ? Hev Hevs]. subst.
  pose proof (Hstep r ev H Hev) as H1.
  assert (H0 : signals (snd (step r ev)) = 0%nat).
  { destruct (signals (snd (step r ev))) as [|n] eqn:E; [reflexivity|].
    destruct (step_signal_is_tick r ev) as [v ->]; [rewrite E; lia|].
    simpl in E. rewrite (Htick r v H Hev) in E. discriminate. }
  destruct (step r ev) as [r1 l1]. simpl in *.
  specialize (IH r1 H1 Hevs). destruct (run r1 evs) as [r2 l2]. simpl in *.
  now rewrite Detector.signals_app, H0, IH.
Qed.

Lemma zero_or_signal n : (n = 0 \/ 1 <= n)%nat.
Proof. destruct n; [now left | right; lia]. Qed.

Lemma delivers_nothing evs :
  delivered evs = [] ->
  Forall (fun ev => forall d, ev = DataAvailable d -> (0 <? Js.size d)%Z = false)
         evs.
Proof.
  induction evs as [|ev evs IH]; intros H; constructor.
  - intros d ->. unfold delivered in H. simpl in H.
    destruct (0 <? Js.size d)%Z; [discriminate | reflexivity].
  - apply IH. unfold delivered in *. simpl in H.
    now apply app_eq_nil in H as [_ H].
Qed.

(** X5 (no callback, no audio, no signal).  A session of a recorder built
    without [onSilenceDetected], and a session in which no data with bytes
    has been delivered, never signal: the silence count is restarted each
    time it completes, and nothing is called. *)
Theorem no_signal_without_audio (r0 : t) (evs : list Event) :
  onSilenceDetected r0 = false \/ delivered evs = [] ->
  signals (snd (run (session r0) evs)) = 0%nat.
Proof.
  intros [Hcb | Hd].
  - apply (run_never_signals (fun r => onSilenceDetected r = false)
                             (fun _ => True)).
    + intros r ev H _. destruct (step_setup r ev) as [(_ & _ & E & _) _].
      now rewrite E.
    + intros r v H _. destruct (zero_or_signal (signals (snd (tick v r))))
        as [E | E]; [exact E|].
      apply tick_signal_needs in E as [E _]. congruence.
    + exact Hcb.
    + now apply Forall_forall.
  - apply (run_never_signals
             (fun r => audioChunks r = [])
             (fun ev => forall d, ev = DataAvailable d ->
                                  (0 <? Js.size d)%Z = false)).
    + intros r ev H Hev. destruct ev as [v | d | |]; simpl.
      * destruct (tick_buffer v r) as [E _]. now rewrite E.
      * unfold ondataavailable. rewrite (Hev d eq_refl).
        now destruct (Js.isSet (mediaRecorder r)).
      * unfold onstop. now destruct (Js.isSet (mediaRecorder r)).
      * destruct (stopRecording_setup r) as (_ & E & _). unfold state in E.
        destruct (stopRecording r) as [[[u|msg] r'] l]; simpl in *; congruence.
    + intros r v H _. destruct (zero_or_signal (signals (snd (tick v r))))
        as [E | E]; [exact E|].
      apply tick_buffer in E. contradiction.
    + reflexivity.
    + now apply delivers_nothing.
Qed.

Lemma no_signal_without_audio_witness :
  signals (snd (run (session (new scenarioA_options))
                  (map Tick (scenarioA_samples ++ repeat 5%Q 40)))) = 0%nat.
Proof.
  apply no_signal_without_audio. right.
  vm_compute. reflexivity.
Defined.

(** *** What the media recorder's stop hands over *)

(** X6 (the recording handed over).  When the media recorder of a session
    reports its stop, [onAudioData] receives exactly the blob that
    [getCurrentAudioBlob()] would have returned at that moment, it is not
    called when there is none, and afterwards the buffer is empty: a second
    stop report hands nothing over. *)
Theorem stop_hands_over_current_audio (r0 : t) (evs : list Event) :
  onAudioData r0 = true ->
  snd (step (fst (run (session r0) evs)) RecorderStopped)
  = match completion (getCurrentAudioBlob (fst (run (session r0) evs))) with
    | Js.Normal (Some blob) => [CallOnAudioData blob]
    | _ => []
    end
  /\ completion (getCurrentAudioBlob
                   (fst (step (fst (run (session r0) evs)) RecorderStopped)))
     = Js.Normal None
  /\ snd (step (fst (step (fst (run (session r0) evs)) RecorderStopped))
               RecorderStopped) = [].
Proof.
  intros Hcb. set (r := fst (run (session r0) evs)).
  pose proof (run_chunks evs (session r0) (session_chunks r0)) as Hc.
  destruct (run_setup evs (session r0)) as [(_ & _ & _ & Ecb & _) _].
  assert (Hmr : Js.isSet (mediaRecorder r) = true).
  { apply (run_invariant (fun r => Js.isSet (mediaRecorder r) = true));
      [| reflexivity].
    intros r1 ev H. destruct ev as [v | d | |]; simpl.
    - unfold tick. destruct (volumeCheckInterval r1) as [m|]; simpl; [| exact H].
      destruct r1. unfold volumeCheck. simpl in *. cases; exact H.
    - rewrite H. unfold ondataavailable. Detector.branches; exact H.
    - rewrite H. exact H.
    - destruct (Capture.stopRecording_buffer r1) as [_ E]. unfold state in E.
      destruct (stopRecording r1) as [[[u|msg] r'] l]; simpl in *; congruence. }
  fold r in Hc, Ecb. simpl in Ecb. rewrite Hcb in Ecb.
  simpl. rewrite Hmr. unfold onstop. rewrite Ecb. simpl. rewrite Hmr. simpl.
  rewrite !Capture.getCurrentAudioBlob_eq. unfold completion. simpl.
  destruct (audioChunks r) as [|b l] eqn:E.
  - rewrite ?Ecb. repeat split.
  - rewrite <- E. replace (0 <? Js.size (Js.newBlob (audioChunks r) "audio/webm"))%Z
      with true.
    + rewrite ?Ecb. repeat split.
    + symmetry. apply Z.ltb_lt. apply newBlob_size; [exact Hc|].
      rewrite E. discriminate.
Qed.

Lemma stop_hands_over_current_audio_witness :
  snd (step (fst (run (session (new (mkOptions None None true true true)))
                    [DataAvailable oneByte; DataAvailable oneByte]))
            RecorderStopped)
  = [CallOnAudioData (Js.mkBlob [Byte.x1a; Byte.x1a] "audio/webm")].
Proof.
  destruct (stop_hands_over_current_audio
              (new (mkOptions None None true true true))
              [DataAvailable oneByte; DataAvailable oneByte] eq_refl)
    as (H & _).
  rewrite H. reflexivity.
Defined.

(** *** The range of the volume *)

Lemma sum_bytes_bound data : forall acc,
  (acc <= fold_left (fun a b => a + Z.of_N (Byte.to_N b)) data acc
   <= acc + 255 * Z.of_nat (length data))%Z.
Proof.
  induction data as [|b data IH]; intros acc; simpl fold_left; simpl length.
  - lia.
  - specialize (IH (acc + Z.of_N (Byte.to_N b))%Z).
    pose proof (Byte.to_N_bounded b). lia.
Qed.

Lemma getVolume_bounds dataArray r :
  dataArray <> [] ->
  exists v, getVolume dataArray r = Js.Num v /\ 0 <= v /\ v <= 255.
Proof.
  intros Hne. unfold getVolume.
  destruct (analyser r); [| exists 0; repeat split; discriminate].
  destruct dataArray as [|b data]; [contradiction|].
  eexists. split; [reflexivity|].
  pose proof (sum_bytes_bound (b :: data) 0) as [Hlo Hhi].
  set (s := fold_left _ _ _) in *. set (n := Z.of_nat (length (b :: data))) in *.
  assert (Hn : (0 < n)%Z) by (subst n; simpl length; lia).
  simpl length in Hhi. fold n in Hhi. clearbody s n.
  assert (HnQ : 0 < inject_Z n) by (unfold Qlt; simpl; lia).
  split.
  - apply Qle_shift_div_l; [exact HnQ|]. rewrite Qmult_0_l.
    unfold Qle. simpl. lia.
  - apply Qle_shift_div_r; [exact HnQ|].
    unfold Qle, Qmult, inject_Z. cbn [Qnum Qden]. lia.
Qed.

(** X7 (range of the volume).  For frequency data with at least one entry
    [getVolume()] returns a number between 0 and 255, and without an
    analyser it returns 0 whatever the data. *)
Theorem getVolume_range (dataArray : list Byte.byte) (r : t) :
  dataArray <> [] ->
  (analyser r = None -> getVolume dataArray r = Js.Num 0)
  /\ exists v, getVolume dataArray r = Js.Num v /\ 0 <= v /\ v <= 255.
Proof.
  intros Hne. split; [| now apply getVolume_bounds].
  unfold getVolume. now intros ->.
Qed.

Lemma getVolume_range_witness :
  exists v, getVolume [Byte.x00; Byte.xff; Byte.x80]
                      (session (new noOptions)) = Js.Num v
            /\ 0 <= v /\ v <= 255.
Proof.
  apply (getVolume_range [Byte.x00; Byte.xff; Byte.x80]
           (session (new noOptions))).
  discriminate.
Defined.

Lemma measurable_range v : measurable v -> 0 <= v /\ v <= 255.
Proof.
  intros (data & r & Hne & E).
  destruct (getVolume_bounds data r Hne) as (v' & E' & H).
  rewrite E in E'. now injection E' as ->.
Qed.

(** With a threshold that is not positive no sample of the range is silent:
    the counter of the monitor stays at 0. *)
Lemma tick_never_silent v r :
  silenceThreshold r <= 0 -> 0 <= v ->
  counter r = 0%Z -> counter (fst (tick v r)) = 0%Z.
Proof.
  intros Hlow Hpos. unfold counter, tick.
  destruct (volumeCheckInterval r) as [m|] eqn:Hi; [| simpl; now rewrite Hi].
  intros Hc.
  assert (Hlt : Js.ltb v (silenceThreshold r) = false).
  { destruct (Js.ltb v (silenceThreshold r)) eqn:E; [| reflexivity].
    apply Detector.ltb_lt in E. exfalso. apply (Qlt_irrefl v).
    apply Qlt_le_trans with (silenceThreshold r); [exact E|].
    now apply Qle_trans with 0. }
  destruct r as [mr ch st to ctx an th du c1 c2 c3 rec iv hs tr], m as [c mx n sth].
  simpl in *. subst c. unfold volumeCheck. simpl.
  cases; try reflexivity; congruence.
Qed.

Lemma step_never_silent r ev :
  silenceThreshold r <= 0 ->
  (forall v, ev = Tick v -> 0 <= v) ->
  counter r = 0%Z -> counter (fst (step r ev)) = 0%Z.
Proof.
  intros Hlow Hev Hc. destruct ev as [v | data | |]; simpl.
  - apply tick_never_silent; auto.
  - unfold ondataavailable. Detector.branches; exact Hc.
  - unfold onstop. Detector.branches; exact Hc.
  - destruct (Detector.stopRecording_flags r) as (_ & _ & _ & Hi & _).
    unfold state, counter in *.
    destruct (stopRecording r) as [[[u|msg] r'] l]; simpl in *; now rewrite Hi.
Qed.

Lemma run_never_silent evs : forall r,
  silenceThreshold r <= 0 ->
  (forall v, In v (volumes evs) -> 0 <= v) ->
  counter r = 0%Z -> counter (fst (run r evs)) = 0%Z.
Proof.
  induction evs as [|ev evs IH]; intros r Hlow Hv Hc; simpl; [exact Hc|].
  assert (H1 : counter (fst (step r ev)) = 0%Z).
  { apply step_never_silent; auto. intros v ->. apply Hv. now left. }
  destruct (step_setup r ev) as [(E & _) _].
  destruct (step r ev) as [r1 l1]. simpl in *.
  assert (H2 : counter (fst (run r1 evs)) = 0%Z).
  { apply IH; auto; [now rewrite E|].
    intros v Hin. apply Hv. unfold volumes in *. simpl.
    apply in_or_app. now right. }
  now destruct (run r1 evs).
Qed.

(** X8 (thresholds that silence the detector).  The samples being what
    [getVolume()] returns, a session of a recorder whose [silenceThreshold] is
    above 250 never hears sound: [hasSoundDetected] stays false whatever the
    samples.  A session of a recorder whose [silenceThreshold] is not positive
    never hears silence: the silence counter stays at 0.  Neither ever calls
    [onSilenceDetected]. *)
Theorem deaf_out_of_range (r0 : t) (evs : list Event) :
  (forall v, In v (volumes evs) -> measurable v) ->
  (250 < silenceThreshold r0 ->
   hasSoundDetected (fst (run (session r0) evs)) = false
   /\ signals (snd (run (session r0) evs)) = 0%nat)
  /\ (silenceThreshold r0 <= 0 ->
      counter (fst (run (session r0) evs)) = 0%Z
      /\ signals (snd (run (session r0) evs)) = 0%nat).
Proof.
  intros Hv. split.
  - intros Hhigh.
    assert (Hbelow : forall v, In v (volumes evs) ->
                               v < Js.add (silenceThreshold r0) 5).
    { intros v Hin. destruct (measurable_range v (Hv v Hin)) as [_ Hmax].
      apply Qle_lt_trans with 255; [exact Hmax|].
      now apply Rounding.add5_above_255. }
    destruct (Detector.run_unheard _ evs (session r0)
                (Detector.session_unheard r0) Hbelow) as [(Hs & _) Hn].
    now split.
  - intros Hlow. split.
    + apply run_never_silent; [exact Hlow | | reflexivity].
      intros v Hin. now apply (measurable_range v), Hv.
    + apply (run_never_signals
               (fun r => silenceThreshold r = silenceThreshold r0)
               (fun ev => forall v, ev = Tick v -> 0 <= v)).
      * intros r ev H _. destruct (step_setup r ev) as [(E & _) _]. congruence.
      * intros r v H Hpos.
        destruct (zero_or_signal (signals (snd (tick v r)))) as [E | E];
          [exact E|].
        apply tick_signal_needs in E as (_ & _ & E). rewrite H in E.
        exfalso. apply (Qlt_irrefl v).
        apply Qlt_le_trans with (silenceThreshold r0); [exact E|].
        apply Qle_trans with 0; [exact Hlow | now apply Hpos].
      * reflexivity.
      * apply Forall_forall. intros ev Hin v ->.
        apply (measurable_range v), Hv. unfold volumes.
        apply in_flat_map. exists (Tick v). split; [exact Hin | now left].
Qed.

Lemma deaf_out_of_range_witness :
  (hasSoundDetected (fst (run (session (new deafOptions)) loudThenSilent)) = false
   /\ signals (snd (run (session (new deafOptions)) loudThenSilent)) = 0%nat)
  /\ (counter (fst (run (session (new restlessOptions)) loudThenSilent)) = 0%Z
      /\ signals (snd (run (session (new restlessOptions)) loudThenSilent))
         = 0%nat)
  /\ signals (snd (run (session (new (mkOptions None None true false false)))
                     loudThenSilent)) = 1%nat.
Proof.
  assert (Hv : forall v, In v (volumes loudThenSilent) -> measurable v).
  { intros v Hin.
    change (volumes loudThenSilent) with (255 :: repeat 0 20) in Hin.
    destruct Hin as [<- | Hin].
    - exists [Byte.xff], (session (new noOptions)).
      split; [discriminate | reflexivity].
    - apply repeat_spec in Hin. subst v.
      exists [Byte.x00], (session (new noOptions)).
      split; [discriminate | reflexivity]. }
  split; [| split].
  - apply (proj1 (deaf_out_of_range (new deafOptions) loudThenSilent Hv)).
    reflexivity.
  - apply (proj2 (deaf_out_of_range (new restlessOptions) loudThenSilent Hv)).
    discriminate.
  - vm_compute. reflexivity.
Defined.

End Session.

(* ------------------------------------------------------------------------- *)
(** ** Speech playback: the queue, the settings, and the orchestrator's view *)

Module Playback.
Import Text Speech.

Ltac run_eff :=
  cbv [bind ret gets modify emit throw when state effects completion
       cancel processQueue enqueue utteranceStarted utteranceEnded
       utteranceFailed pause resume setVoice updateSettings step];
  cbn.

(** What a call of [speak] with a text that is not blank does. *)
Lemma speak_eq voices text s :
  isBlank text = false ->
  speak voices text s
  = (Js.Normal tt,
     mk (Some (utteranceFor voices text s)) [] false
        (onStart s) (onEnd s) (onError s) (rate s) (pitch s) (volume s)
        (voiceName s),
     [SynthesisCancel; SynthesisSpeak (utteranceFor voices text s)]).
Proof.
  intros H. unfold speak. rewrite H. destruct s. reflexivity.
Qed.

Lemma not_blank_not_empty text : isBlank text = false -> isEmpty text = false.
Proof. unfold isBlank. now destruct (isEmpty text). Qed.

Lemma speak_blank voices text s :
  isBlank text = true -> speak voices text s = (Js.Normal tt, s, []).
Proof. intros H. unfold speak. now rewrite H. Qed.

Lemma speak_view voices text s :
  TextToSpeech.speak text (view s)
  = (completion (speak voices text s),
     view (state (speak voices text s)),
     viewEffects (effects (speak voices text s))).
Proof.
  unfold speak, TextToSpeech.speak, isBlank.
  destruct (isEmpty text || (length (trim text) =? 0)%nat); destruct s;
    reflexivity.
Qed.

Local Opaque speak.

(** With nothing waiting, the browser's events speak nothing and leave the
    queue empty. *)
Lemma browser_event_on_empty_queue voices s ev :
  queue s = [] -> isBrowserEvent ev = true ->
  queue (fst (step voices s ev)) = []
  /\ spoken (snd (step voices s ev)) = [].
Proof.
  intros Hq Hev. destruct s as [u q sp c1 c2 c3 r p v n]. simpl in Hq. subst q.
  destruct ev; try discriminate; run_eff.
  - destruct c1; now split.
  - destruct c2; now split.
  - destruct c3; now split.
Qed.

Lemma spoken_app l1 l2 : spoken (l1 ++ l2) = spoken l1 ++ spoken l2.
Proof. unfold spoken. now rewrite flat_map_app. Qed.

Lemma browser_events_on_empty_queue voices evs : forall s,
  queue s = [] -> forallb isBrowserEvent evs = true ->
  queue (fst (run voices s evs)) = []
  /\ spoken (snd (run voices s evs)) = [].
Proof.
  induction evs as [|ev evs IH]; intros s Hq Hev; [now split|].
  cbn [run]. simpl in Hev. apply andb_true_iff in Hev as [H1 H2].
  destruct (browser_event_on_empty_queue voices s ev Hq H1) as [G1 G2].
  destruct (step voices s ev) as [s1 l1]. cbn [fst snd] in *.
  destruct (IH s1 G1 H2) as [K1 K2].
  destruct (run voices s1 evs) as [s2 l2]. cbn [fst snd] in *.
  now rewrite spoken_app, G2, K2.
Qed.

(** X9 (the queue keeps only its head).  When an utterance ends, or fails,
    while texts are waiting, the first of them is spoken, if it is not
    blank, and all the others are dropped: [speak] cancels, and [cancel]
    empties the queue.  Whatever the browser reports afterwards, none of the
    dropped texts is ever spoken. *)
Theorem queue_keeps_only_head (voices : list Str) (s : t) (next : Str)
  (rest : list Str) (error : Str) (evs : list Event) :
  queue s = next :: rest ->
  isBlank next = false ->
  forallb isBrowserEvent evs = true ->
  spoken (snd (run voices s (Ended :: evs))) = [next]
  /\ queue (fst (run voices s (Ended :: evs))) = []
  /\ spoken (snd (run voices s (Failed error :: evs))) = [next]
  /\ queue (fst (run voices s (Failed error :: evs))) = [].
Proof.
  intros Hq Hb Hev.
  assert (H : forall ev, ev = Ended \/ ev = Failed error ->
            queue (fst (step voices s ev)) = []
            /\ spoken (snd (step voices s ev)) = [next]).
  { intros ev Hcase.
    destruct s as [u q sp c1 c2 c3 r p v n]. simpl in Hq. subst q.
    pose proof (not_blank_not_empty next Hb) as He.
    destruct next as [|a next]; [discriminate|].
    destruct Hcase as [-> | ->]; run_eff;
      [destruct c2 | destruct c3]; cbn;
      rewrite speak_eq by exact Hb; cbn; now split. }
  assert (G : forall ev, ev = Ended \/ ev = Failed error ->
            spoken (snd (run voices s (ev :: evs))) = [next]
            /\ queue (fst (run voices s (ev :: evs))) = []).
  { intros ev Hcase. destruct (H ev Hcase) as [H1 H2]. cbn [run].
    destruct (step voices s ev) as [s1 l1]. cbn [fst snd] in *.
    destruct (browser_events_on_empty_queue voices evs s1 H1 Hev) as [K1 K2].
    destruct (run voices s1 evs) as [s2 l2]. cbn [fst snd] in *.
    now rewrite spoken_app, H2, K2. }
  destruct (G Ended (or_introl eq_refl)) as [A1 A2].
  destruct (G (Failed error) (or_intror eq_refl)) as [B1 B2].
  repeat split; assumption.
Qed.

Lemma queue_keeps_only_head_witness :
  spoken (snd (run []
                 (fst (run [] (new (mkOptions None None None None true true true))
                         [Speak (str "one"); Started; Enqueue (str "two");
                          Enqueue (str "three"); Enqueue (str "four")]))
                 (Ended :: [Started; Ended; Started; Ended])))
  = [str "two"].
Proof.
  refine (proj1 (queue_keeps_only_head []
                   (fst (run [] (new (mkOptions None None None None true true true))
                           [Speak (str "one"); Started; Enqueue (str "two");
                            Enqueue (str "three"); Enqueue (str "four")]))
                   (str "two") [str "three"; str "four"] (str "interrupted")
                   [Started; Ended; Started; Ended] _ _ _));
    vm_compute; reflexivity.
Defined.

(** X10 (enqueue).  While the object is speaking, [enqueue] only appends
    the text to the queue.  While it is not, and nothing waits, [enqueue] of
    a text that is not blank is [speak]: it cancels whatever utterance was
    handed to the browser and not yet started; and [enqueue] of a blank text
    changes nothing and drops the text. *)
Theorem enqueue_speaks_or_waits (voices : list Str) (text : Str) (s : t) :
  (isSpeaking s = true ->
   enqueue voices text s = (Js.Normal tt, withQueue (queue s ++ [text]) s, []))
  /\ (isSpeaking s = false -> queue s = [] -> isBlank text = false ->
      enqueue voices text s = speak voices text s)
  /\ (isSpeaking s = false -> queue s = [] -> isBlank text = true ->
      enqueue voices text s = (Js.Normal tt, s, [])).
Proof.
  destruct s as [u q sp c1 c2 c3 r p v n]. cbn [isSpeaking queue].
  split; [| split].
  - intros ->. run_eff. reflexivity.
  - intros -> -> Hb. pose proof (not_blank_not_empty text Hb) as He.
    destruct text as [|a text]; [discriminate|].
    run_eff. rewrite !speak_eq by exact Hb. reflexivity.
  - intros -> -> Hb. destruct text as [|a text]; run_eff; [reflexivity|].
    now rewrite speak_blank by exact Hb.
Qed.

Lemma enqueue_speaks_or_waits_witness :
  enqueue [] (str "two")
    (fst (run [] (new (mkOptions None None None None true true true))
            [Enqueue (str "one"); Started]))
  = (Js.Normal tt,
     withQueue [str "two"]
       (fst (run [] (new (mkOptions None None None None true true true))
               [Enqueue (str "one"); Started])),
     [])
  /\ enqueue [] (str "two")
       (fst (run [] (new (mkOptions None None None None true true true))
               [Enqueue (str "one")]))
     = speak [] (str "two")
         (fst (run [] (new (mkOptions None None None None true true true))
                 [Enqueue (str "one")])).
Proof.
  split.
  - apply (proj1 (enqueue_speaks_or_waits [] (str "two")
                    (fst (run [] (new (mkOptions None None None None
                                                 true true true))
                            [Enqueue (str "one"); Started])))).
    vm_compute. reflexivity.
  - apply (proj1 (proj2 (enqueue_speaks_or_waits [] (str "two")
                           (fst (run [] (new (mkOptions None None None None
                                                        true true true))
                                   [Enqueue (str "one")])))));
      vm_compute; reflexivity.
Defined.



(** X12 (what the orchestrator sees).  What [speak] and [cancel] do to the
    queue, the speaking flag and the text of the current utterance, and what
    they ask of the browser, depends neither on the voice settings nor on
    the voices on offer nor on the callbacks: it is what the three-field
    view of the class does. *)
Theorem orchestrator_view (voices : list Str) (text : Str) (s : t) :
  TextToSpeech.speak text (view s)
  = (completion (speak voices text s),
     view (state (speak voices text s)),
     viewEffects (effects (speak voices text s)))
  /\ TextToSpeech.cancel (view s)
     = (completion (cancel s), view (state (cancel s)),
        viewEffects (effects (cancel s))).
Proof.
  split; [apply speak_view | now destruct s].
Qed.

End Playback.

(* ------------------------------------------------------------------------- *)
(** ** The conversation: failures, dead ends, restarts and the transcript *)

Module Conversation.
Import Text VoiceChat.

Ltac step_eff :=
  cbv [bind ret gets modify emit throw when tryCatch
       clearListeningTimeout appendMessage onSpeechError onTextError].

(** X13 (failure recovery).  When the transcription or the response fails,
    by a rejected request, a body without [success], or a missing or empty
    text, the handler ends: it reports the failure, sets the state to idle
    and clears the guard, touches neither the transcript nor the recorder,
    calls no service, and, in the voice path, arms the timer that restarts
    listening exactly when the conversation was active.  A failure of the
    speech synthesis leaves the component in the same state, and arms no
    timer. *)
Theorem failure_recovers (c : Render) (now : Str) (s : t)
  (transcription : SttReply) (response : LlmReply) :
  sttFails transcription = true ->
  llmFails response = true ->
  sttReplied c now transcription s = (Js.Normal None, failed s, failureEffects c)
  /\ llmReplied c now response s = (Js.Normal None, failed s, failureEffects c)
  /\ textLlmReplied c now response s
     = (Js.Normal None, failed s,
        [ToastError "Failed to process your message"])
  /\ speechFailed s
     = (Js.Normal tt, failed s, [ToastError "Speech synthesis error"]).
Proof.
  intros Hs Hl. unfold failed, failureEffects.
  split; [| split; [| split; [| reflexivity]]].
  - destruct transcription as [|[] [[|a text]|]]; try discriminate;
      unfold sttReplied; step_eff; destruct (rIsActive c); reflexivity.
  - destruct response as [|[] [[|a text]|]]; try discriminate;
      unfold llmReplied; step_eff; destruct (rIsActive c); reflexivity.
  - destruct response as [|[] [[|a text]|]]; try discriminate;
      unfold textLlmReplied; step_eff; reflexivity.
Qed.

Lemma failure_recovers_witness :
  sttReplied listeningRender (str "2026") SttRejected
             (started (listeningWith 2500))
  = (Js.Normal None, failed (started (listeningWith 2500)),
     [ToastError "Failed to process your message";
      SetTimeout RestartListening 1000]).
Proof.
  apply (proj1 (failure_recovers listeningRender (str "2026")
                  (started (listeningWith 2500)) SttRejected LlmRejected
                  eq_refl eq_refl)).
Defined.

(** *** [startListening] *)

Lemma startListening_spec c cfg timer s :
  startListening c cfg timer s
  = if recordingNow s || isProcessingRef s
    then (Js.Normal tt, s, [])
    else (Js.Normal tt, listeningFor cfg timer s, listenEffects c).
Proof.
  unfold startListening, listeningFor, listenEffects. step_eff.
  destruct (recordingNow s); [reflexivity|].
  destruct (isProcessingRef s); reflexivity.
Qed.

Lemma blank_is_silent response :
  trim response = [] -> forall u,
  TextToSpeech.speak response u = (Js.Normal tt, u, []).
Proof.
  intros H u. unfold TextToSpeech.speak. rewrite H. cbn.
  now rewrite orb_true_r.
Qed.

Lemma set_same_tts s u : ttsRef s = Some u -> setTtsRef (Some u) s = s.
Proof. destruct s; simpl; now intros ->. Qed.

(** A blank response passes through [ttsRef.current?.speak(...)] without a
    trace. *)
Lemma onTts_blank response s :
  trim response = [] ->
  onTts (TextToSpeech.speak response) s
  = (Js.Normal (match ttsRef s with Some _ => Some tt | None => None end), s, []).
Proof.
  intros H. unfold onTts. destruct (ttsRef s) as [u|] eqn:E; [| reflexivity].
  rewrite (blank_is_silent response H u). cbn. now rewrite set_same_tts.
Qed.

(** A response that is not blank is spoken, after a cancel. *)
Lemma onTts_speaks response s u :
  trim response <> [] ->
  ttsRef s = Some u ->
  onTts (TextToSpeech.speak response) s
  = (Js.Normal (Some tt),
     setTtsRef (Some (TextToSpeech.mk [] false (Some response))) s,
     [Speech TextToSpeech.SynthesisCancel;
      Speech (TextToSpeech.SynthesisSpeak response)]).
Proof.
  intros H E. unfold onTts, TextToSpeech.speak. rewrite E.
  destruct response as [|a text]; [now elim H|].
  destruct (trim (a :: text)) as [|b rest]; [now elim H|].
  reflexivity.
Qed.

(** *** The transcript *)

Lemma grows_refl n s : grows n s s.
Proof. exists []. rewrite app_nil_r. split; [reflexivity | simpl; lia]. Qed.

Lemma grows_same n s s' : conversation s' = conversation s -> grows n s s'.
Proof.
  intros H. exists []. rewrite app_nil_r. split; [exact H | simpl; lia].
Qed.

Lemma grows_trans n m a b c :
  grows n a b -> grows m b c -> grows (n + m) a c.
Proof.
  intros (l1 & E1 & L1) (l2 & E2 & L2). exists (l1 ++ l2).
  rewrite E2, E1, <- app_assoc, length_app. split; [reflexivity | lia].
Qed.

Lemma handleSilenceDetected_grows c s :
  grows 1 s (state (handleSilenceDetected c s)).
Proof.
  rewrite Orchestrator.handleSilenceDetected_spec.
  destruct (isProcessingRef s); [apply grows_refl|].
  destruct (currentAudio s) as [blob|]; [| apply grows_refl].
  destruct (Js.size blob <? minimumAudioSize)%Z; [apply grows_refl|].
  now apply grows_same.
Qed.

Lemma listeningTimedOut_grows c s :
  grows 1 s (state (listeningTimedOut c s)).
Proof.
  rewrite Orchestrator.listeningTimedOut_spec.
  destruct (rVoiceState c); try apply grows_refl.
  apply handleSilenceDetected_grows.
Qed.

Lemma handleTextSubmit_grows c now s :
  grows 1 s (state (handleTextSubmit c now s)).
Proof.
  rewrite Orchestrator.handleTextSubmit_spec.
  destruct (isEmpty (trim (rTextInput c)) || isProcessingRef s);
    [apply grows_refl|].
  exists [mkMessage user (trim (rTextInput c)) now]. split; [reflexivity|].
  simpl; lia.
Qed.

Lemma sttReplied_grows c now reply s :
  grows 1 s (state (sttReplied c now reply s)).
Proof.
  destruct (sttFails reply) eqn:F.
  - destruct reply as [|[] [[|a text]|]]; try discriminate;
      unfold sttReplied; step_eff; destruct (rIsActive c);
      now apply grows_same.
  - destruct reply as [|[] [[|a text]|]]; try discriminate.
    destruct (matchesStopCommand (toLowerCase (trim (a :: text)))) eqn:E.
    + unfold Str in *. rewrite (Orchestrator.sttReplied_stop c now a text s E).
      now apply grows_same.
    + unfold sttReplied. cbv zeta. rewrite E. step_eff.
      exists [mkMessage user (trim (a :: text)) now].
      destruct (rOnConversationUpdate c), s; cbn; split; auto.
Qed.

Lemma onTts_conversation {A} (method : Eff TextToSpeech.t TextToSpeech.Effect A) s :
  conversation (state (onTts method s)) = conversation s.
Proof.
  unfold onTts. destruct (ttsRef s) as [u|]; [| reflexivity].
  destruct (method u) as [[cmp u'] l]. reflexivity.
Qed.

Lemma llmReplied_grows c now reply s :
  grows 1 s (state (llmReplied c now reply s)).
Proof.
  destruct (llmFails reply) eqn:F.
  - destruct reply as [|[] [[|a text]|]]; try discriminate;
      unfold llmReplied; step_eff; destruct (rIsActive c);
      now apply grows_same.
  - destruct reply as [|[] [[|a text]|]]; try discriminate.
    exists [mkMessage assistant (a :: text) now]. split; [| simpl; lia].
    unfold llmReplied. step_eff.
    destruct (rOnConversationUpdate c), (rTtsEnabled c && negb (rIsMuted c));
      cbn; try (destruct s; reflexivity);
      match goal with
      | |- context [onTts ?m ?x] =>
          pose proof (onTts_conversation m x) as Hc;
          unfold state in Hc;
          destruct (onTts m x) as [[[v|msg] x'] l]; cbn in *;
          try (destruct (rIsActive c)); cbn; destruct x'; cbn in *;
          rewrite ?Hc; destruct s; reflexivity
      end.
Qed.

Lemma textLlmReplied_grows c now reply s :
  grows 1 s (state (textLlmReplied c now reply s)).
Proof.
  destruct (llmFails reply) eqn:F.
  - destruct reply as [|[] [[|a text]|]]; try discriminate;
      unfold textLlmReplied; step_eff; now apply grows_same.
  - destruct reply as [|[] [[|a text]|]]; try discriminate.
    exists [mkMessage assistant (a :: text) now]. split; [| simpl; lia].
    unfold textLlmReplied. step_eff.
    destruct (rOnConversationUpdate c), (rTtsEnabled c && negb (rIsMuted c));
      cbn; try (destruct s; reflexivity);
      match goal with
      | |- context [onTts ?m ?x] =>
          pose proof (onTts_conversation m x) as Hc;
          unfold state in Hc;
          destruct (onTts m x) as [[[v|msg] x'] l]; cbn in *;
          destruct x'; cbn in *;
          rewrite ?Hc; destruct s; reflexivity
      end.
Qed.

Lemma dispatch_grows sys ev :
  grows 1 (app sys) (app (fst (dispatch sys ev))).
Proof.
  destruct ev as [c | c | c now | n reply now | n reply now]; cbn.
  - apply handleSilenceDetected_grows.
  - apply listeningTimedOut_grows.
  - apply handleTextSubmit_grows.
  - destruct (nth_error (inflight sys) n) as [[c|c|c]|];
      try apply grows_refl.
    apply sttReplied_grows.
  - destruct (nth_error (inflight sys) n) as [[c|c|c]|];
      try apply grows_refl.
    + apply llmReplied_grows.
    + apply textLlmReplied_grows.
Qed.

(** X20 (the transcript only grows).  Whatever triggers and replies arrive,
    in whatever order, the handlers only append to the transcript, at most
    one message per event: what was said stays, in its order. *)
Theorem transcript_only_grows (sys : System) (evs : list Event) :
  exists added,
    conversation (app (fst (play sys evs))) = conversation (app sys) ++ added
    /\ (length added <= length evs)%nat.
Proof.
  change (grows (length evs) (app sys) (app (fst (play sys evs)))).
  revert sys. induction evs as [|ev evs IH]; intros sys.
  - apply grows_refl.
  - cbn [play length].
    pose proof (dispatch_grows sys ev) as H1.
    destruct (dispatch sys ev) as [sys1 l1]. cbn [fst] in H1.
    specialize (IH sys1).
    destruct (play sys1 evs) as [sys2 l2]. cbn [fst] in *.
    exact (grows_trans 1 (length evs) _ _ _ H1 IH).
Qed.

Local Opaque onTts.

(** X14 (a blank response hangs the conversation).  When the response is
    not empty but consists of white space and speech is on, both the voice
    and the text handler append it and hand it to [speak], which returns at
    once: nothing is spoken, no timer is armed, the state and the guard stay
    as they are.  With the guard set, as it is throughout a cycle, every
    trigger and [startListening] are then without effect. *)
Theorem blank_response_hangs (c : Render) (now response : Str) (s : t) :
  response <> [] ->
  trim response = [] ->
  rTtsEnabled c && negb (rIsMuted c) = true ->
  isProcessingRef s = true ->
  forall r,
    r = llmReplied c now (LlmJson true (Some response)) s
    \/ r = textLlmReplied c now (LlmJson true (Some response)) s ->
    completion r = Js.Normal None
    /\ filter isSpeech (effects r) = []
    /\ filter isTimer (effects r) = []
    /\ voiceState (state r) = voiceState s
    /\ isProcessingRef (state r) = true
    /\ (forall c', handleSilenceDetected c' (state r)
                   = (Js.Normal None, state r, []))
    /\ (forall c', listeningTimedOut c' (state r)
                   = (Js.Normal None, state r, []))
    /\ (forall c' now', handleTextSubmit c' now' (state r)
                        = (Js.Normal None, state r, [PreventDefault]))
    /\ (forall c' cfg timer, startListening c' cfg timer (state r)
                          = (Js.Normal tt, state r, [])).
Proof.
  intros Hne Hblank Htts Hbusy r Hr.
  destruct response as [|a text]; [congruence|].
  assert (H : completion r = Js.Normal None
              /\ filter isSpeech (effects r) = []
              /\ filter isTimer (effects r) = []
              /\ voiceState (state r) = voiceState s
              /\ isProcessingRef (state r) = true).
  { destruct Hr as [-> | ->].
    - unfold llmReplied. rewrite Htts. step_eff.
      destruct (rOnConversationUpdate c); cbn;
        rewrite (onTts_blank (a :: text) _ Hblank);
        destruct s; cbn in *; subst; repeat split.
    - unfold textLlmReplied. rewrite Htts. step_eff.
      destruct (rOnConversationUpdate c); cbn;
        rewrite (onTts_blank (a :: text) _ Hblank);
        destruct s; cbn in *; subst; repeat split. }
  destruct H as (H1 & H2 & H3 & H4 & H5).
  repeat split; auto.
  - intros c'. now rewrite Orchestrator.handleSilenceDetected_spec, H5.
  - intros c'. rewrite Orchestrator.listeningTimedOut_spec,
      Orchestrator.handleSilenceDetected_spec, H5.
    now destruct (rVoiceState c').
  - intros c' now'. rewrite Orchestrator.handleTextSubmit_spec, H5.
    now rewrite orb_true_r.
  - intros c' cfg timer. rewrite startListening_spec, H5.
    now rewrite orb_true_r.
Qed.

Lemma blank_response_hangs_witness :
  voiceState (state (llmReplied listeningRender (str "2026")
                       (LlmJson true (Some (str " "))) busy)) = processing
  /\ isProcessingRef (state (llmReplied listeningRender (str "2026")
                               (LlmJson true (Some (str " "))) busy)) = true.
Proof.
  pose proof (blank_response_hangs listeningRender (str "2026") (str " ") busy
                ltac:(discriminate) eq_refl eq_refl eq_refl _
                (or_introl eq_refl)) as H.
  exact (conj (proj1 (proj2 (proj2 (proj2 H))))
              (proj1 (proj2 (proj2 (proj2 (proj2 H)))))).
Defined.

(** X15 (the reply with speech off leaves nobody listening).  With speech
    off or muted, a good response arms the 500 ms timer whose callback,
    while the conversation is active, shows the listening state and calls
    [startListening] before it clears the guard: the guard set by the cycle
    makes that call return at once, so no recorder is built, no microphone
    requested and no safety timer armed, while the component shows
    [listening]. *)
Theorem reply_without_speech_never_listens (cfg : Listening) (timer : nat)
  (c : Render) (now : Str) (reply : LlmReply) (s : t) :
  llmFails reply = false ->
  rTtsEnabled c && negb (rIsMuted c) = false ->
  rIsActive c = true ->
  isProcessingRef s = true ->
  filter isTimer (effects (llmReplied c now reply s))
  = [SetTimeout (ResumeOrIdle true) 500]
  /\ runCallback c cfg timer (ResumeOrIdle true)
       (state (llmReplied c now reply s))
     = (Js.Normal tt,
        setIsProcessingRef false
          (setVoiceState listening (state (llmReplied c now reply s))),
        []).
Proof.
  intros Hok Htts Hact Hbusy.
  destruct reply as [|[] [[|a text]|]]; try discriminate.
  assert (H : filter isTimer (effects (llmReplied c now
                                         (LlmJson true (Some (a :: text))) s))
              = [SetTimeout (ResumeOrIdle true) 500]
              /\ isProcessingRef (state (llmReplied c now
                                           (LlmJson true (Some (a :: text))) s))
                 = true).
  { unfold llmReplied. rewrite Htts, Hact. step_eff.
    destruct (rOnConversationUpdate c), s; cbn in *; subst; split; reflexivity. }
  destruct H as [H1 H2]. split; [exact H1|].
  unfold runCallback. unfold bind at 1. unfold bind at 1.
  unfold modify at 1. rewrite startListening_spec.
  replace (isProcessingRef (setVoiceState listening _)) with true
    by (symmetry; exact H2).
  rewrite orb_true_r. reflexivity.
Qed.

Lemma reply_without_speech_never_listens_witness :
  runCallback (mkRender listening true [] [] true true
                        (str "session-1") false)
    (mkListening 20 1500) 7 (ResumeOrIdle true)
    (state (llmReplied (mkRender listening true [] [] true true
                                 (str "session-1") false)
                       (str "2026") (LlmJson true (Some (str "Hello"))) busy))
  = (Js.Normal tt,
     setIsProcessingRef false
       (setVoiceState listening
          (state (llmReplied (mkRender listening true [] [] true true
                                       (str "session-1") false)
                             (str "2026") (LlmJson true (Some (str "Hello")))
                             busy))),
     []).
Proof.
  apply (proj2 (reply_without_speech_never_listens (mkListening 20 1500) 7
                  (mkRender listening true [] [] true true
                            (str "session-1") false)
                  (str "2026") (LlmJson true (Some (str "Hello"))) busy
                  eq_refl eq_refl eq_refl eq_refl)).
Defined.

Lemma sttReplied_sends c now a text s :
  matchesStopCommand (toLowerCase (trim (a :: text))) = false ->
  sttReplied c now (SttJson true (Some (a :: text))) s
  = (Js.Normal (Some (AwaitLlm c)),
     setConversation
       (conversation s ++ [mkMessage user (trim (a :: text)) now])
       (transcribed (trim (a :: text)) s),
     (if rOnConversationUpdate c
      then [OnConversationUpdate
              (conversation s ++ [mkMessage user (trim (a :: text)) now])]
      else [])
     ++ [FetchLlm (trim (a :: text)) (rSessionId c) (rConversation c)]).
Proof.
  intros E. unfold sttReplied. cbv zeta. rewrite E. step_eff.
  destruct (rOnConversationUpdate c), s; reflexivity.
Qed.

Lemma llmReplied_speaks c now a text s u :
  trim (a :: text) <> [] ->
  rTtsEnabled c && negb (rIsMuted c) = true ->
  ttsRef s = Some u ->
  llmReplied c now (LlmJson true (Some (a :: text))) s
  = (Js.Normal None,
     setTextInput []
       (setCurrentTranscript []
          (setTtsRef (Some (TextToSpeech.mk [] false (Some (a :: text))))
             (setConversation
                (conversation s ++ [mkMessage assistant (a :: text) now]) s))),
     (if rOnConversationUpdate c
      then [OnConversationUpdate
              (conversation s ++ [mkMessage assistant (a :: text) now])]
      else [])
     ++ [Speech TextToSpeech.SynthesisCancel;
         Speech (TextToSpeech.SynthesisSpeak (a :: text))]).
Proof.
  intros Hne Htts E. unfold llmReplied. rewrite Htts. step_eff.
  destruct (rOnConversationUpdate c); cbn;
    rewrite (onTts_speaks (a :: text) _ u Hne) by (destruct s; exact E);
    reflexivity.
Qed.

Lemma filter_app_if {A} (f : A -> bool) (b : bool) (x : A) (l : list A) :
  f x = false ->
  filter f ((if b then [x] else []) ++ l) = filter f l.
Proof. intros H. destruct b; cbn; now rewrite ?H. Qed.

(** X16 (a spoken reply brings listening back).  A response that is not
    blank is appended and spoken; when the utterance starts the state is
    [speaking]; when it ends in an active conversation the guard is cleared
    and the 500 ms timer armed, and its callback, finding no recorder at
    work, builds a new recorder from the settings, asks for the microphone
    and arms the safety timer of 15 s. *)
Theorem spoken_reply_resumes_listening (cfg : Listening) (timer : nat)
  (c c' : Render) (now response : Str) (s : t) :
  trim response <> [] ->
  rTtsEnabled c && negb (rIsMuted c) = true ->
  ttsRef s <> None ->
  recordingNow s = false ->
  let r1 := llmReplied c now (LlmJson true (Some response)) s in
  let r2 := speechStarted (state r1) in
  let r3 := speechEnded true (state r2) in
  let r4 := runCallback c' cfg timer RestartListening (state r3) in
  filter isSpeech (effects r1)
  = [Speech TextToSpeech.SynthesisCancel;
     Speech (TextToSpeech.SynthesisSpeak response)]
  /\ voiceState (state r2) = speaking
  /\ effects r3 = [SetTimeout RestartListening 500]
  /\ effects r4 = listenEffects c'
  /\ voiceState (state r4) = listening
  /\ isProcessingRef (state r4) = false
  /\ audioRecorderRef (state r4)
     = Some (AudioRecorder.new (recorderOptions cfg))
  /\ listeningTimeoutRef (state r4) = Some timer
  /\ conversation (state r4)
     = conversation s ++ [mkMessage assistant response now].
Proof.
  intros Hne Htts Href Hrec.
  destruct (ttsRef s) as [u|] eqn:E; [clear Href | now elim Href].
  destruct response as [|a text]; [now elim Hne|].
  cbv zeta.
  pose proof (llmReplied_speaks c now a text s u Hne Htts E) as H1.
  unfold Str in *. rewrite H1. unfold state, effects. cbn [fst snd].
  split; [destruct (rOnConversationUpdate c); reflexivity|].
  unfold speechStarted, speechEnded, runCallback. step_eff. cbn [fst snd].
  rewrite startListening_spec.
  replace (recordingNow _) with false
    by (symmetry; destruct s; exact Hrec).
  cbn. repeat split.
Qed.

Lemma spoken_reply_resumes_listening_witness :
  effects (runCallback idleRender (mkListening 20 1500) 7 RestartListening
             (state (speechEnded true
                (state (speechStarted
                   (state (llmReplied listeningRender (str "2026")
                             (LlmJson true (Some (str "Hello"))) busy)))))))
  = listenEffects idleRender.
Proof.
  apply (proj1 (proj2 (proj2 (proj2
           (spoken_reply_resumes_listening (mkListening 20 1500) 7
              listeningRender idleRender (str "2026") (str "Hello") busy
              ltac:(discriminate) eq_refl ltac:(discriminate) eq_refl))))).
Defined.

(** X17 (the guard of [startListening] does not cover the wait for the
    microphone).  Until the microphone is granted the new recorder is not
    recording, so a second [startListening] builds another recorder, asks
    for the microphone again and arms a second safety timer; the handle of
    the first timer is overwritten without being cleared, and [handleStop]
    afterwards clears the second timer only. *)
Theorem second_start_before_grant (c c' : Render) (cfg : Listening)
  (first second : nat) (s : t) :
  recordingNow s = false ->
  isProcessingRef s = false ->
  first <> second ->
  let r1 := startListening c cfg first s in
  let r2 := startListening c' cfg second (state r1) in
  effects r1 = listenEffects c
  /\ effects r2 = listenEffects c'
  /\ listeningTimeoutRef (state r2) = Some second
  /\ In (ClearTimeout second) (effects (handleStop (state r2)))
  /\ ~ In (ClearTimeout first) (effects (handleStop (state r2))).
Proof.
  intros Hrec Hbusy Hne. cbv zeta.
  rewrite startListening_spec, Hrec, Hbusy. cbn [orb state effects fst snd].
  rewrite startListening_spec.
  replace (isProcessingRef (listeningFor cfg first s)) with false
    by (symmetry; destruct s; exact Hbusy).
  cbn [recordingNow listeningFor orb state effects fst snd].
  rewrite Orchestrator.handleStop_spec. cbn [effects snd].
  repeat split.
  - destruct s; cbn. now left.
  - destruct s; cbn. destruct ttsRef0; cbn; intros H;
      repeat (destruct H as [H | H]; [congruence || discriminate|]);
      exact H.
Qed.

Lemma second_start_before_grant_witness :
  listeningTimeoutRef
    (state (startListening idleRender (mkListening 20 1500) 8
              (state (startListening idleRender (mkListening 20 1500) 7
                        (failed busy)))))
  = Some 8%nat.
Proof.
  apply (proj1 (proj2 (proj2
           (second_start_before_grant idleRender idleRender
              (mkListening 20 1500) 7 8 (failed busy)
              eq_refl eq_refl ltac:(discriminate))))).
Defined.

Lemma stopped_not_recording s : recordingNow (stopped s) = false.
Proof.
  unfold recordingNow, stopped. cbn.
  destruct (audioRecorderRef s) as [r|]; [| reflexivity]. cbn.
  exact (proj1 (Capture.stopRecording_released r)).
Qed.

(** X18 (a stop during a failing cycle is undone).  [handleStop] leaves the
    suspended handler alone, and the handler still holds the [isActive] of
    its render: when its transcription then fails it arms the restart timer,
    and the callback of that timer, finding the guard clear and the recorder
    stopped, shows [listening] and asks for the microphone again although
    the conversation is no longer active. *)
Theorem stop_then_failure_reopens (cfg : Listening) (timer : nat)
  (c : Render) (now : Str) (reply : SttReply) (s : t) :
  rIsActive c = true ->
  sttFails reply = true ->
  let r1 := sttReplied c now reply (state (handleStop s)) in
  let r2 := runCallback c cfg timer RestartListening (state r1) in
  filter isTimer (effects r1) = [SetTimeout RestartListening 1000]
  /\ effects r2 = listenEffects c
  /\ isActive (state r2) = false
  /\ voiceState (state r2) = listening
  /\ audioRecorderRef (state r2)
     = Some (AudioRecorder.new (recorderOptions cfg)).
Proof.
  intros Hact Hfail. cbv zeta.
  rewrite Orchestrator.handleStop_spec. cbn [state fst snd].
  assert (H1 : sttReplied c now reply (stopped s)
               = (Js.Normal None, failed (stopped s), failureEffects c)).
  { destruct reply as [|[] [[|a text]|]]; try discriminate;
      unfold sttReplied, failed, failureEffects; step_eff;
      rewrite Hact; reflexivity. }
  rewrite H1. cbn [state effects fst snd].
  unfold failureEffects. rewrite Hact.
  split; [reflexivity|].
  unfold runCallback. step_eff. rewrite startListening_spec.
  replace (recordingNow _) with false
    by (symmetry; exact (stopped_not_recording s)).
  cbn. repeat split.
Qed.

Lemma stop_then_failure_reopens_witness :
  effects (runCallback listeningRender (mkListening 20 1500) 7
             RestartListening
             (state (sttReplied listeningRender (str "2026") SttRejected
                       (state (handleStop (started (listeningWith 2500)))))))
  = listenEffects listeningRender.
Proof.
  apply (proj1 (proj2
           (stop_then_failure_reopens (mkListening 20 1500) 7 listeningRender
              (str "2026") SttRejected (started (listeningWith 2500))
              eq_refl eq_refl))).
Defined.

(** X19 (a stop does not cancel the cycle under way).  After [handleStop]
    the handler suspended at the transcription resumes as if nothing had
    happened: a transcription that is no stop command is appended and sent
    to the response service, and the response is appended and spoken,
    while the conversation stays inactive and idle. *)
Theorem stop_does_not_cancel_cycle (c : Render) (now now' text response : Str)
  (s : t) :
  text <> [] ->
  matchesStopCommand (toLowerCase (trim text)) = false ->
  trim response <> [] ->
  rTtsEnabled c && negb (rIsMuted c) = true ->
  ttsRef s <> None ->
  let sys := mkSystem (state (handleStop s)) [AwaitStt c] in
  let r := play sys [SttReplies 0 (SttJson true (Some text)) now;
                     LlmReplies 0 (LlmJson true (Some response)) now'] in
  filter isServiceCall (snd r)
  = [FetchLlm (trim text) (rSessionId c) (rConversation c)]
  /\ filter isSpeech (snd r)
     = [Speech TextToSpeech.SynthesisCancel;
        Speech (TextToSpeech.SynthesisSpeak response)]
  /\ conversation (app (fst r))
     = conversation s ++ [mkMessage user (trim text) now;
                          mkMessage assistant response now']
  /\ isActive (app (fst r)) = false
  /\ voiceState (app (fst r)) = idle
  /\ inflight (fst r) = [].
Proof.
  intros Htext Hcmd Hresp Htts Href. cbv zeta.
  rewrite Orchestrator.handleStop_spec. cbn [state fst snd].
  destruct text as [|a text]; [now elim Htext|].
  destruct response as [|b response]; [now elim Hresp|].
  destruct (ttsRef s) as [u|] eqn:E; [clear Href | now elim Href].
  pose proof (sttReplied_sends c now a text (stopped s) Hcmd) as H1.
  assert (E' : ttsRef (setConversation
                         (conversation (stopped s)
                          ++ [mkMessage user (trim (a :: text)) now])
                         (transcribed (trim (a :: text)) (stopped s)))
               = Some (TextToSpeech.mk [] false None)).
  { cbn. now rewrite E. }
  pose proof (llmReplied_speaks c now' b response _ _ Hresp Htts E') as H2.
  unfold Str in *.
  cbn [play dispatch inflight app nth_error].
  rewrite H1. unfold settle at 1.
  cbn [completion state effects fst snd without firstn skipn List.app
       inflight app nth_error].
  rewrite H2. unfold settle.
  cbn [completion state effects fst snd without firstn skipn List.app
       inflight app nth_error].
  rewrite !H2.
  cbn [completion state effects fst snd].
  rewrite app_nil_r, <- !app_assoc.
  rewrite !filter_app_if by reflexivity.
  cbn [filter isServiceCall isSpeech List.app].
  rewrite !filter_app_if by reflexivity.
  cbn. rewrite <- app_assoc. repeat split.
Qed.

Lemma stop_does_not_cancel_cycle_witness :
  filter isSpeech
    (snd (play (mkSystem (state (handleStop (started (listeningWith 2500))))
                         [AwaitStt listeningRender])
               [SttReplies 0 (SttJson true (Some (str "hello there")))
                           (str "2026");
                LlmReplies 0 (LlmJson true (Some (str "Hi"))) (str "2027")]))
  = [Speech TextToSpeech.SynthesisCancel;
     Speech (TextToSpeech.SynthesisSpeak (str "Hi"))].
Proof.
  apply (proj1 (proj2
           (stop_does_not_cancel_cycle listeningRender (str "2026")
              (str "2027") (str "hello there") (str "Hi")
              (started (listeningWith 2500))
              ltac:(discriminate) eq_refl ltac:(discriminate) eq_refl
              ltac:(discriminate)))).
Defined.

(** X21 (a stop lets a second cycle in).  [handleStop] clears the guard
    while a handler is suspended, so a text submitted next starts a cycle of
    its own: two handlers are then suspended at once. *)
Theorem stop_lets_second_cycle_in (sys : System) (p : Pending) (c : Render)
  (now : Str) :
  inflight sys = [p] ->
  isEmpty (trim (rTextInput c)) = false ->
  inflight (fst (dispatch (stopSystem sys) (TextSubmit c now)))
  = [p; AwaitLlmText c]
  /\ isProcessingRef (app (fst (dispatch (stopSystem sys) (TextSubmit c now))))
     = true.
Proof.
  intros Hin Htext. unfold stopSystem. cbn [dispatch app inflight].
  rewrite Orchestrator.handleStop_spec. cbn [state fst snd].
  rewrite Orchestrator.handleTextSubmit_spec, Htext, Hin.
  cbn. split; reflexivity.
Qed.

Lemma stop_lets_second_cycle_in_witness :
  inflight (fst (dispatch
                   (stopSystem (mkSystem (started (listeningWith 2500))
                                         [AwaitStt listeningRender]))
                   (TextSubmit (mkRender idle false [] (str "hi") false true
                                         (str "session-1") false)
                               (str "2026"))))
  = [AwaitStt listeningRender;
     AwaitLlmText (mkRender idle false [] (str "hi") false true
                            (str "session-1") false)].
Proof.
  apply (proj1 (stop_lets_second_cycle_in
                  (mkSystem (started (listeningWith 2500))
                            [AwaitStt listeningRender])
                  (AwaitStt listeningRender)
                  (mkRender idle false [] (str "hi") false true
                            (str "session-1") false)
                  (str "2026") eq_refl eq_refl)).
Defined.

(** X22 (the safety timer of a start never acts).  [handleStart] shows
    [listening], reports the start and, with no recorder at work and the
    guard clear, asks for the microphone and arms the safety timer; the
    callback of that timer tests the [voiceState] of the render that
    [handleStart] belongs to, so started from a render that is not
    [listening] the timer does nothing when it fires, whatever the component
    is doing by then. *)
Theorem start_arms_a_dead_timer (c : Render) (cfg : Listening) (timer : nat)
  (s : t) :
  rVoiceState c <> listening ->
  recordingNow s = false ->
  isProcessingRef s = false ->
  effects (handleStart c cfg timer s)
  = Did (ToastSuccess "🎤 Voice chat active - Speak & pause to auto-send")
    :: listenEffects c
  /\ voiceState (state (handleStart c cfg timer s)) = listening
  /\ isActive (state (handleStart c cfg timer s)) = true
  /\ listeningTimeoutRef (state (handleStart c cfg timer s)) = Some timer
  /\ forall s', listeningTimedOut c s' = (Js.Normal None, s', []).
Proof.
  intros Hvs Hrec Hbusy.
  assert (H : handleStart c cfg timer s
              = (Js.Normal tt,
                 listeningFor cfg timer
                   (setVoiceState listening (setIsActive true s)),
                 Did (ToastSuccess
                        "🎤 Voice chat active - Speak & pause to auto-send")
                 :: listenEffects c)).
  { unfold handleStart. step_eff. rewrite startListening_spec.
    replace (recordingNow _) with false by (symmetry; destruct s; exact Hrec).
    replace (isProcessingRef _) with false
      by (symmetry; destruct s; exact Hbusy).
    reflexivity. }
  rewrite H. cbn [state effects fst snd]. repeat split.
  intros s'. rewrite Orchestrator.listeningTimedOut_spec.
  destruct (rVoiceState c); try reflexivity. now elim Hvs.
Qed.

Lemma start_arms_a_dead_timer_witness :
  effects (handleStart idleRender (mkListening 20 1500) 7 (failed busy))
  = Did (ToastSuccess "🎤 Voice chat active - Speak & pause to auto-send")
    :: listenEffects idleRender.
Proof.
  apply (proj1 (start_arms_a_dead_timer idleRender (mkListening 20 1500) 7
                  (failed busy) ltac:(discriminate) eq_refl eq_refl)).
Defined.

(** X23 (clearing the transcript does not reach a cycle under way).
    [clearConversation] empties the transcript, but the handler suspended at
    the transcription still holds the transcript of its render: resumed, it
    appends the user's message to the empty transcript and sends the
    transcript of before the clearing to the response service as history. *)
Theorem clear_does_not_reach_cycle (c : Render) (now text : Str) (s : t) :
  text <> [] ->
  matchesStopCommand (toLowerCase (trim text)) = false ->
  let r := sttReplied c now (SttJson true (Some text))
             (state (clearConversation s)) in
  effects (clearConversation s) = [ToastSuccess "Conversation cleared"]
  /\ filter isServiceCall (effects r)
     = [FetchLlm (trim text) (rSessionId c) (rConversation c)]
  /\ conversation (state r) = [mkMessage user (trim text) now].
Proof.
  intros Hne Hcmd. cbv zeta.
  destruct text as [|a text]; [now elim Hne|].
  unfold Str in *.
  rewrite (sttReplied_sends c now a text _ Hcmd).
  cbn [state effects fst snd].
  rewrite filter_app_if by reflexivity.
  repeat split.
Qed.

Lemma clear_does_not_reach_cycle_witness :
  conversation
    (state (sttReplied
              (mkRender processing true
                        [mkMessage user (str "hi") (str "2025");
                         mkMessage assistant (str "Hello") (str "2025")]
                        [] false true (str "session-1") false)
              (str "2026") (SttJson true (Some (str "tell me more")))
              (state (clearConversation busy))))
  = [mkMessage user (str "tell me more") (str "2026")].
Proof.
  apply (proj2 (proj2
           (clear_does_not_reach_cycle
              (mkRender processing true
                        [mkMessage user (str "hi") (str "2025");
                         mkMessage assistant (str "Hello") (str "2025")]
                        [] false true (str "session-1") false)
              (str "2026") (str "tell me more") busy
              ltac:(discriminate) eq_refl))).
Defined.

End Conversation.

(* ------------------------------------------------------------------------- *)
(** ** Deduplication of the search results *)

Module Retrieval.
Import Text Rag.

Lemma Subsequence_refl {A} (l : list A) : Subsequence l l.
Proof. induction l; constructor; auto. Qed.

Lemma Subsequence_nil {A} (l : list A) : Subsequence [] l.
Proof. induction l; constructor; auto. Qed.

Lemma visit_extends threshold acc x :
  exists kept, visit threshold acc x = acc ++ kept
               /\ Subsequence kept [x].
Proof.
  unfold visit. destruct (isDuplicate threshold acc x).
  - exists []. rewrite app_nil_r. split; [reflexivity|].
    apply sub_drop, sub_nil.
  - exists [x]. split; [reflexivity|]. apply sub_keep, sub_nil.
Qed.

Lemma Subsequence_app {A} (a b c d : list A) :
  Subsequence a b -> Subsequence c d -> Subsequence (a ++ c) (b ++ d).
Proof.
  induction 1 as [|x a b Hab IH|x a b Hab IH]; intros Hcd; simpl.
  - exact Hcd.
  - apply sub_keep; auto.
  - apply sub_drop; auto.
Qed.

Lemma fold_extends threshold l : forall acc,
  exists kept, fold_left (visit threshold) l acc = acc ++ kept
               /\ Subsequence kept l.
Proof.
  induction l as [|x l IH]; intros acc; simpl.
  - exists []. rewrite app_nil_r. split; [reflexivity | constructor].
  - destruct (visit_extends threshold acc x) as (k1 & E1 & S1).
    destruct (IH (visit threshold acc x)) as (k2 & E2 & S2).
    exists (k1 ++ k2). rewrite E2, E1, app_assoc. split; [reflexivity|].
    exact (Subsequence_app k1 [x] k2 l S1 S2).
Qed.

Lemma distinct_snoc threshold acc x :
  distinct threshold acc ->
  isDuplicate threshold acc x = false ->
  distinct threshold (acc ++ [x]).
Proof.
  intros Hacc Hx before y after E.
  destruct (exists_last (l := y :: after)) as (middle & z & Ez);
    [discriminate|].
  rewrite Ez, app_assoc in E. apply app_inj_tail in E as [E <-].
  destruct middle as [|y' middle]; simpl in Ez.
  - injection Ez as <- _. rewrite app_nil_r in E. now subst.
  - injection Ez as <- Ez. exact (Hacc before y middle E).
Qed.

Lemma visit_distinct threshold acc x :
  distinct threshold acc -> distinct threshold (visit threshold acc x).
Proof.
  intros H. unfold visit.
  destruct (isDuplicate threshold acc x) eqn:E; [exact H|].
  now apply distinct_snoc.
Qed.

Lemma fold_distinct threshold l : forall acc,
  distinct threshold acc ->
  distinct threshold (fold_left (visit threshold) l acc).
Proof.
  induction l as [|x l IH]; intros acc H; simpl; [exact H|].
  apply IH. now apply visit_distinct.
Qed.

Lemma distinct_nil threshold : distinct threshold [].
Proof. intros [|b before] x after E; discriminate. Qed.

Lemma isDuplicate_more threshold acc more x :
  isDuplicate threshold acc x = true ->
  isDuplicate threshold (acc ++ more) x = true.
Proof.
  unfold isDuplicate. rewrite existsb_app. now intros ->.
Qed.

Lemma fold_covers threshold l : forall acc x,
  In x l ->
  In x (fold_left (visit threshold) l acc)
  \/ isDuplicate threshold (fold_left (visit threshold) l acc) x = true.
Proof.
  induction l as [|y l IH]; intros acc x Hin; [contradiction|].
  simpl. destruct Hin as [-> | Hin]; [| now apply IH].
  destruct (fold_extends threshold l (visit threshold acc x)) as (k & E & _).
  rewrite E. unfold visit.
  destruct (isDuplicate threshold acc x) eqn:D.
  - right. now apply isDuplicate_more.
  - left. rewrite <- app_assoc. apply in_or_app. right. now left.
Qed.

Lemma fold_of_distinct threshold l : forall acc,
  distinct threshold (acc ++ l) ->
  fold_left (visit threshold) l acc = acc ++ l.
Proof.
  induction l as [|x l IH]; intros acc H; simpl.
  - now rewrite app_nil_r.
  - unfold visit at 2. rewrite (H acc x l eq_refl).
    rewrite IH; rewrite <- app_assoc; [reflexivity | exact H].
Qed.

(** X24 (what deduplication keeps).  The results kept are a selection of
    the results given, in their order, that starts with the first of them;
    none of them is a duplicate of those kept before it, and every result
    given is kept or is a duplicate of one that is kept. *)
Theorem deduplicateResults_keeps (results : list Result) (threshold : Q) :
  Subsequence (deduplicateResults results threshold) results
  /\ hd_error (deduplicateResults results threshold) = hd_error results
  /\ distinct threshold (deduplicateResults results threshold)
  /\ forall result,
       In result results ->
       In result (deduplicateResults results threshold)
       \/ isDuplicate threshold (deduplicateResults results threshold) result
          = true.
Proof.
  unfold deduplicateResults. repeat split.
  - destruct (fold_extends threshold results []) as (k & E & S).
    now rewrite E.
  - destruct results as [|x l]; [reflexivity|]. simpl.
    destruct (fold_extends threshold l (visit threshold [] x)) as (k & E & _).
    rewrite E. reflexivity.
  - apply fold_distinct, distinct_nil.
  - intros x Hin. now apply fold_covers.
Qed.

(** X25 (deduplication is idempotent).  Deduplicating what a deduplication
    has kept, with the same threshold, keeps all of it. *)
Theorem deduplicateResults_idempotent (results : list Result) (threshold : Q) :
  deduplicateResults (deduplicateResults results threshold) threshold
  = deduplicateResults results threshold.
Proof.
  unfold deduplicateResults at 1.
  apply (fold_of_distinct threshold _ []).
  apply fold_distinct, distinct_nil.
Qed.


(** *** Results with the same text *)

Lemma sameWord_eq a b : sameWord a b = true <-> a = b.
Proof. unfold sameWord. destruct (list_eq_dec ascii_dec a b); split; congruence. Qed.

Lemma has_In w l : has w l = true <-> In w l.
Proof.
  unfold has. rewrite existsb_exists. split.
  - intros (x & Hx & E). apply sameWord_eq in E. now subst.
  - intros H. exists w. split; [exact H | now apply sameWord_eq].
Qed.

Lemma filter_comm {A} (f g : A -> bool) l :
  filter f (filter g l) = filter g (filter f l).
Proof.
  induction l as [|x l IH]; simpl; [reflexivity|].
  destruct (g x) eqn:G, (f x) eqn:F; simpl; rewrite ?G, ?F, IH; reflexivity.
Qed.

Lemma filter_weaker {A} (f g : A -> bool) l :
  (forall y, f y = true -> g y = true) ->
  filter f (filter g l) = filter f l.
Proof.
  intros H. induction l as [|x l IH]; simpl; [reflexivity|].
  destruct (g x) eqn:G; simpl.
  - now rewrite IH.
  - destruct (f x) eqn:F; [| exact IH].
    apply H in F. congruence.
Qed.

Lemma filter_all {A} (g : A -> bool) l :
  (forall y, In y l -> g y = true) -> filter g l = l.
Proof.
  induction l as [|x l IH]; intros H; simpl; [reflexivity|].
  rewrite (H x (or_introl eq_refl)), IH; [reflexivity|].
  intros y Hy. apply H. now right.
Qed.

Lemma newSet_filter f l : filter f (newSet l) = newSet (filter f l).
Proof.
  induction l as [|x l IH]; simpl; [reflexivity|].
  destruct (f x) eqn:F; simpl.
  - now rewrite filter_comm, IH.
  - rewrite <- IH. apply filter_weaker.
    intros y Fy. destruct (sameWord x y) eqn:E; [| reflexivity].
    apply sameWord_eq in E. congruence.
Qed.

Lemma newSet_of_set l : NoDup l -> newSet l = l.
Proof.
  induction 1 as [|x l Hx Hl IH]; simpl; [reflexivity|].
  rewrite IH, filter_all; [reflexivity|].
  intros y Hy. destruct (sameWord x y) eqn:E; [| reflexivity].
  apply sameWord_eq in E. now subst.
Qed.

Lemma newSet_NoDup l : NoDup (newSet l).
Proof.
  induction l as [|x l IH]; simpl; constructor.
  - rewrite filter_In. intros [_ H].
    assert (E : sameWord x x = true) by now apply sameWord_eq.
    now rewrite E in H.
  - now apply NoDup_filter.
Qed.

Lemma newSet_absorbs a : forall b,
  NoDup a -> incl b a -> newSet (a ++ b) = a.
Proof.
  induction a as [|x a IH]; intros b Ha Hb.
  - destruct b as [|y b]; [reflexivity|]. elim (Hb y). now left.
  - simpl. rewrite newSet_filter, filter_app.
    inversion Ha as [|x' a' Hx Ha']; subst.
    rewrite (filter_all _ a).
    + rewrite IH; [reflexivity | exact Ha'|].
      intros y Hy. apply filter_In in Hy as [Hy E].
      destruct (Hb y Hy) as [<- | H]; [| exact H].
      assert (E' : sameWord x x = true) by now apply sameWord_eq.
      now rewrite E' in E.
    + intros y Hy. destruct (sameWord x y) eqn:E; [| reflexivity].
      apply sameWord_eq in E. now subst.
Qed.

Lemma splitFrom_nonempty s : forall word inGap, splitFrom word inGap s <> [].
Proof.
  induction s as [|c s IH]; intros word inGap; simpl; [discriminate|].
  destruct (isWhiteSpace c); [destruct inGap|]; try discriminate; apply IH.
Qed.

Lemma newSet_nonempty l : l <> [] -> newSet l <> [].
Proof. destruct l; [congruence | discriminate]. Qed.

(** A text is as similar to itself as can be. *)
Lemma similarity_same text : similarity text text == 1.
Proof.
  unfold similarity.
  set (words := newSet (split (toLowerCase text))).
  assert (Hset : NoDup words) by apply newSet_NoDup.
  assert (Hne : words <> []).
  { apply newSet_nonempty, splitFrom_nonempty. }
  rewrite (filter_all _ words) by (intros y Hy; now apply has_In).
  rewrite (newSet_of_set words Hset).
  rewrite (newSet_absorbs words words Hset (incl_refl words)).
  apply Qmult_inv_r.
  destruct words as [|w l]; [congruence|].
  unfold Qeq, inject_Z. simpl. lia.
Qed.

Lemma distinct_prefix threshold a b :
  distinct threshold (a ++ b) -> distinct threshold a.
Proof.
  intros H before x after E. apply (H before x (after ++ b)).
  rewrite E, <- app_assoc. reflexivity.
Qed.

Lemma distinct_texts threshold kept :
  threshold < 1 ->
  distinct threshold kept ->
  NoDup (map textOf kept).
Proof.
  intros Hth. induction kept as [|x kept IH] using rev_ind; intros H.
  - constructor.
  - rewrite map_app. simpl.
    rewrite <- (rev_involutive (map textOf kept ++ [textOf x])).
    apply NoDup_rev. rewrite rev_app_distr. simpl. constructor.
    + intros Hin. apply in_rev in Hin. apply in_map_iff in Hin as (y & E & Hy).
      pose proof (H kept x [] eq_refl) as D. unfold isDuplicate in D.
      assert (D' : existsb (fun existing =>
                              Js.ltb threshold
                                (similarity (textOf x) (textOf existing)))
                           kept = true).
      { apply existsb_exists. exists y. split; [exact Hy|].
        apply Detector.ltb_lt. rewrite E, similarity_same. exact Hth. }
      congruence.
    + apply NoDup_rev, IH. now apply distinct_prefix with [x].
Qed.

(** Whether a result is a duplicate depends on its text only. *)
Lemma isDuplicate_text threshold acc x y :
  textOf x = textOf y ->
  isDuplicate threshold acc x = isDuplicate threshold acc y.
Proof. unfold isDuplicate. now intros ->. Qed.

(** When the loop reaches a result whose text an earlier result had, it finds
    it a duplicate of a result it has kept. *)
Lemma later_same_text threshold before x :
  threshold < 1 ->
  (exists y, In y before /\ textOf y = textOf x) ->
  isDuplicate threshold (fold_left (visit threshold) before []) x = true.
Proof.
  intros Hth (y & Hy & E).
  rewrite (isDuplicate_text threshold _ x y (eq_sym E)).
  destruct (fold_covers threshold before [] y Hy) as [Hin | Hd]; [| exact Hd].
  unfold isDuplicate. apply existsb_exists. exists y. split; [exact Hin|].
  apply Detector.ltb_lt. rewrite similarity_same. exact Hth.
Qed.

(** X26 (one result for a text).  With a threshold below 1, as the default
    0.9 is, the results kept have texts different from one another, and a
    result that comes after a result with the same text (the results that
    have no text at all have the same, empty one) is never kept: the loop
    finds it a duplicate, and what the function returns is what it returns
    for the results without it. *)
Theorem one_result_per_text (results : list Result) (threshold : Q) :
  threshold < 1 ->
  NoDup (map textOf (deduplicateResults results threshold))
  /\ forall before x after,
       results = before ++ x :: after ->
       (exists y, In y before /\ textOf y = textOf x) ->
       isDuplicate threshold (deduplicateResults before threshold) x = true
       /\ deduplicateResults results threshold
          = deduplicateResults (before ++ after) threshold.
Proof.
  intros Hth. split.
  - apply (distinct_texts threshold _ Hth).
    apply fold_distinct, distinct_nil.
  - intros before x after -> Hy.
    pose proof (later_same_text threshold before x Hth Hy) as D.
    split; [exact D|].
    unfold deduplicateResults. rewrite !fold_left_app. simpl.
    unfold visit at 2. now rewrite D.
Qed.

(** Four results, the third without a text like the first and the fourth
    with the text of the second: the first two are kept.  And three results
    of which the last two have the same text, ten of its eleven words being
    those of the first: the first alone is kept. *)
Lemma one_result_per_text_witness :
  (NoDup (map textOf (deduplicateResults repeatedTexts defaultThreshold))
   /\ deduplicateResults repeatedTexts defaultThreshold
      = deduplicateResults
          [mkResult (str "a") None;
           mkResult (str "b") (Some (str "Next.js and React"));
           mkResult (str "d") (Some (str "Next.js and React"))]
          defaultThreshold)
  /\ deduplicateResults repeatedTexts defaultThreshold
     = [mkResult (str "a") None;
        mkResult (str "b") (Some (str "Next.js and React"))]
  /\ deduplicateResults
       [mkResult (str "1") (Some (str "a b c d e f g h i j"));
        mkResult (str "2") (Some (str "a b c d e f g h i j k"));
        mkResult (str "3") (Some (str "a b c d e f g h i j k"))]
       defaultThreshold
     = [mkResult (str "1") (Some (str "a b c d e f g h i j"))].
Proof.
  destruct (one_result_per_text repeatedTexts defaultThreshold eq_refl)
    as [H1 H2].
  destruct (H2 [mkResult (str "a") None;
                mkResult (str "b") (Some (str "Next.js and React"))]
               (mkResult (str "c") None)
               [mkResult (str "d") (Some (str "Next.js and React"))]
               eq_refl) as [_ H3].
  { exists (mkResult (str "a") None). split; [now left | reflexivity]. }
  split; [split; [exact H1 | exact H3]|].
  vm_compute. split; reflexivity.
Defined.

End Retrieval.

(* ------------------------------------------------------------------------- *)
(** ** Chunking of a document *)

Module Chunking.
Import Text Rag.

Lemma splitFrom_word w : forall word inGap rest,
  solid w ->
  splitFrom word inGap (w ++ rest)
  = splitFrom (rev w ++ word)
              (match w with [] => inGap | _ :: _ => false end) rest.
Proof.
  induction w as [|c w IH]; intros word inGap rest Hw; [reflexivity|].
  unfold solid in Hw. simpl in Hw. apply andb_true_iff in Hw as [Hc Hw].
  apply negb_true_iff in Hc. simpl. rewrite Hc.
  rewrite (IH (c :: word) false rest Hw), <- app_assoc. simpl.
  now destruct w.
Qed.

Lemma lastChar_tail c s : s <> [] -> lastChar (c :: s) = lastChar s.
Proof. intros H. exact (StopCommand.lastChar_app_nonempty [c] s H). Qed.

(** A piece without white space that stands between white space, or at an
    end of the string, is one of the pieces of [split]. *)
Lemma splitFrom_finds w post : 
  solid w -> w <> [] -> startsOpen post ->
  forall pre word inGap,
    match lastChar pre with
    | Some c => isWhiteSpace c = true
    | None => word = []
    end ->
    In w (splitFrom word inGap (pre ++ w ++ post)).
Proof.
  intros Hw Hne Hpost. induction pre as [|c pre IH]; intros word inGap H.
  - simpl in H. subst word. simpl app.
    rewrite (splitFrom_word w [] inGap post Hw), app_nil_r.
    replace (match w with [] => inGap | _ :: _ => false end) with false
      by (destruct w; congruence).
    destruct post as [|d post]; cbn [splitFrom].
    + left. apply rev_involutive.
    + unfold startsOpen in Hpost. simpl in Hpost. rewrite Hpost.
      left. apply rev_involutive.
  - simpl. destruct (isWhiteSpace c) eqn:E.
    + assert (G : In w (splitFrom [] true (pre ++ w ++ post))).
      { apply IH. destruct pre as [|d pre]; [reflexivity|].
        rewrite lastChar_tail in H by discriminate.
        destruct (lastChar (d :: pre)); [exact H | reflexivity]. }
      destruct inGap; [exact G | now right].
    + apply IH. destruct pre as [|d pre].
      * unfold lastChar in H. simpl in H. congruence.
      * rewrite lastChar_tail in H by discriminate.
        destruct (lastChar (d :: pre)) eqn:L; [exact H|].
        unfold lastChar in L. simpl in L.
        destruct (rev pre); discriminate.
Qed.

Lemma endsOpen_app a b : endsOpen b -> b <> [] -> endsOpen (a ++ b).
Proof.
  intros H Hb. unfold endsOpen.
  now rewrite StopCommand.lastChar_app_nonempty.
Qed.

(** A word of the list stands, in the joined string, between separators. *)
Lemma join_finds w words :
  In w words ->
  exists pre post,
    join (str " ") words = pre ++ w ++ post
    /\ endsOpen pre /\ startsOpen post.
Proof.
  induction words as [|x rest IH]; intros Hin; [contradiction|].
  destruct rest as [|y rest].
  - destruct Hin as [-> | []]. exists [], []. simpl.
    rewrite app_nil_r. repeat split.
  - destruct Hin as [-> | Hin].
    + exists [], (str " " ++ join (str " ") (y :: rest)).
      repeat split.
    + destruct (IH Hin) as (pre & post & E & Hpre & Hpost).
      exists (x ++ str " " ++ pre), post.
      change (join (str " ") (x :: y :: rest))
        with (x ++ str " " ++ join (str " ") (y :: rest)).
      rewrite E, <- !app_assoc. split; [reflexivity|]. split; [| exact Hpost].
      rewrite app_assoc. destruct pre as [|c pre].
      * rewrite app_nil_r. apply endsOpen_app; [reflexivity | discriminate].
      * apply endsOpen_app; [exact Hpre | discriminate].
Qed.

Lemma solid_first x w : solid (x :: w) -> isWhiteSpace x = false.
Proof.
  unfold solid. simpl. intros H. apply andb_true_iff in H as [H _].
  now apply negb_true_iff.
Qed.

Lemma solid_rev w : solid w -> solid (rev w).
Proof.
  unfold solid. rewrite !forallb_forall. intros H x Hx.
  apply H. now apply in_rev.
Qed.

(** [trim] keeps a piece that stands in the string, and the white space or
    the end next to it. *)
Lemma trim_keeps_piece pre w post :
  solid w -> w <> [] -> endsOpen pre -> startsOpen post ->
  exists pre' post',
    trim (pre ++ w ++ post) = pre' ++ w ++ post'
    /\ endsOpen pre' /\ startsOpen post'.
Proof.
  intros Hw Hne Hpre Hpost.
  exists (dropWhile isWhiteSpace pre), (trimEnd post).
  split; [| split].
  - unfold trim, trimStart.
    destruct w as [|x w']; [congruence|].
    pose proof (solid_first x w' Hw) as Hx.
    simpl app. rewrite (StopCommand.dropWhile_app _ pre x (w' ++ post) Hx).
    unfold trimEnd.
    pose proof (solid_rev _ Hw) as Hr.
    destruct (rev (x :: w')) as [|y l] eqn:E.
    { apply (f_equal (@rev ascii)) in E. rewrite rev_involutive in E.
      discriminate. }
    pose proof (solid_first y l Hr) as Hy.
    change (dropWhile isWhiteSpace pre ++ x :: w' ++ post)
      with (dropWhile isWhiteSpace pre ++ (x :: w') ++ post).
    rewrite !rev_app_distr, E. rewrite <- app_assoc. simpl app.
    rewrite (StopCommand.dropWhile_app _ (rev post) y _ Hy).
    rewrite rev_app_distr.
    change (y :: l ++ rev (dropWhile isWhiteSpace pre))
      with ((y :: l) ++ rev (dropWhile isWhiteSpace pre)).
    rewrite rev_app_distr, rev_involutive, <- E, rev_involutive.
    now rewrite <- app_assoc.
  - destruct (StopCommand.dropWhile_suffix isWhiteSpace pre) as [d E].
    destruct (dropWhile isWhiteSpace pre) as [|c rest] eqn:D; [exact I|].
    unfold endsOpen in *. rewrite E in Hpre.
    rewrite StopCommand.lastChar_app_nonempty in Hpre by discriminate.
    exact Hpre.
  - destruct (StopCommand.dropWhile_suffix isWhiteSpace (rev post)) as [d E].
    apply (f_equal (@rev ascii)) in E.
    rewrite rev_involutive, rev_app_distr in E.
    fold (trimEnd post) in E.
    destruct (trimEnd post) as [|c rest] eqn:D; [exact I|].
    unfold startsOpen in *. rewrite E in Hpost. exact Hpost.
Qed.

(** The chunk made of a slice holds every word of the slice. *)
Lemma chunk_holds w words :
  In w words -> solid w -> w <> [] ->
  trim (join (str " ") words) <> []
  /\ In w (split (trim (join (str " ") words))).
Proof.
  intros Hin Hw Hne.
  destruct (join_finds w words Hin) as (pre & post & E & Hpre & Hpost).
  destruct (trim_keeps_piece pre w post Hw Hne Hpre Hpost)
    as (pre' & post' & E' & Hpre' & Hpost').
  rewrite E, E'. split.
  - destruct w; [congruence|]. now destruct pre'.
  - apply splitFrom_finds; auto.
    unfold endsOpen in Hpre'. now destruct (lastChar pre').
Qed.

Lemma splitFrom_solid s : forall word inGap,
  solid word -> Forall solid (splitFrom word inGap s).
Proof.
  induction s as [|c s IH]; intros word inGap Hw; simpl.
  - constructor; [now apply solid_rev | constructor].
  - destruct (isWhiteSpace c) eqn:E.
    + destruct inGap; [now apply IH|].
      constructor; [now apply solid_rev | now apply IH].
    + apply IH. unfold solid in *. simpl. now rewrite E, Hw.
Qed.

Lemma slice_holds (words : list Str) (i size : Z) (k : nat) w :
  (0 <= i)%Z -> (i <= Z.of_nat k < i + size)%Z ->
  nth_error words k = Some w ->
  In w (slice i (i + size) words).
Proof.
  intros Hi Hk Hw.
  assert (Hlen : (k < length words)%nat).
  { apply nth_error_Some. congruence. }
  unfold slice, clampIndex.
  replace (i <? 0)%Z with false by (symmetry; apply Z.ltb_ge; lia).
  replace (i + size <? 0)%Z with false by (symmetry; apply Z.ltb_ge; lia).
  apply nth_error_In with (n := (k - Z.to_nat i)%nat).
  rewrite nth_error_firstn.
  replace (k - Z.to_nat i <? Z.to_nat
             (Z.min (i + size) (Z.of_nat (length words))
              - Z.min i (Z.of_nat (length words))))%nat
    with true by (symmetry; apply Nat.ltb_lt; lia).
  rewrite nth_error_skipn.
  replace (Z.to_nat (Z.min i (Z.of_nat (length words))) + (k - Z.to_nat i))%nat
    with k by lia.
  exact Hw.
Qed.

Lemma chunkLoop_covers (words : list Str) (size step : Z) :
  Forall solid words ->
  (1 <= step <= size)%Z ->
  forall fuel i,
    (0 <= i)%Z ->
    (Z.max 0 (Z.of_nat (length words) - i) < Z.of_nat fuel)%Z ->
    exists chunks,
      chunkLoop fuel words size step i = Some chunks
      /\ forall k w,
           (i <= Z.of_nat k)%Z ->
           nth_error words k = Some w -> w <> [] ->
           exists chunk, In chunk chunks /\ In w (split chunk).
Proof.
  intros Hsolid Hstep. induction fuel as [|fuel IH]; intros i Hi Hfuel; [lia|].
  simpl. destruct (i <? Z.of_nat (length words))%Z eqn:E.
  - apply Z.ltb_lt in E.
    destruct (IH (i + step)%Z) as (chunks & -> & Hcov); [lia | lia|].
    eexists. split; [reflexivity|].
    intros k w Hk Hw Hne.
    destruct (Z_lt_ge_dec (Z.of_nat k) (i + step)) as [Hin | Hout].
    + assert (Hs : In w (slice i (i + size) words)).
      { apply slice_holds with k; auto. lia. }
      assert (Hsw : solid w).
      { rewrite Forall_forall in Hsolid. apply Hsolid.
        now apply nth_error_In with k. }
      destruct (chunk_holds w _ Hs Hsw Hne) as [Hchunk Hword].
      destruct (trim (join (str " ") (slice i (i + size) words)))
        as [|c chunk] eqn:T; [congruence|].
      exists (c :: chunk). split; [| exact Hword].
      change [" "%char] with (str " "). rewrite T. now left.
    + destruct (Hcov k w ltac:(lia) Hw Hne) as (chunk & Hc & Hword).
      exists chunk. split; [| exact Hword].
      destruct (isEmpty _); [exact Hc | now right].
  - exists []. split; [reflexivity|].
    intros k w Hk Hw. apply Z.ltb_ge in E.
    assert (k < length words)%nat by (apply nth_error_Some; congruence).
    lia.
Qed.

Lemma chunkLoop_more_fuel words size step : forall fuel fuel' i chunks,
  chunkLoop fuel words size step i = Some chunks ->
  (fuel <= fuel')%nat ->
  chunkLoop fuel' words size step i = Some chunks.
Proof.
  induction fuel as [|fuel IH]; intros fuel' i chunks H Hle; [discriminate|].
  destruct fuel' as [|fuel']; [lia|]. simpl in *.
  destruct (i <? Z.of_nat (length words))%Z; [| exact H].
  destruct (chunkLoop fuel words size step (i + step)) as [rest|] eqn:E;
    [| discriminate].
  rewrite (IH fuel' _ _ E); [exact H | lia].
Qed.

(** X27 (no word is lost in chunking).  With an overlap that is not
    negative and below the chunk size, as with the defaults 50 and 500,
    [chunkText] returns after at most as many rounds as the text has
    pieces, and every word of the text is a word of one of the chunks. *)
Theorem chunkText_covers (text : Str) (maxChunkSize overlap : Z) :
  (0 <= overlap < maxChunkSize)%Z ->
  exists chunks,
    (forall fuel, (length (split text) < fuel)%nat ->
                  chunkText fuel text maxChunkSize overlap = Some chunks)
    /\ forall w, In w (split text) -> w <> [] ->
                 exists chunk, In chunk chunks /\ In w (split chunk).
Proof.
  intros H. unfold chunkText.
  destruct (chunkLoop_covers (split text) maxChunkSize
              (maxChunkSize - overlap)
              (splitFrom_solid text [] false eq_refl) ltac:(lia)
              (S (length (split text))) 0%Z ltac:(lia) ltac:(lia))
    as (chunks & E & Hcov).
  exists chunks. split.
  - intros fuel Hfuel.
    apply (chunkLoop_more_fuel _ _ _ _ fuel 0%Z chunks E). lia.
  - intros w Hin Hne. apply In_nth_error in Hin as [k Hk].
    apply (Hcov k w); auto. lia.
Qed.

Lemma chunkText_covers_witness :
  exists chunks,
    (forall fuel, (length (split (str "Next.js  and React")) < fuel)%nat ->
                  chunkText fuel (str "Next.js  and React")
                            defaultChunkSize defaultOverlap = Some chunks)
    /\ forall w, In w (split (str "Next.js  and React")) -> w <> [] ->
                 exists chunk, In chunk chunks /\ In w (split chunk).
Proof.
  apply (chunkText_covers (str "Next.js  and React")
           defaultChunkSize defaultOverlap).
  unfold defaultChunkSize, defaultOverlap. lia.
Defined.

Lemma chunkLoop_runs_on words size step :
  (step <= 0)%Z -> words <> [] ->
  forall fuel i, (i <= 0)%Z -> chunkLoop fuel words size step i = None.
Proof.
  intros Hstep Hne. induction fuel as [|fuel IH]; intros i Hi; [reflexivity|].
  simpl.
  replace (i <? Z.of_nat (length words))%Z with true
    by (symmetry; apply Z.ltb_lt; destruct words; [congruence | simpl; lia]).
  now rewrite IH by lia.
Qed.

(** X29 (chunking with an overlap that is no smaller than the chunk).  With
    an overlap equal to the chunk size or above it the index of the loop
    never advances: whatever the text, the empty one included, and however
    many rounds are granted, [chunkText] has not returned. *)
Theorem chunkText_never_returns (text : Str) (maxChunkSize overlap : Z)
  (fuel : nat) :
  (maxChunkSize <= overlap)%Z ->
  chunkText fuel text maxChunkSize overlap = None.
Proof.
  intros H. unfold chunkText.
  apply chunkLoop_runs_on; [lia | apply Retrieval.splitFrom_nonempty | lia].
Qed.

Lemma chunkText_never_returns_witness :
  chunkText 1000 (str "Next.js and React") 50 50 = None.
Proof.
  apply chunkText_never_returns. lia.
Defined.

End Chunking.

(* ------------------------------------------------------------------------- *)
(** ** The topic of a message *)

Module Learning.
Import Text Learn.

Lemma startsWith_prefix a b : forall s,
  startsWith (a ++ b) s = true -> startsWith a s = true.
Proof.
  induction a as [|x a IH]; intros s H; [reflexivity|].
  destruct s as [|y s]; [discriminate|]. simpl in *.
  apply andb_true_iff in H as [H1 H2]. now rewrite H1, (IH s H2).
Qed.

Lemma includes_prefix a b s :
  includes (a ++ b) s = true -> includes a s = true.
Proof.
  induction s as [|c s IH]; simpl; intros H.
  - rewrite orb_false_r in *. now apply startsWith_prefix with b.
  - apply orb_true_iff in H as [H | H].
    + now rewrite (startsWith_prefix a b _ H).
    + rewrite (IH H). apply orb_true_r.
Qed.

Lemma includes_here w s : startsWith w s = true -> includes w s = true.
Proof. intros H. destruct s; simpl; now rewrite H. Qed.

Lemma startsWith_suffix a b : forall s,
  startsWith (a ++ b) s = true -> startsWith b (skipn (length a) s) = true.
Proof.
  induction a as [|x a IH]; intros s H; [exact H|].
  destruct s as [|y s]; [discriminate|]. simpl in *.
  apply andb_true_iff in H as [_ H]. now apply IH.
Qed.

Lemma includes_skipn w n : forall s,
  includes w (skipn n s) = true -> includes w s = true.
Proof.
  induction n as [|n IH]; intros s H; [exact H|].
  destruct s as [|c s]; [exact H|]. simpl in *.
  rewrite (IH s H). apply orb_true_r.
Qed.

Lemma includes_suffix a b s :
  includes (a ++ b) s = true -> includes b s = true.
Proof.
  induction s as [|c s IH]; simpl; intros H.
  - rewrite orb_false_r in H.
    apply startsWith_suffix in H. apply includes_here in H.
    now apply includes_skipn in H.
  - apply orb_true_iff in H as [H | H].
    + apply startsWith_suffix in H. apply includes_here in H.
      now apply includes_skipn in H.
    + rewrite (IH H). apply orb_true_r.
Qed.

(** X28 (keywords that never decide).  The keywords are tried as
    substrings, category by category: ["your"] and ["can you"] contain
    ["you"], which is tried before them, so they never decide the category
    of a message; in particular a message with ["can you"] in it is never
    put under [help] on that account, but under [personal] or a category
    before it. *)
Theorem shadowed_keywords_never_decide (message : Str) :
  categorizeMessage message
  = firstCategory (toLowerCase message) effectiveCategories
  /\ (includes (str "can you") (toLowerCase message) = true ->
      categorizeMessage message <> help
      /\ categorizeMessage message <> general).
Proof.
  unfold categorizeMessage.
  set (lower := toLowerCase message).
  assert (Hyour : includes (str "your") lower = true ->
                  includes (str "you") lower = true).
  { exact (includes_prefix (str "you") (str "r") lower). }
  assert (Hcan : includes (str "can you") lower = true ->
                 includes (str "you") lower = true).
  { exact (includes_suffix (str "can ") (str "you") lower). }
  split.
  - unfold categories, effectiveCategories. cbn [firstCategory existsb].
    destruct (includes (str "you") lower) eqn:Eyou.
    + reflexivity.
    + destruct (includes (str "your") lower) eqn:E1;
        [discriminate (Hyour eq_refl)|].
      destruct (includes (str "can you") lower) eqn:E2;
        [discriminate (Hcan eq_refl)|].
      reflexivity.
  - intros H. apply Hcan in H.
    unfold categories. cbn [firstCategory existsb]. rewrite H.
    cbn [orb].
    repeat match goal with
           | |- context [if ?b then _ else _] =>
               destruct b; [split; discriminate|]
           end.
    split; discriminate.
Qed.

Lemma shadowed_keywords_never_decide_witness :
  categorizeMessage (str "Can you explain it?") <> help
  /\ categorizeMessage (str "Can you explain it?") <> general.
Proof.
  apply (proj2 (shadowed_keywords_never_decide (str "Can you explain it?"))).
  reflexivity.
Defined.

End Learning.
